(** * Page Replacement Algorithm Analyzer: a shallow embedding

    The development follows [PageReplacementAnalyzer.cpp].  Every C++
    function that the statements below talk about is rendered as a Rocq
    function of the same name:

    - [int] values are integers of [Z]; the result of every [int]
      addition, increment and multiplication is brought back into the
      32-bit range by [wrap], and the conversion of an [int] to [size_t]
      (in [cache.size() == noOfRAMPages]) is [to_size_t];
    - [vector<T>] is [list T], read and written by position through
      [at_index] and [set_index], which fail outside the vector;
    - [unordered_set<int>] and [set<int>] are [gset Z], [unordered_map] and
      [map] are [gmap Z Z]; the order in which a range-for visits an
      [unordered_set] is not fixed by C++, so the two policies that
      iterate over the resident set take that order as a parameter;
    - an operation whose behaviour C++ leaves undefined (front of an empty
      queue, last element of an empty set, a vector read past its end, a
      division without a quotient) ends the run with a [fault]; a victim
      that was never assigned is erased as whatever value the variable
      holds, which removes nothing from an empty set and is a [fault] on
      any other;
    - [std::string] is [string]; the two uses of [to_string], on an [int]
      and on a [double], are parameters of the printing code;
    - a [while] loop is given the number of rounds it may run, and a run
      that needs more of them is reported as [StillRunning]. *)

From stdpp Require Import gmap list strings.
From Stdlib Require Import ZArith Lia.

Local Open Scope Z_scope.

(** ** Machine integers *)

Definition INT_MAX : Z := 2 ^ 31 - 1.
Definition INT_MIN : Z := - 2 ^ 31.

(** The value an [int] operation leaves in its 32-bit two's complement
    result. *)
Definition wrap (z : Z) : Z := (z + 2 ^ 31) mod 2 ^ 32 - 2 ^ 31.

(** Conversion of an [int] to the 64-bit unsigned [size_t]. *)
Definition to_size_t (z : Z) : Z := z mod 2 ^ 64.

Definition is_int (z : Z) : Prop := INT_MIN <= z <= INT_MAX.

(** The constants of the source that select a statistic. *)
Definition MISS : Z := 0.
Definition TOTAL : Z := 1.

(** ** Runs that may go wrong *)

Inductive fault : Type :=
  | EmptyQueueFront            (* [order.front()] on an empty queue *)
  | EmptySetLast               (* [*occSet.rbegin()] on an empty set *)
  | UnassignedVictim           (* [val], never assigned, erased from residents *)
  | OutOfRange (i : Z)         (* [v[i]] outside [0 .. v.size()-1] *)
  | LengthError (n : Z)        (* [vector<int>(n, _)] with a negative [n] *)
  | DivisionByZero             (* [a / 0] *)
  | DivisionOverflow.          (* [INT_MIN / -1] *)

Inductive result (A : Type) : Type :=
  | Ok (a : A)
  | Fault (f : fault).
Arguments Ok {A} a.
Arguments Fault {A} f.

#[global] Instance result_ret : MRet result := λ A, @Ok A.
#[global] Instance result_bind : MBind result :=
  λ A B k r, match r with Ok a => k a | Fault f => Fault f end.

(** [v[i]] and [v[i] = x] on a vector. *)
Definition at_index {A} (v : list A) (i : Z) : result A :=
  if bool_decide (0 <= i) then
    match v !! Z.to_nat i with
    | Some x => Ok x
    | None => Fault (OutOfRange i)
    end
  else Fault (OutOfRange i).

Definition set_index {A} (v : list A) (i : Z) (x : A) : result (list A) :=
  if bool_decide (0 <= i < Z.of_nat (length v)) then Ok (<[Z.to_nat i := x]> v)
  else Fault (OutOfRange i).

(** A loop that visits the elements of [xs] in order, threading the state
    and stopping at the first fault. *)
Fixpoint for_each {A St : Type} (body : A → St → result St) (xs : list A) (st : St)
  : result St :=
  match xs with
  | [] => Ok st
  | x :: xs' => st' ← body x st; for_each body xs' st'
  end.

(** [for (int i = 0; i < total; i++)] visits [0, 1, .., total-1]: the
    increment never leaves the [int] range because [i < total]. *)
Definition upto (total : Z) : list Z := seqZ 0 total.

(** [for (int i = total - 1; i >= 0; i--)] visits [total-1, .., 1, 0];
    the start value is itself the result of an [int] subtraction. *)
Definition downfrom (total : Z) : list Z := reverse (seqZ 0 (wrap (total - 1) + 1)).

(** [a / b] on two [int]s: the quotient is truncated towards zero; a zero
    divisor and [INT_MIN / -1], whose quotient is no [int], have no value. *)
Definition int_div (a b : Z) : result Z :=
  if bool_decide (b = 0) then Fault DivisionByZero
  else if bool_decide (a = INT_MIN ∧ b = -1) then Fault DivisionOverflow
  else Ok (Z.quot a b).

(** [cache.size() == noOfRAMPages]: the [int] is converted to [size_t]. *)
Definition size_is (cache : gset Z) (noOfRAMPages : Z) : bool :=
  bool_decide (Z.of_nat (size cache) = to_size_t noOfRAMPages).

(** [int total = pageID.size()]. *)
Definition size_as_int {A} (v : list A) : Z := wrap (Z.of_nat (length v)).

(** ** FIFO *)

Record FIFO_state : Type := mkFIFO {
  fifo_missCount : Z;
  fifo_cache : gset Z;
  fifo_order : list Z          (* the queue, front first *)
}.

Definition FIFO_init : FIFO_state := mkFIFO 0 ∅ [].

Definition FIFO_body (noOfRAMPages : Z) (id : Z) (st : FIFO_state)
  : result FIFO_state :=
  let '(mkFIFO missCount cache order) := st in
  if bool_decide (id ∈ cache) then Ok st
  else
    let missCount := wrap (missCount + 1) in
    '(cache, order) ←
      (if size_is cache noOfRAMPages then
         match order with
         | [] => Fault EmptyQueueFront
         | front :: rest => Ok (cache ∖ {[front]}, rest)
         end
       else Ok (cache, order));
    Ok (mkFIFO missCount ({[id]} ∪ cache) (order ++ [id])).

Definition FIFO_processRAM (noOfPages noOfRAMPages : Z) (pageID : list Z)
  : result (list Z) :=
  let total := size_as_int pageID in
  st ← for_each (FIFO_body noOfRAMPages) pageID FIFO_init;
  Ok [fifo_missCount st; total].

(** ** LRU and MRU *)

Record LRU_state : Type := mkLRU {
  lru_missCount : Z;
  lru_cache : gset Z;
  lru_lastUsed : gmap Z Z
}.

Definition LRU_init : LRU_state := mkLRU 0 ∅ ∅.

(** [lastUsed[p]] read: a key that is absent reads as 0 (and [operator[]]
    then stores that 0, which later reads cannot tell from absence). *)
Definition last_used (lastUsed : gmap Z Z) (p : Z) : Z := default 0 (lastUsed !! p).

(** [for (int p : cache) if (lastUsed[p] < lru) lru = lastUsed[p], val = p;]
    over the residents in the order [ps]; [val] starts unassigned. *)
Definition LRU_scan (lastUsed : gmap Z Z) (ps : list Z) : Z * option Z :=
  foldl (λ '(lru, val) p,
           if bool_decide (last_used lastUsed p < lru)
           then (last_used lastUsed p, Some p) else (lru, val))
        (INT_MAX, None) ps.

Definition MRU_scan (lastUsed : gmap Z Z) (ps : list Z) : Z * option Z :=
  foldl (λ '(mru, val) p,
           if bool_decide (last_used lastUsed p > mru)
           then (last_used lastUsed p, Some p) else (mru, val))
        (-1, None) ps.

(** The loop body shared by the two policies; [scan] is the search for the
    victim and [iter i cache] the order in which the range-for of step [i]
    visits the residents.  When the search assigns nothing, [val] holds
    whatever the variable happened to hold: [cache.erase(val)] on an empty
    set removes nothing whatever that value is and the step goes on; only
    on a set with residents would the outcome depend on the value. *)
Definition recency_body (scan : gmap Z Z → list Z → Z * option Z)
    (iter : Z → gset Z → list Z) (noOfRAMPages : Z) (pageID : list Z)
    (i : Z) (st : LRU_state) : result LRU_state :=
  let '(mkLRU missCount cache lastUsed) := st in
  id ← at_index pageID i;
  '(missCount, cache) ←
    (if bool_decide (id ∈ cache) then Ok (missCount, cache)
     else
       let missCount := wrap (missCount + 1) in
       cache ←
         (if size_is cache noOfRAMPages then
            match snd (scan lastUsed (iter i cache)) with
            | Some val => Ok (cache ∖ {[val]})
            | None => if bool_decide (cache = ∅) then Ok cache
                      else Fault UnassignedVictim
            end
          else Ok cache);
       Ok (missCount, {[id]} ∪ cache));
  Ok (mkLRU missCount cache (<[id := i]> lastUsed)).

Definition recency_processRAM (scan : gmap Z Z → list Z → Z * option Z)
    (iter : Z → gset Z → list Z) (noOfRAMPages : Z) (pageID : list Z)
  : result (list Z) :=
  let total := size_as_int pageID in
  st ← for_each (recency_body scan iter noOfRAMPages pageID) (upto total) LRU_init;
  Ok [lru_missCount st; total].

Definition LRU_processRAM (iter : Z → gset Z → list Z)
    (noOfPages noOfRAMPages : Z) (pageID : list Z) : result (list Z) :=
  recency_processRAM LRU_scan iter noOfRAMPages pageID.

Definition MRU_processRAM (iter : Z → gset Z → list Z)
    (noOfPages noOfRAMPages : Z) (pageID : list Z) : result (list Z) :=
  recency_processRAM MRU_scan iter noOfRAMPages pageID.

(** An iteration order is admissible when every range-for visits each
    resident exactly once. *)
Definition iter_ok (iter : Z → gset Z → list Z) : Prop :=
  ∀ i cache, iter i cache ≡ₚ elements cache.

(** ** OPT *)

(** The table of next occurrences. *)
Definition OPT_next_body (pageID : list Z) (i : Z) (st : list Z * gmap Z Z)
  : result (list Z * gmap Z Z) :=
  let '(next, futureIndex) := st in
  id ← at_index pageID i;
  next ←
    (match futureIndex !! id with
     | Some j => set_index next i j
     | None => Ok next
     end);
  Ok (next, <[id := i]> futureIndex).

Definition OPT_next (total : Z) (pageID : list Z) : result (list Z) :=
  if bool_decide (total < 0) then Fault (LengthError total)
  else
    st ← for_each (OPT_next_body pageID) (downfrom total)
                  (replicate (Z.to_nat total) total, ∅);
    Ok (fst st).

(** [*occSet.rbegin()]: the largest element of an ordered set. *)
Definition set_last (s : gset Z) : option Z :=
  foldr (λ x acc, Some (from_option (Z.max x) x acc)) None (elements s).

Record OPT_state : Type := mkOPT {
  opt_missCount : Z;
  opt_cache : gset Z;
  opt_occSet : gset Z
}.

Definition OPT_init : OPT_state := mkOPT 0 ∅ ∅.

Definition OPT_body (noOfRAMPages : Z) (pageID next : list Z)
    (i : Z) (st : OPT_state) : result OPT_state :=
  let '(mkOPT missCount cache occSet) := st in
  id ← at_index pageID i;
  if bool_decide (id ∈ cache) then
    nxt ← at_index next i;
    Ok (mkOPT missCount cache ({[nxt]} ∪ (occSet ∖ {[i]})))
  else
    '(cache, occSet) ←
      (if size_is cache noOfRAMPages then
         match set_last occSet with
         | None => Fault EmptySetLast
         | Some removeAt =>
             victim ← at_index pageID removeAt;
             Ok (cache ∖ {[victim]}, occSet ∖ {[removeAt]})
         end
       else Ok (cache, occSet));
    nxt ← at_index next i;
    Ok (mkOPT (wrap (missCount + 1)) ({[id]} ∪ cache) ({[nxt]} ∪ occSet)).

Definition OPT_processRAM (noOfPages noOfRAMPages : Z) (pageID : list Z)
  : result (list Z) :=
  let total := size_as_int pageID in
  next ← OPT_next total pageID;
  st ← for_each (OPT_body noOfRAMPages pageID next) (upto total) OPT_init;
  Ok [opt_missCount st; total].

(** ** The table that maps algorithm names to algorithms

    An entry of [mapping] creates an object of the algorithm's class and
    the runner calls its virtual [processRAM]; the fields the constructor
    stores are not read by any [processRAM], so an entry is represented by
    that method and the algorithm's identifier. *)

Record algoData : Type := mkAlgo {
  processRAM : Z → Z → list Z → result (list Z);
  algoID : Z
}.

Definition mapping (iterL iterM : Z → gset Z → list Z) : list (string * algoData) :=
  [ ("OPT"%string, mkAlgo OPT_processRAM 1);
    ("FIFO"%string, mkAlgo FIFO_processRAM 2);
    ("LRU"%string, mkAlgo (LRU_processRAM iterL) 3);
    ("MRU"%string, mkAlgo (MRU_processRAM iterM) 4) ].

(** ** process *)

Record process : Type := mkProcess {
  proc_noOfRAMPages : Z;
  proc_noOfPages : Z;
  proc_pageID : list Z
}.

Section Generator.
(** [rand()] reads and advances a hidden generator state. *)
Context {RS : Type} (rand : RS → Z * RS).

Definition createProcess_body (noOfPages : Z) (st : list Z * RS) (i : Z)
  : list Z * RS :=
  let '(pageID, s) := st in
  let '(r, s) := rand s in
  let pid := wrap (Z.rem r noOfPages + 1) in
  (pageID ++ [pid], s).

Definition createProcess (noOfPages noOfRAMPages : Z) (s : RS) : process * RS :=
  let noOfBlocks := wrap (100 * noOfPages) in
  let '(pageID, s) :=
    foldl (createProcess_body noOfPages) ([], s) (upto noOfBlocks) in
  (mkProcess noOfRAMPages noOfPages pageID, s).
End Generator.

Definition runProcess_body (p : process) (it : string * algoData)
    (processOutput : list (list Z)) : result (list (list Z)) :=
  if bool_decide (proc_noOfPages p = -1) then
    set_index processOutput (algoID it.2) [-1; -1]
  else
    r ← processRAM it.2 (proc_noOfPages p) (proc_noOfRAMPages p) (proc_pageID p);
    set_index processOutput (algoID it.2) r.

Definition runProcess (mapping : list (string * algoData)) (p : process)
  : result (list (list Z)) :=
  for_each (runProcess_body p) mapping
           (replicate (length mapping + 1) [-1; -1]).

(** ** analyze *)

Record analyze : Type := mkAnalyze {
  an_noOfProcess : Z;
  an_noOfPages : Z;
  an_noOfRAMPages : Z;
  an_curOutput : list (list Z)
}.

Definition createAnalyze (noOfProcess RAMSize processSize pageSize : Z)
  : result analyze :=
  noOfPages ←
    (if bool_decide (pageSize = 0) then Ok (-1)
     else int_div (wrap (wrap (processSize + pageSize) - 1)) pageSize);
  noOfRAMPages ←
    (if bool_decide (pageSize = 0) then Ok (-1) else int_div RAMSize pageSize);
  Ok (mkAnalyze noOfProcess noOfPages noOfRAMPages []).

(** [cell[k] += d] on a [vector<int>]. *)
Definition add_at (cell : list Z) (k d : Z) : result (list Z) :=
  x ← at_index cell k;
  set_index cell k (wrap (x + d)).

Definition mergeOutput_body (curOutput : list (list Z)) (i : Z)
    (this : list (list Z)) : result (list (list Z)) :=
  if bool_decide (Z.of_nat (length this) > i) then
    mine ← at_index this i;
    theirs ← at_index curOutput i;
    t ← at_index theirs TOTAL;
    mine ← add_at mine TOTAL t;
    m ← at_index theirs MISS;
    mine ← add_at mine MISS m;
    set_index this i mine
  else
    theirs ← at_index curOutput i;
    Ok (this ++ [theirs]).

(** [analyze::mergeOutput], with [this->curOutput] passed in and out. *)
Definition mergeOutput (this curOutput : list (list Z)) : result (list (list Z)) :=
  for_each (mergeOutput_body curOutput) (upto (Z.of_nat (length curOutput))) this.

Section Sweep.
Context {RS : Type} (rand : RS → Z * RS).
Context (mapping : list (string * algoData)).

Definition runProcesses_body (a : analyze) (i : Z)
    (st : RS * list (list Z)) : result (RS * list (list Z)) :=
  let '(s, cur) := st in
  let '(curProcess, s) := createProcess rand (an_noOfPages a) (an_noOfRAMPages a) s in
  curOutput ← runProcess mapping curProcess;
  cur ← mergeOutput cur curOutput;
  Ok (s, cur).

(** [mainOutput] is the result matrix held by the last entry of the
    history; [output::mergeOutput] appends one row to it. *)
Definition runProcesses (a : analyze) (st : RS * list (list (list Z)))
  : result (RS * list (list (list Z))) :=
  let '(s, mainOutput) := st in
  '(s, cur) ← for_each (runProcesses_body a) (upto (an_noOfProcess a))
                       (s, an_curOutput a);
  Ok (s, mainOutput ++ [cur]).

(** The body of the loop of [handler::analyzeOnAllPageSize]. *)
Definition analyzeOnAllPageSize_body (RAMSize noOfProcess processSize : Z)
    (curPageSize : Z) (st : RS * list (list (list Z)))
  : result (RS * list (list (list Z))) :=
  curAnalyze ← createAnalyze noOfProcess RAMSize processSize curPageSize;
  runProcesses curAnalyze st.

(** [handler::analyzeOnAllPageSize]: page sizes [0 .. min(RAMSize,
    processSize)], for a bound below [INT_MAX]. *)
Definition analyzeOnAllPageSize (RAMSize noOfProcess processSize : Z)
    (st : RS * list (list (list Z))) : result (RS * list (list (list Z))) :=
  for_each (analyzeOnAllPageSize_body RAMSize noOfProcess processSize)
           (upto (Z.min RAMSize processSize + 1)) st.
End Sweep.

(** ** history::printCurrentStats *)

(** A run of the printing code returns, goes wrong, or is still inside one
    of its [while] loops when the rounds it was given are used up. *)
Inductive run (A : Type) : Type :=
  | Returns (a : A)
  | GoesWrong (f : fault)
  | StillRunning.
Arguments Returns {A} a.
Arguments GoesWrong {A} f.
Arguments StillRunning {A}.

#[global] Instance run_ret : MRet run := λ A, @Returns A.
#[global] Instance run_bind : MBind run :=
  λ A B k r,
    match r with
    | Returns a => k a
    | GoesWrong f => GoesWrong f
    | StillRunning => StillRunning
    end.

Definition lift {A} (r : result A) : run A :=
  match r with Ok a => Returns a | Fault f => GoesWrong f end.

Fixpoint for_run {A St : Type} (body : A → St → run St) (xs : list A) (st : St)
  : run St :=
  match xs with
  | [] => Returns st
  | x :: xs' => st' ← body x st; for_run body xs' st'
  end.

(** [(int)s.size()] of a [string]. *)
Definition string_size_as_int (s : string) : Z := wrap (Z.of_nat (String.length s)).

(** [table[i][j]] and [table[i][j] = x]. *)
Definition get_cell {A} (table : list (list A)) (i j : Z) : result A :=
  row ← at_index table i; at_index row j.

Definition set_cell {A} (table : list (list A)) (i j : Z) (x : A)
  : result (list (list A)) :=
  row ← at_index table i;
  row ← set_index row j x;
  set_index table i row.

(** [for (int i = 1; i < noOfRows; i++)]. *)
Definition rows_from_1 (noOfRows : Z) : list Z := seqZ 1 (noOfRows - 1).

(** [while ((int)table[i][j].size() != mxLen) table[i][j] += ' '], on the
    cell it works on. *)
Fixpoint pad (fuel : nat) (mxLen : Z) (cell : string) : run string :=
  if bool_decide (string_size_as_int cell = mxLen) then Returns cell
  else
    match fuel with
    | O => StillRunning
    | S fuel => pad fuel mxLen (cell +:+ " ")
    end.

(** The loop that draws the top and the bottom border. *)
Fixpoint borders (fuel : nat) (noOfRows : Z) (rowString : list string)
  : run (list string) :=
  top ← lift (at_index rowString 0);
  first ← lift (at_index rowString 1);
  if bool_decide (String.length top = String.length first) then Returns rowString
  else
    match fuel with
    | O => StillRunning
    | S fuel =>
        rowString ← lift (set_index rowString 0 (top +:+ "-"));
        bottom ← lift (at_index rowString (wrap (noOfRows + 1)));
        rowString ← lift (set_index rowString (wrap (noOfRows + 1)) (bottom +:+ "-"));
        borders fuel noOfRows rowString
    end.

Section Print.
(** [to_string(i)] of an [int], and [to_string(1.0 * d / total)] of the
    [double] computed from the [int]s [d] and [total]. *)
Context (to_string_int : Z → string) (to_string_rate : Z → Z → string).
Context (mapping : list (string * algoData)).

Definition label_rows (noOfRows : Z) (table : list (list string))
  : result (list (list string)) :=
  table ← set_cell table 0 0 "Page Size";
  for_each (λ i table, set_cell table i 0 (to_string_int i))
           (rows_from_1 noOfRows) table.

Definition rate_body (mainOutput : list (list (list Z))) (it : string * algoData)
    (i : Z) (table : list (list string)) : result (list (list string)) :=
  row ← at_index mainOutput i;
  cell ← at_index row (algoID it.2);
  total ← at_index cell TOTAL;
  row ← at_index mainOutput i;
  cell ← at_index row (algoID it.2);
  miss ← at_index cell MISS;
  set_cell table i (algoID it.2) (to_string_rate (wrap (total - miss)) total).

Definition column_body (noOfRows : Z) (mainOutput : list (list (list Z)))
    (it : string * algoData) (table : list (list string))
  : result (list (list string)) :=
  table ← set_cell table 0 (algoID it.2) (it.1 +:+ "(Hit Rate)");
  for_each (rate_body mainOutput it) (rows_from_1 noOfRows) table.

(** The width of column [j]. *)
Definition widest (noOfRows : Z) (table : list (list string)) (j : Z) : result Z :=
  for_each (λ i mxLen, cell ← get_cell table i j;
                       Ok (Z.max mxLen (string_size_as_int cell)))
           (upto noOfRows) 0.

Definition pad_body (fuel : nat) (j mxLen : Z) (i : Z) (table : list (list string))
  : run (list (list string)) :=
  cell ← lift (get_cell table i j);
  cell ← pad fuel mxLen cell;
  lift (set_cell table i j cell).

Definition align_body (fuel : nat) (noOfRows : Z) (j : Z) (table : list (list string))
  : run (list (list string)) :=
  mxLen ← lift (widest noOfRows table j);
  for_run (pad_body fuel j mxLen) (upto noOfRows) table.

(** [rowString[k] += s]. *)
Definition append_at (rowString : list string) (k : Z) (s : string)
  : result (list string) :=
  line ← at_index rowString k;
  set_index rowString k (line +:+ s).

Definition line_body (noOfColumns : Z) (table : list (list string)) (i : Z)
    (rowString : list string) : result (list string) :=
  rowString ← append_at rowString (wrap (i + 1)) "| ";
  for_each (λ j rowString, cell ← get_cell table i j;
                           append_at rowString (wrap (i + 1)) (cell +:+ " | "))
           (upto noOfColumns) rowString.

(** The lines that [printCurrentStats] writes, for the result matrix of
    the last entry of the history. *)
Definition printCurrentStats (fuel : nat) (mainOutput : list (list (list Z)))
  : run (list string) :=
  let noOfRows := size_as_int mainOutput in
  let noOfColumns := wrap (Z.of_nat (length mapping) + 1) in
  if bool_decide (noOfColumns < 0) then GoesWrong (LengthError noOfColumns)
  else if bool_decide (noOfRows < 0) then GoesWrong (LengthError noOfRows)
  else
    let table := replicate (Z.to_nat noOfRows) (replicate (Z.to_nat noOfColumns) "") in
    table ← lift (label_rows noOfRows table);
    table ← lift (for_each (column_body noOfRows mainOutput) mapping table);
    table ← for_run (align_body fuel noOfRows) (upto noOfColumns) table;
    let n := wrap (noOfRows + 2) in
    if bool_decide (n < 0) then GoesWrong (LengthError n)
    else
      rowString ← lift (for_each (line_body noOfColumns table) (upto noOfRows)
                                 (replicate (Z.to_nat n) ""));
      rowString ← borders fuel noOfRows rowString;
      Returns ("Results:" :: rowString).

(** [main], for the three numbers that [getInput] reads: the history holds
    one entry, whose result matrix starts empty, is filled by
    [analyzeOnAllPageSize] and is printed by [printAnalyzedData]. *)
Definition main {RS} (rand : RS → Z * RS) (fuel : nat)
    (noOfProcess RAMSize processSize : Z) (s : RS) : run (list string) :=
  st ← lift (analyzeOnAllPageSize rand mapping RAMSize noOfProcess processSize (s, []));
  printCurrentStats fuel st.2.
End Print.

(** * Notions used in the statements *)

(** A trace is well formed when its length fits the [int] that
    [processRAM] stores it in. *)
Definition trace_ok (pageID : list Z) : Prop :=
  Z.of_nat (length pageID) <= INT_MAX.

(** The number of distinct identifiers of a trace. *)
Definition distinct (pageID : list Z) : nat := size (list_to_set pageID : gset Z).

(** What the body of a recency policy needs from its search: on the empty
    set it assigns nothing, and on residents whose last uses are valid
    positions it picks a resident that is extremal for [better]. *)
Record scan_spec (scan : gmap Z Z → list Z → Z * option Z)
    (better : Z → Z → Prop) : Prop := {
  scan_nil : ∀ lastUsed, snd (scan lastUsed []) = None;
  scan_victim : ∀ lastUsed ps,
    ps ≠ [] →
    (∀ p, p ∈ ps → 0 <= last_used lastUsed p < INT_MAX) →
    ∃ v, snd (scan lastUsed ps) = Some v ∧ v ∈ ps ∧
         ∀ q, q ∈ ps → better (last_used lastUsed v) (last_used lastUsed q);
  better_antisym : ∀ a b, better a b → better b a → a = b
}.

(** Before step [i] of LRU or MRU, every resident has its last use recorded, at a
    position below [i] that holds this very resident. *)
Definition recency_inv (pageID : list Z) (i : Z) (st : LRU_state) : Prop :=
  ∀ p, p ∈ lru_cache st →
    ∃ j, lru_lastUsed st !! p = Some j ∧ 0 <= j < i ∧
         pageID !! Z.to_nat j = Some p.

(** The queue of FIFO lists the residents, each once, in the order of
    their arrival; so the front is the one resident that arrived first. *)
Definition FIFO_inv (noOfRAMPages : Z) (st : FIFO_state) : Prop :=
  fifo_cache st = list_to_set (fifo_order st) ∧ NoDup (fifo_order st) ∧
  Z.of_nat (size (fifo_cache st)) <= noOfRAMPages.

(** FIFO as the specification words it, with the resident set kept as the
    residents and the positions of the references that brought them in: a
    hit changes nothing; a miss with a frame to spare brings the identifier
    in; a miss with all frames taken first removes a resident that arrived
    earliest.  The rule admits every resident that no other resident
    precedes: that there is exactly one is a theorem, not part of the
    rule.  [arrival_run frameCapacity trace k arrived missCount] holds when
    the first [k] references can leave the residents [arrived] and
    [missCount] misses. *)
Inductive arrival_run (frameCapacity : Z) (trace : list Z)
  : nat → gmap Z nat → Z → Prop :=
  | arrival_start :
      arrival_run frameCapacity trace 0 ∅ 0
  | arrival_hit k arrived missCount id :
      arrival_run frameCapacity trace k arrived missCount →
      trace !! k = Some id → is_Some (arrived !! id) →
      arrival_run frameCapacity trace (S k) arrived missCount
  | arrival_load k arrived missCount id :
      arrival_run frameCapacity trace k arrived missCount →
      trace !! k = Some id → arrived !! id = None →
      Z.of_nat (size arrived) ≠ frameCapacity →
      arrival_run frameCapacity trace (S k) (<[id := k]> arrived) (missCount + 1)
  | arrival_evict k arrived missCount id victim a :
      arrival_run frameCapacity trace k arrived missCount →
      trace !! k = Some id → arrived !! id = None →
      Z.of_nat (size arrived) = frameCapacity →
      arrived !! victim = Some a →
      (∀ q b, arrived !! q = Some b → (a ≤ b)%nat) →
      arrival_run frameCapacity trace (S k)
                  (<[id := k]> (delete victim arrived)) (missCount + 1).

(** A cell is a [vector<int>] with the two statistics, a row has [m]
    cells. *)
Definition cell_ok (cell : list Z) : Prop :=
  ∃ miss total, cell = [miss; total] ∧ is_int miss ∧ is_int total.

Definition row_ok (m : nat) (row : list (list Z)) : Prop :=
  length row = m ∧ Forall cell_ok row.

(** What one pass of [mergeOutput] does to a cell that exists on both
    sides. *)
Definition cell_add (mine theirs : list Z) : list Z :=
  [wrap (nth 0 mine 0 + nth 0 theirs 0); wrap (nth 1 mine 0 + nth 1 theirs 0)].

(** The rows of the processes of one page size, merged in the order of
    [runProcesses] into an accumulator that starts as [this]. *)
Definition merge_all (rows : list (list (list Z))) (this : list (list Z))
  : result (list (list Z)) :=
  for_each (λ curOutput this, mergeOutput this curOutput) rows this.

Definition sumZ (l : list Z) : Z := foldr Z.add 0 l.

(** Statistic [j] of cell [i] of a row. *)
Definition entry (row : list (list Z)) (i j : nat) : Z := nth j (nth i row []) 0.

(** The row of [m] cells whose statistics are given by [f] and [g]. *)
Definition tab (f g : nat → Z) (m : nat) : list (list Z) :=
  (λ i, [f i; g i]) <$> seq 0 m.

(** The elementwise [int] sums of a list of rows. *)
Definition row_sum (m : nat) (rows : list (list (list Z))) : list (list Z) :=
  tab (λ i, wrap (sumZ ((λ row, entry row i 0) <$> rows)))
      (λ i, wrap (sumZ ((λ row, entry row i 1) <$> rows))) m.

(** Every identifier of the table is a valid position of the row that
    [runProcess] fills. *)
Definition ids_in_range (mapping : list (string * algoData)) : Prop :=
  Forall (λ it, 0 <= algoID it.2 <= Z.of_nat (length mapping)) mapping.

(** C++ gives no meaning to OPT's read of the trace at the index
    [pageID.size()], and the model stops there with a fault.  On a machine
    the read returns what the memory behind the vector holds; [OPT_run_stray]
    is the state in which OPT's loop ends when that value is [stray]. *)
Definition OPT_run_stray (stray : Z) (noOfRAMPages : Z) (pageID : list Z)
  : result OPT_state :=
  let total := size_as_int pageID in
  next ← OPT_next total pageID;
  for_each (OPT_body noOfRAMPages (pageID ++ [stray]) next) (upto total) OPT_init.

(** The visiting order in which stdpp lists the elements of a set. *)
Definition canon (i : Z) (cache : gset Z) : list Z := elements cache.

(** A linear congruential generator in the role of [rand]. *)
Definition lcg (s : Z) : Z * Z :=
  let s' := (s * 1103515245 + 12345) mod 2 ^ 31 in (s', s').

(** The trace of the worked example. *)
Definition fixture : list Z := [1; 2; 3; 4; 1; 2; 5; 1; 2; 3; 4; 5].

(** * Notions used in the further properties *)

(** Position of the first [p] in [l], or the length of [l] if there is none. *)
Fixpoint find_from (l : list Z) (p : Z) : nat :=
  match l with
  | [] => 0
  | x :: l' => if decide (x = p) then 0 else S (find_from l' p)
  end.

(** Position of the first occurrence of [p] in [pageID] at or after
    position [i], or the length of [pageID] if there is none. *)
Definition next_occ (pageID : list Z) (i : nat) (p : Z) : nat :=
  (i + find_from (drop i pageID) p)%nat.

(** The state of the loop that fills [next] when the positions from [k]
    on have been visited. *)
Definition OPT_next_inv (pageID : list Z) (k : nat) (st : list Z * gmap Z Z) : Prop :=
  length st.1 = length pageID ∧
  (∀ p, st.2 !! p
        = if decide (next_occ pageID k p < length pageID)%nat
          then Some (Z.of_nat (next_occ pageID k p)) else None) ∧
  (∀ j id, (k ≤ j)%nat → pageID !! j = Some id →
           st.1 !! j = Some (Z.of_nat (next_occ pageID (S j) id))) ∧
  (∀ j, (j < k)%nat → (j < length pageID)%nat →
        st.1 !! j = Some (Z.of_nat (length pageID))).

(** Before step [i] the ordered set holds, for every resident, the
    position of its next occurrence from [i] on (the length of the trace
    for a resident that does not occur again). *)
Definition OPT_inv (pageID : list Z) (i : nat) (st : OPT_state) : Prop :=
  opt_occSet st = set_map (λ p, Z.of_nat (next_occ pageID i p)) (opt_cache st).

(** The steps of OPT's loop from position [j] to the end of the trace. *)
Definition OPT_run_from (noOfRAMPages : Z) (pageID next : list Z) (j : nat)
    (st : OPT_state) : result OPT_state :=
  for_each (OPT_body noOfRAMPages pageID next)
           (seqZ (Z.of_nat j) (Z.of_nat (length pageID - j))) st.

(** A state with all frames taken before a position from which some
    identifier that is not resident is still referenced. *)
Definition OPT_doomed (noOfRAMPages : Z) (pageID : list Z) (j : nat)
    (st : OPT_state) : Prop :=
  OPT_inv pageID j st ∧ Z.of_nat (size (opt_cache st)) = noOfRAMPages ∧
  ∃ (r : nat) v, (j ≤ r)%nat ∧ pageID !! r = Some v ∧ v ∉ opt_cache st.

(** Position of the last [p] in [l]. *)
Fixpoint last_occ (l : list Z) (p : Z) : option nat :=
  match l with
  | [] => None
  | x :: l' =>
      match last_occ l' p with
      | Some k => Some (S k)
      | None => if decide (x = p) then Some 0%nat else None
      end
  end.

(** The state of LRU or MRU after [k] references: the map holds the
    position of the last reference to every identifier seen, the residents
    are among the identifiers seen and fit the frames, and the misses are
    counted between the number of identifiers seen and [k]. *)
Definition recency_state_ok (noOfRAMPages : Z) (pageID : list Z) (k : nat)
    (st : LRU_state) : Prop :=
  (∀ p, lru_lastUsed st !! p = Z.of_nat <$> last_occ (take k pageID) p) ∧
  lru_cache st ⊆ list_to_set (take k pageID) ∧
  Z.of_nat (size (lru_cache st)) <= noOfRAMPages ∧
  Z.of_nat (size (list_to_set (take k pageID) : gset Z)) <= lru_missCount st
    <= Z.of_nat k.

(** The state of FIFO after [k] references. *)
Definition FIFO_state_ok (noOfRAMPages : Z) (pageID : list Z) (k : nat)
    (st : FIFO_state) : Prop :=
  FIFO_inv noOfRAMPages st ∧
  fifo_cache st ⊆ list_to_set (take k pageID) ∧
  Z.of_nat (size (list_to_set (take k pageID) : gset Z)) <= fifo_missCount st
    <= Z.of_nat k.

(** The state of the generator after [k] calls of [rand()]. *)
Fixpoint draws {RS : Type} (rand : RS → Z * RS) (k : nat) (s : RS) : RS :=
  match k with
  | O => s
  | S k => draws rand k (rand s).2
  end.

(** The vector a table entry contributes to the row of a process. *)
Definition entry_result (p : process) (it : string * algoData) : list Z :=
  match processRAM it.2 (proc_noOfPages p) (proc_noOfRAMPages p) (proc_pageID p) with
  | Ok r => r
  | Fault _ => []
  end.

Definition entry_returns (p : process) (it : string * algoData) : Prop :=
  ∃ r, processRAM it.2 (proc_noOfPages p) (proc_noOfRAMPages p) (proc_pageID p) = Ok r.

(** A row in which the four algorithms have the same cell. *)
Definition tied (row : list (list Z)) : Prop :=
  ∃ c0 c, row = [c0; c; c; c; c] ∧ cell_ok c0 ∧ cell_ok c.

(** A queue whose identifiers arrived one after the other, the front
    first. *)
Fixpoint rising (arrived : gmap Z nat) (order : list Z) : Prop :=
  match order with
  | [] => True
  | p :: rest =>
      (∃ a, arrived !! p = Some a ∧
            Forall (λ q, ∃ b, arrived !! q = Some b ∧ (a < b)%nat) rest) ∧
      rising arrived rest
  end.

(** The state of FIFO's loop after [k] references is the state of a run
    by arrival: the set holds the residents of the run, and the queue
    lists them in the order of their arrival. *)
Definition FIFO_arrival_ok (noOfRAMPages : Z) (pageID : list Z) (k : nat)
    (st : FIFO_state) : Prop :=
  ∃ arrived,
    arrival_run noOfRAMPages pageID k arrived (fifo_missCount st) ∧
    dom arrived = fifo_cache st ∧
    fifo_cache st = list_to_set (fifo_order st) ∧
    rising arrived (fifo_order st) ∧
    0 <= fifo_missCount st <= Z.of_nat k.

(** The string of [n] copies of [c]. *)
Fixpoint fill (c : string) (n : nat) : string :=
  match n with O => "" | S n => c +:+ fill c n end.

(** A table of [n] rows and [m] columns whose cell [(i, j)] is [f i j]. *)
Definition represents (f : nat → nat → string) (n m : nat) (t : list (list string))
  : Prop :=
  length t = n ∧
  ∀ i row, t !! i = Some row →
    length row = m ∧ ∀ j, (j < m)%nat → row !! j = Some (f i j).

(** The width of column [j], and cell [(i, j)] padded to it. *)
Definition width (f : nat → nat → string) (n : nat) (j : nat) : nat :=
  max_list_with (λ i, String.length (f i j)) (seq 0 n).

Definition padded (f : nat → nat → string) (n : nat) (i j : nat) : string :=
  f i j +:+ fill " " (width f n j - String.length (f i j)).

(** A line of the table: the cells of row [i], each followed by a bar. *)
Definition render_row (g : nat → nat → string) (m : nat) (i : nat) : string :=
  foldl (λ line j, line +:+ (g i j +:+ " | ")) "| "%string (seq 0 m).

(** The lines of a table of [n] rows and [m] columns between its two
    borders. *)
Definition table_lines (f : nat → nat → string) (n m : nat) : list string :=
  let border := fill "-" (String.length (render_row (padded f n) m 0)) in
  border :: (render_row (padded f n) m <$> seq 0 n) ++ [border].

Section Cells.
Context (to_string_int : Z → string) (to_string_rate : Z → Z → string).

(** The first column, before any rate is written. *)
Definition label_cell (i j : nat) : string :=
  match j, i with
  | O, O => "Page Size"
  | O, _ => to_string_int (Z.of_nat i)
  | _, _ => ""
  end.

(** The name of the algorithm with identifier [j]. *)
Definition column_name (j : nat) : string :=
  match j with
  | 1%nat => "OPT" | 2%nat => "FIFO" | 3%nat => "LRU" | 4%nat => "MRU" | _ => ""
  end.

(** The hit rate of algorithm [j] in row [i] of the result matrix. *)
Definition rate_cell (mainOutput : list (list (list Z))) (i j : nat) : string :=
  let row := nth i mainOutput [] in
  to_string_rate (wrap (entry row j 1 - entry row j 0)) (entry row j 1).

(** The text of cell [(i, j)] of the table: the headings in row 0, the
    page sizes in column 0, and elsewhere the rate of the algorithm with
    identifier [j] in row [i] of the matrix. *)
Definition stats_cell (mainOutput : list (list (list Z))) (i j : nat) : string :=
  match j, i with
  | O, O => "Page Size"
  | O, _ => to_string_int (Z.of_nat i)
  | _, O => column_name j +:+ "(Hit Rate)"
  | _, _ => rate_cell mainOutput i j
  end.
End Cells.

(** The decimal digits of a number below [10 ^ fuel], in front of [acc]. *)
Fixpoint show_digits (fuel : nat) (n : Z) (acc : string) : string :=
  match fuel with
  | O => acc
  | S fuel =>
      let acc := String (Ascii.ascii_of_nat (48 + Z.to_nat (n mod 10))) acc in
      if bool_decide (n / 10 = 0) then acc else show_digits fuel (n / 10) acc
  end.

(** The decimal text of an [int], as [to_string] writes it. *)
Definition show_int (z : Z) : string :=
  if bool_decide (z < 0) then "-" +:+ show_digits 10 (- z) "" else show_digits 10 z "".

(** A rate written as a fraction, in the place of the text of a
    [double]. *)
Definition show_rate (d total : Z) : string := show_int d +:+ "/" +:+ show_int total.

(** The strings that [to_string] returns for [int]s are shorter than
    [2 ^ 31] characters. *)
Definition short_strings (to_string_int : Z → string) (to_string_rate : Z → Z → string)
  : Prop :=
  (∀ z, is_int z → Z.of_nat (String.length (to_string_int z)) <= INT_MAX) ∧
  (∀ d total, is_int d → is_int total →
     Z.of_nat (String.length (to_string_rate d total)) <= INT_MAX).

(** The processes that [runProcesses] generates, one after the other, and
    the state in which they leave the generator. *)
Fixpoint processes {RS : Type} (rand : RS → Z * RS) (noOfPages noOfRAMPages : Z)
    (k : nat) (s : RS) : list process * RS :=
  match k with
  | O => ([], s)
  | S k =>
      let '(p, s) := createProcess rand noOfPages noOfRAMPages s in
      let '(ps, s) := processes rand noOfPages noOfRAMPages k s in
      (p :: ps, s)
  end.

(** One reference against a stack of identifiers that has the identifier
    referenced last on top: the reference is a miss unless the identifier
    is among the [frames] topmost, and the identifier moves to the top. *)
Definition stack_step (frames : nat) (st : list Z * nat) (id : Z) : list Z * nat :=
  (id :: filter (λ q, q ≠ id) st.1,
   if bool_decide (id ∈ take frames st.1) then st.2 else S st.2).

(** The stack and the number of misses after a trace. *)
Definition stack_run (frames : nat) (l : list Z) : list Z * nat :=
  foldl (stack_step frames) ([], 0%nat) l.

(** The position after the last occurrence of an identifier, 0 for an
    identifier that does not occur. *)
Definition stamp (l : list Z) (p : Z) : nat := from_option S 0%nat (last_occ l p).

(** A list whose stamps fall strictly from the head on. *)
Fixpoint falling (key : Z → nat) (r : list Z) : Prop :=
  match r with
  | [] => True
  | p :: r' => Forall (λ q, (key q < key p)%nat) r' ∧ falling key r'
  end.

(** A state of LRU's loop after [k] references agrees with the stack. *)
Definition LRU_stack_ok (noOfRAMPages : Z) (pageID : list Z) (k : nat)
    (st : LRU_state) : Prop :=
  recency_state_ok noOfRAMPages pageID k st ∧
  lru_cache st = list_to_set (take (Z.to_nat noOfRAMPages)
                                   (stack_run (Z.to_nat noOfRAMPages) (take k pageID)).1) ∧
  lru_missCount st = Z.of_nat (stack_run (Z.to_nat noOfRAMPages) (take k pageID)).2.

(** * Basic facts *)

(** Projections out of a state that is given by its constructor. *)
Ltac fields :=
  cbn [fifo_missCount fifo_cache fifo_order lru_missCount lru_cache lru_lastUsed
       opt_missCount opt_cache opt_occSet fst snd] in *.

(** ** [wrap] and [to_size_t] *)

Lemma wrap_id z : is_int z → wrap z = z.
Proof.
  unfold is_int, INT_MIN, INT_MAX, wrap. intros Hz.
  rewrite Z.mod_small by lia. lia.
Qed.

Lemma wrap_is_int z : is_int (wrap z).
Proof.
  unfold is_int, INT_MIN, INT_MAX, wrap.
  pose proof (Z.mod_pos_bound (z + 2 ^ 31) (2 ^ 32)). lia.
Qed.

Lemma wrap_add_l a b : wrap (wrap a + b) = wrap (a + b).
Proof.
  unfold wrap. f_equal.
  replace ((a + 2 ^ 31) mod 2 ^ 32 - 2 ^ 31 + b + 2 ^ 31)
    with ((a + 2 ^ 31) mod 2 ^ 32 + b) by lia.
  rewrite Zplus_mod_idemp_l. f_equal. lia.
Qed.

Lemma wrap_add_r a b : wrap (a + wrap b) = wrap (a + b).
Proof. by rewrite (Z.add_comm a), wrap_add_l, Z.add_comm. Qed.

Lemma to_size_t_id z : 0 <= z <= INT_MAX → to_size_t z = z.
Proof. unfold to_size_t, INT_MAX. intros. apply Z.mod_small. lia. Qed.

Lemma size_as_int_ok pageID :
  trace_ok pageID → size_as_int pageID = Z.of_nat (length pageID).
Proof.
  unfold trace_ok, size_as_int. intros. apply wrap_id.
  unfold is_int, INT_MIN. lia.
Qed.

(** ** Vectors *)

Lemma at_index_lookup {A} (v : list A) (k : nat) x :
  v !! k = Some x → at_index v (Z.of_nat k) = Ok x.
Proof.
  intros Hk. unfold at_index. rewrite bool_decide_eq_true_2 by lia.
  by rewrite Nat2Z.id, Hk.
Qed.

Lemma at_index_Ok {A} (v : list A) i x :
  at_index v i = Ok x → 0 <= i ∧ v !! Z.to_nat i = Some x.
Proof.
  unfold at_index. case_bool_decide; [|done].
  destruct (v !! Z.to_nat i) eqn:E; naive_solver.
Qed.

Lemma at_index_past_end {A} (v : list A) :
  at_index v (Z.of_nat (length v)) = Fault (OutOfRange (Z.of_nat (length v))).
Proof.
  unfold at_index. rewrite bool_decide_eq_true_2 by lia.
  by rewrite Nat2Z.id, lookup_ge_None_2.
Qed.

Lemma set_index_lookup {A} (v : list A) (k : nat) x :
  (k < length v)%nat → set_index v (Z.of_nat k) x = Ok (<[k := x]> v).
Proof.
  intros Hk. unfold set_index. rewrite bool_decide_eq_true_2 by lia.
  by rewrite Nat2Z.id.
Qed.

(** ** Loops *)

Lemma for_each_app {A St} (body : A → St → result St) xs ys st :
  for_each body (xs ++ ys) st = (st' ← for_each body xs st; for_each body ys st').
Proof.
  revert st. induction xs as [|x xs IH]; intros st; [done|].
  simpl. destruct (body x st) as [st'|f]; simpl; [apply IH | done].
Qed.

(** Total correctness of a loop from an invariant indexed by the number
    of elements already visited. *)
Lemma for_each_inv {A St} (I : nat → St → Prop) (body : A → St → result St) xs st :
  I 0%nat st →
  (∀ k x s, xs !! k = Some x → I k s → ∃ s', body x s = Ok s' ∧ I (S k) s') →
  ∃ s', for_each body xs st = Ok s' ∧ I (length xs) s'.
Proof.
  revert I st. induction xs as [|x xs IH]; intros I st H0 Hstep.
  - by exists st.
  - destruct (Hstep 0%nat x st eq_refl H0) as (s1 & Hb & H1).
    destruct (IH (λ k, I (S k)) s1 H1) as (s' & Hrun & Hend).
    { intros k y s Hy Hs. by apply (Hstep (S k)). }
    exists s'. simpl. by rewrite Hb.
Qed.

(** Two bodies that agree on every state the invariant allows run alike. *)
Lemma for_each_agree {A St} (I : nat → St → Prop) (body body' : A → St → result St) xs st :
  I 0%nat st →
  (∀ k x s, xs !! k = Some x → I k s →
     body x s = body' x s ∧ ∀ s', body x s = Ok s' → I (S k) s') →
  for_each body xs st = for_each body' xs st.
Proof.
  revert I st. induction xs as [|x xs IH]; intros I st H0 Hstep; [done|].
  destruct (Hstep 0%nat x st eq_refl H0) as [Heq Hnext].
  simpl. rewrite <- Heq. destruct (body x st) as [s1|f]; simpl; [|done].
  apply (IH (λ k, I (S k))); [by apply Hnext|].
  intros k y s Hy Hs. by apply (Hstep (S k)).
Qed.

Lemma upto_lookup total (k : nat) x :
  upto total !! k = Some x → x = Z.of_nat k ∧ Z.of_nat k < total.
Proof. unfold upto. rewrite lookup_seqZ. naive_solver lia. Qed.

Lemma upto_length total : length (upto total) = Z.to_nat total.
Proof. apply length_seqZ. Qed.

Lemma upto_cons total : 0 < total → upto total = 0 :: seqZ 1 (total - 1).
Proof. intros. unfold upto. by rewrite seqZ_cons. Qed.

Lemma upto_nonpos total : total <= 0 → upto total = [].
Proof. apply seqZ_nil. Qed.

(** * The search for the victim in LRU and MRU *)

Lemma LRU_scan_acc lastUsed ps lru val :
  let r := foldl (λ '(lru, val) p,
                    if bool_decide (last_used lastUsed p < lru)
                    then (last_used lastUsed p, Some p) else (lru, val))
                 (lru, val) ps in
  r.1 <= lru ∧ (∀ q, q ∈ ps → r.1 <= last_used lastUsed q) ∧
  (r = (lru, val) ∨
   ∃ p, p ∈ ps ∧ r.2 = Some p ∧ last_used lastUsed p = r.1 ∧ r.1 < lru).
Proof.
  revert lru val. induction ps as [|p ps IH]; intros lru val; simpl.
  - split; [lia|]. split; [|by left]. intros q Hq. by apply elem_of_nil in Hq.
  - case_bool_decide as Hlt.
    + destruct (IH (last_used lastUsed p) (Some p)) as (Hle & Hmin & Hwho).
      split; [lia|]. split.
      * intros q [->|Hq]%elem_of_cons; [lia | by apply Hmin].
      * right. destruct Hwho as [Heq | (p' & Hp' & Hval & Hf & Hlt')].
        -- exists p. rewrite Heq. simpl. split; [left | done].
        -- exists p'. split; [by right|]. repeat split; [done | done | lia].
    + destruct (IH lru val) as (Hle & Hmin & Hwho).
      split; [done|]. split.
      * intros q [->|Hq]%elem_of_cons; [lia | by apply Hmin].
      * destruct Hwho as [Heq | (p' & Hp' & Hrest)]; [by left|].
        right. exists p'. split; [by right | done].
Qed.

Lemma MRU_scan_acc lastUsed ps mru val :
  let r := foldl (λ '(mru, val) p,
                    if bool_decide (last_used lastUsed p > mru)
                    then (last_used lastUsed p, Some p) else (mru, val))
                 (mru, val) ps in
  mru <= r.1 ∧ (∀ q, q ∈ ps → last_used lastUsed q <= r.1) ∧
  (r = (mru, val) ∨
   ∃ p, p ∈ ps ∧ r.2 = Some p ∧ last_used lastUsed p = r.1 ∧ mru < r.1).
Proof.
  revert mru val. induction ps as [|p ps IH]; intros mru val; simpl.
  - split; [lia|]. split; [|by left]. intros q Hq. by apply elem_of_nil in Hq.
  - case_bool_decide as Hgt.
    + destruct (IH (last_used lastUsed p) (Some p)) as (Hle & Hmax & Hwho).
      split; [lia|]. split.
      * intros q [->|Hq]%elem_of_cons; [lia | by apply Hmax].
      * right. destruct Hwho as [Heq | (p' & Hp' & Hval & Hf & Hgt')].
        -- exists p. rewrite Heq. simpl. split; [left | repeat split; lia].
        -- exists p'. split; [by right|]. repeat split; [done | done | lia].
    + destruct (IH mru val) as (Hle & Hmax & Hwho).
      split; [done|]. split.
      * intros q [->|Hq]%elem_of_cons; [lia | by apply Hmax].
      * destruct Hwho as [Heq | (p' & Hp' & Hrest)]; [by left|].
        right. exists p'. split; [by right | done].
Qed.

Lemma LRU_scan_spec : scan_spec LRU_scan Z.le.
Proof.
  split; [done | | intros; lia].
  intros lastUsed ps Hne Hrange.
  destruct (LRU_scan_acc lastUsed ps INT_MAX None) as (_ & Hmin & Hwho).
  fold (LRU_scan lastUsed ps) in Hmin, Hwho.
  destruct Hwho as [Heq | (p & Hp & Hval & Hf & _)].
  - destruct ps as [|p ps]; [done|]. exfalso.
    assert (Hp : p ∈ p :: ps) by (apply elem_of_cons; by left).
    specialize (Hmin p Hp). specialize (Hrange p Hp).
    rewrite Heq in Hmin. simpl in Hmin. lia.
  - exists p. split; [done|]. split; [done|].
    intros q Hq. rewrite Hf. by apply Hmin.
Qed.

Lemma MRU_scan_spec : scan_spec MRU_scan Z.ge.
Proof.
  split; [done | | intros; lia].
  intros lastUsed ps Hne Hrange.
  destruct (MRU_scan_acc lastUsed ps (-1) None) as (_ & Hmax & Hwho).
  fold (MRU_scan lastUsed ps) in Hmax, Hwho.
  destruct Hwho as [Heq | (p & Hp & Hval & Hf & _)].
  - destruct ps as [|p ps]; [done|]. exfalso.
    assert (Hp : p ∈ p :: ps) by (apply elem_of_cons; by left).
    specialize (Hmax p Hp). specialize (Hrange p Hp).
    rewrite Heq in Hmax. simpl in Hmax. lia.
  - exists p. split; [done|]. split; [done|].
    intros q Hq. rewrite Hf. apply Z.le_ge. by apply Hmax.
Qed.

Lemma bind_Ok_inv {A B} (r : result A) (k : A → result B) b :
  (x ← r; k x) = Ok b → ∃ a, r = Ok a ∧ k a = Ok b.
Proof. destruct r as [a|f]; [by exists a | done]. Qed.

(** * LRU and MRU: the residents and their last uses *)

Section Recency.
Context (scan : gmap Z Z → list Z → Z * option Z) (better : Z → Z → Prop).
Context (Hscan : scan_spec scan better).
Context (noOfRAMPages : Z) (pageID : list Z).


Lemma recency_inv_init : recency_inv pageID 0 LRU_init.
Proof using Type. intros p Hp. by apply not_elem_of_empty in Hp. Qed.

Lemma recency_inv_range i st p :
  i <= INT_MAX → recency_inv pageID i st → p ∈ lru_cache st →
  0 <= last_used (lru_lastUsed st) p < INT_MAX.
Proof using Type.
  intros Hi Hinv Hp. destruct (Hinv p Hp) as (j & Hj & Hrange & _).
  unfold last_used. rewrite Hj. simpl. lia.
Qed.

Lemma recency_inv_inj i st p q :
  recency_inv pageID i st → p ∈ lru_cache st → q ∈ lru_cache st →
  last_used (lru_lastUsed st) p = last_used (lru_lastUsed st) q → p = q.
Proof using Type.
  intros Hinv Hp Hq. destruct (Hinv p Hp) as (j & Hj & _ & Hpj).
  destruct (Hinv q Hq) as (j' & Hj' & _ & Hqj).
  unfold last_used. rewrite Hj, Hj'. simpl. intros ->. congruence.
Qed.

(** The victim does not depend on the order of the visit. *)
Lemma scan_order_irrelevant i st ps ps' :
  i <= INT_MAX → recency_inv pageID i st →
  ps ≡ₚ elements (lru_cache st) → ps' ≡ₚ elements (lru_cache st) →
  snd (scan (lru_lastUsed st) ps) = snd (scan (lru_lastUsed st) ps').
Proof.
  intros Hi Hinv Hps Hps'.
  assert (Hin : ∀ p, p ∈ ps → p ∈ lru_cache st).
  { intros p Hp. rewrite Hps in Hp. by apply elem_of_elements in Hp. }
  assert (Hin' : ∀ p, p ∈ ps' → p ∈ lru_cache st).
  { intros p Hp. rewrite Hps' in Hp. by apply elem_of_elements in Hp. }
  destruct ps as [|p0 ps0].
  { symmetry in Hps. apply Permutation_nil_r in Hps. rewrite Hps in Hps'.
    apply Permutation_nil_r in Hps'. by subst. }
  destruct (scan_victim _ _ Hscan (lru_lastUsed st) (p0 :: ps0)) as (v & Hv & Hvin & Hbest);
    [done | by eauto using recency_inv_range |].
  destruct (scan_victim _ _ Hscan (lru_lastUsed st) ps') as (v' & Hv' & Hvin' & Hbest').
  { intros ->. rewrite <- Hps' in Hps. by apply Permutation_nil_r in Hps. }
  { by eauto using recency_inv_range. }
  rewrite Hv, Hv'. f_equal.
  apply (recency_inv_inj i st); [done | by auto | by auto |].
  apply (better_antisym _ _ Hscan).
  - apply Hbest. rewrite Hps, <- Hps'. done.
  - apply Hbest'. rewrite Hps', <- Hps. done.
Qed.

Lemma recency_body_next iter i st st' :
  0 <= i → recency_inv pageID i st →
  recency_body scan iter noOfRAMPages pageID i st = Ok st' →
  recency_inv pageID (i + 1) st'.
Proof using Type.
  clear Hscan. intros Hi Hinv. destruct st as [missCount cache lastUsed].
  unfold recency_body.
  intros (id & Hid & Hrest)%bind_Ok_inv.
  apply at_index_Ok in Hid as [_ Hid].
  apply bind_Ok_inv in Hrest as ([missCount' cache'] & Hmc & Hst').
  injection Hst' as <-.
  assert (Hsub : ∀ p, p ∈ cache' → p = id ∨ p ∈ cache).
  { intros p Hp. case_bool_decide as Hhit.
    - injection Hmc as <- <-. by right.
    - apply bind_Ok_inv in Hmc as (cache1 & Hc1 & Hc').
      injection Hc' as <- <-.
      apply elem_of_union in Hp as [Hid'|Hp1]; [left; set_solver|right].
      destruct (size_is cache noOfRAMPages).
      + destruct (scan lastUsed (iter i cache)).2.
        * injection Hc1 as <-. set_solver.
        * case_bool_decide; [|done]. by injection Hc1 as <-.
      + by injection Hc1 as <-. }
  intros p Hp. simpl in *. destruct (decide (p = id)) as [->|Hne].
  - exists i. rewrite lookup_insert_eq. repeat split; [lia | lia | done].
  - destruct (Hsub p Hp) as [?|Hpc]; [done|].
    destruct (Hinv p Hpc) as (j & Hj & Hrange & Hpj).
    exists j. rewrite lookup_insert_ne by done. repeat split; [done | lia | lia | done].
Qed.

Lemma recency_body_order iter iter' i st :
  iter_ok iter → iter_ok iter' → i <= INT_MAX → recency_inv pageID i st →
  recency_body scan iter noOfRAMPages pageID i st
  = recency_body scan iter' noOfRAMPages pageID i st.
Proof.
  intros Hit Hit' Hi Hinv.
  pose proof (scan_order_irrelevant i st (iter i (lru_cache st))
                (iter' i (lru_cache st)) Hi Hinv (Hit _ _) (Hit' _ _)) as Heq.
  destruct st as [missCount cache lastUsed]. simpl in Heq.
  unfold recency_body. by rewrite Heq.
Qed.

(** The result of a run is the same for all admissible visiting
    orders. *)
Lemma recency_order_irrelevant iter iter' :
  iter_ok iter → iter_ok iter' →
  recency_processRAM scan iter noOfRAMPages pageID
  = recency_processRAM scan iter' noOfRAMPages pageID.
Proof.
  intros Hit Hit'. unfold recency_processRAM.
  rewrite (for_each_agree (λ k, recency_inv pageID (Z.of_nat k)) _
             (recency_body scan iter' noOfRAMPages pageID));
    [done | apply recency_inv_init |].
  intros k x s Hx Hs. apply upto_lookup in Hx as [-> Hlt].
  pose proof (wrap_is_int (Z.of_nat (length pageID))) as [_ Hmax].
  fold (size_as_int pageID) in Hmax.
  split.
  - apply recency_body_order; [done | done | lia | done].
  - intros s' Hs'. replace (Z.of_nat (S k)) with (Z.of_nat k + 1) by lia.
    eapply recency_body_next; [lia | done | done].
Qed.
End Recency.

(** * Runs in which every identifier of the trace fits in the frames *)

Lemma at_index_in_range {A} (v : list A) i :
  0 <= i < Z.of_nat (length v) →
  ∃ x, at_index v i = Ok x ∧ v !! Z.to_nat i = Some x.
Proof.
  intros Hi. destruct (lookup_lt_is_Some_2 v (Z.to_nat i)) as [x Hx]; [lia|].
  exists x. split; [|done]. unfold at_index.
  rewrite bool_decide_eq_true_2 by lia. by rewrite Hx.
Qed.

Lemma seen_next (pageID : list Z) (k : nat) id :
  pageID !! k = Some id →
  list_to_set (take (S k) pageID) =@{gset Z} {[id]} ∪ list_to_set (take k pageID).
Proof.
  intros Hk. rewrite (take_S_r _ _ _ Hk), list_to_set_snoc_L. set_solver.
Qed.

Lemma seen_hit (pageID : list Z) (k : nat) id :
  pageID !! k = Some id → id ∈ (list_to_set (take k pageID) : gset Z) →
  list_to_set (take (S k) pageID) =@{gset Z} list_to_set (take k pageID).
Proof. intros Hk Hin. rewrite (seen_next _ _ _ Hk). set_solver. Qed.

Lemma seen_fresh (pageID : list Z) (k : nat) id :
  pageID !! k = Some id → id ∉ (list_to_set (take k pageID) : gset Z) →
  (size (list_to_set (take (S k) pageID) : gset Z)
   = S (size (list_to_set (take k pageID) : gset Z)) ∧
   size (list_to_set (take k pageID) : gset Z) < distinct pageID)%nat.
Proof.
  intros Hk Hout.
  assert (Hsz : size (list_to_set (take (S k) pageID) : gset Z)
                = S (size (list_to_set (take k pageID) : gset Z))).
  { rewrite (seen_next _ _ _ Hk), size_union by set_solver.
    by rewrite size_singleton. }
  split; [done|].
  assert (Hsub : (list_to_set (take (S k) pageID) : gset Z) ⊆ list_to_set pageID).
  { intros x Hx. apply elem_of_list_to_set in Hx. apply elem_of_list_to_set.
    apply elem_of_take in Hx as (i & Hi & _). by eapply list_elem_of_lookup_2. }
  apply subseteq_size in Hsub. unfold distinct. lia.
Qed.

(** With room for every identifier, a miss never finds the frames full. *)
Lemma room_left (pageID : list Z) (k : nat) id noOfRAMPages :
  pageID !! k = Some id → id ∉ (list_to_set (take k pageID) : gset Z) →
  Z.of_nat (distinct pageID) <= noOfRAMPages <= INT_MAX →
  size_is (list_to_set (take k pageID)) noOfRAMPages = false.
Proof.
  intros Hk Hout Hcap. destruct (seen_fresh _ _ _ Hk Hout) as [_ Hlt].
  unfold size_is. rewrite to_size_t_id by lia.
  apply bool_decide_eq_false_2. lia.
Qed.

Lemma wrap_succ_size (X : gset Z) (pageID : list Z) noOfRAMPages :
  (size X < distinct pageID)%nat →
  Z.of_nat (distinct pageID) <= noOfRAMPages <= INT_MAX →
  wrap (Z.of_nat (size X) + 1) = Z.of_nat (S (size X)).
Proof.
  intros Hlt Hcap. rewrite wrap_id; [lia|]. unfold is_int, INT_MIN. lia.
Qed.

Lemma FIFO_cold noOfPages noOfRAMPages pageID :
  Z.of_nat (distinct pageID) <= noOfRAMPages <= INT_MAX →
  FIFO_processRAM noOfPages noOfRAMPages pageID
  = Ok [Z.of_nat (distinct pageID); size_as_int pageID].
Proof.
  intros Hcap. unfold FIFO_processRAM.
  destruct (for_each_inv
    (λ k st, fifo_cache st = list_to_set (take k pageID) ∧
             fifo_missCount st = Z.of_nat (size (fifo_cache st)))
    (FIFO_body noOfRAMPages) pageID FIFO_init) as (st & Hrun & Hcache & Hmiss).
  - unfold FIFO_init. fields. split; [done|]. by rewrite size_empty.
  - intros k id [missCount cache order] Hk [Hcache Hmiss]. fields. subst.
    unfold FIFO_body. case_bool_decide as Hhit.
    + eexists. split; [done|]. fields. by rewrite (seen_hit _ _ _ Hk Hhit).
    + rewrite (room_left _ _ _ _ Hk Hhit Hcap).
      destruct (seen_fresh _ _ _ Hk Hhit) as [Hsz Hlt].
      eexists. split; [reflexivity|]. fields.
      rewrite <- (seen_next _ _ _ Hk). split; [done|].
      rewrite Hsz. by eapply wrap_succ_size.
  - rewrite Hrun. cbn [mbind result_bind]. rewrite Hmiss, Hcache, firstn_all. done.
Qed.

Lemma recency_cold scan iter noOfRAMPages pageID :
  trace_ok pageID →
  Z.of_nat (distinct pageID) <= noOfRAMPages <= INT_MAX →
  recency_processRAM scan iter noOfRAMPages pageID
  = Ok [Z.of_nat (distinct pageID); Z.of_nat (length pageID)].
Proof.
  intros Hlen Hcap. unfold recency_processRAM. rewrite (size_as_int_ok _ Hlen).
  destruct (for_each_inv
    (λ k st, lru_cache st = list_to_set (take k pageID) ∧
             lru_missCount st = Z.of_nat (size (lru_cache st)))
    (recency_body scan iter noOfRAMPages pageID)
    (upto (Z.of_nat (length pageID))) LRU_init) as (st & Hrun & Hcache & Hmiss).
  - unfold LRU_init. fields. split; [done|]. by rewrite size_empty.
  - intros k x [missCount cache lastUsed] Hx [Hcache Hmiss]. fields. subst.
    apply upto_lookup in Hx as [-> Hk].
    destruct (lookup_lt_is_Some_2 pageID k) as [id Hid]; [lia|].
    unfold recency_body. rewrite (at_index_lookup _ _ _ Hid).
    cbn [mbind result_bind]. case_bool_decide as Hhit.
    + eexists. split; [done|]. fields. by rewrite (seen_hit _ _ _ Hid Hhit).
    + rewrite (room_left _ _ _ _ Hid Hhit Hcap).
      destruct (seen_fresh _ _ _ Hid Hhit) as [Hsz Hlt].
      eexists. split; [reflexivity|]. fields.
      rewrite <- (seen_next _ _ _ Hid). split; [done|].
      rewrite Hsz. by eapply wrap_succ_size.
  - rewrite Hrun. cbn [mbind result_bind].
    rewrite upto_length, Nat2Z.id, firstn_all in Hcache.
    by rewrite Hmiss, Hcache.
Qed.

(** The table of next occurrences is built without a fault and has one
    entry per reference. *)
Lemma OPT_next_ok pageID :
  trace_ok pageID →
  ∃ next, OPT_next (Z.of_nat (length pageID)) pageID = Ok next ∧
          length next = length pageID.
Proof.
  intros Hlen. unfold OPT_next, trace_ok, INT_MAX in *.
  rewrite bool_decide_eq_false_2 by lia.
  destruct (for_each_inv (λ _ st, length st.1 = length pageID)
    (OPT_next_body pageID) (downfrom (Z.of_nat (length pageID)))
    (replicate (Z.to_nat (Z.of_nat (length pageID))) (Z.of_nat (length pageID)), ∅))
    as ([next futureIndex] & Hrun & Hnext).
  - fields. by rewrite length_replicate, Nat2Z.id.
  - intros k i [next futureIndex] Hi Hnext. fields.
    apply list_elem_of_lookup_2 in Hi. unfold downfrom in Hi.
    rewrite elem_of_reverse, elem_of_seqZ in Hi.
    rewrite wrap_id in Hi by (unfold is_int, INT_MIN, INT_MAX; lia).
    destruct (at_index_in_range pageID i) as (id & Hid & _); [lia|].
    unfold OPT_next_body. rewrite Hid. cbn [mbind result_bind].
    destruct (futureIndex !! id) as [j|].
    + unfold set_index. rewrite bool_decide_eq_true_2 by lia.
      eexists. split; [reflexivity|]. fields. by rewrite length_insert.
    + eexists. split; [reflexivity|]. done.
  - exists next. rewrite Hrun. done.
Qed.

Lemma OPT_cold noOfPages noOfRAMPages pageID :
  trace_ok pageID →
  Z.of_nat (distinct pageID) <= noOfRAMPages <= INT_MAX →
  OPT_processRAM noOfPages noOfRAMPages pageID
  = Ok [Z.of_nat (distinct pageID); Z.of_nat (length pageID)].
Proof.
  intros Hlen Hcap. unfold OPT_processRAM. rewrite (size_as_int_ok _ Hlen).
  destruct (OPT_next_ok pageID Hlen) as (next & -> & Hnext).
  cbn [mbind result_bind].
  destruct (for_each_inv
    (λ k st, opt_cache st = list_to_set (take k pageID) ∧
             opt_missCount st = Z.of_nat (size (opt_cache st)))
    (OPT_body noOfRAMPages pageID next)
    (upto (Z.of_nat (length pageID))) OPT_init) as (st & Hrun & Hcache & Hmiss).
  - unfold OPT_init. fields. split; [done|]. by rewrite size_empty.
  - intros k x [missCount cache occSet] Hx [Hcache Hmiss]. fields. subst.
    apply upto_lookup in Hx as [-> Hk].
    destruct (lookup_lt_is_Some_2 pageID k) as [id Hid]; [lia|].
    destruct (lookup_lt_is_Some_2 next k) as [nxt Hnxt]; [lia|].
    unfold OPT_body. rewrite (at_index_lookup _ _ _ Hid).
    cbn [mbind result_bind]. rewrite (at_index_lookup _ _ _ Hnxt).
    case_bool_decide as Hhit.
    + eexists. split; [reflexivity|]. fields. by rewrite (seen_hit _ _ _ Hid Hhit).
    + rewrite (room_left _ _ _ _ Hid Hhit Hcap).
      destruct (seen_fresh _ _ _ Hid Hhit) as [Hsz Hlt].
      eexists. split; [reflexivity|]. fields.
      rewrite <- (seen_next _ _ _ Hid). split; [done|].
      rewrite Hsz. by eapply wrap_succ_size.
  - rewrite Hrun. cbn [mbind result_bind].
    rewrite upto_length, Nat2Z.id, firstn_all in Hcache.
    by rewrite Hmiss, Hcache.
Qed.

(** * Runs with no frame at all *)

Lemma size_is_empty_zero : size_is ∅ 0 = true.
Proof. done. Qed.

Lemma FIFO_no_frame noOfPages id pageID :
  FIFO_processRAM noOfPages 0 (id :: pageID) = Fault EmptyQueueFront.
Proof. done. Qed.

Lemma distinct_le_length (pageID : list Z) : (distinct pageID ≤ length pageID)%nat.
Proof.
  unfold distinct. induction pageID as [|id pageID IH]; [by rewrite list_to_set_nil, size_empty|].
  rewrite list_to_set_cons, size_union_alt, size_singleton. cbn [length].
  pose proof (subseteq_size (list_to_set pageID ∖ {[id]}) (list_to_set pageID : gset Z)
                ltac:(set_solver)). lia.
Qed.

(** With no frame, the first miss of LRU or MRU finds the empty set of
    residents full and erases from it a victim that was never assigned;
    nothing is removed, and from then on the set is never of size 0 again:
    every miss only inserts. *)
Lemma recency_body_no_frame scan better iter pageID (k : nat) id missCount cache lastUsed :
  scan_spec scan better → iter_ok iter →
  pageID !! k = Some id → id ∉ cache →
  recency_body scan iter 0 pageID (Z.of_nat k) (mkLRU missCount cache lastUsed)
  = Ok (mkLRU (wrap (missCount + 1)) ({[id]} ∪ cache) (<[id := Z.of_nat k]> lastUsed)).
Proof.
  intros Hscan Hiter Hid Hmiss. unfold recency_body.
  rewrite (at_index_lookup _ _ _ Hid). cbn [mbind result_bind].
  rewrite bool_decide_eq_false_2 by done. cbn [mbind result_bind].
  unfold size_is. change (to_size_t 0) with 0. case_bool_decide as Hsize; [|done].
  assert (cache = ∅) as ->.
  { apply leibniz_equiv, size_empty_iff. lia. }
  assert (Hnil : iter (Z.of_nat k) ∅ = []).
  { apply Permutation_nil_r. by rewrite (Hiter (Z.of_nat k) ∅), elements_empty. }
  rewrite Hnil, (scan_nil _ _ Hscan). by rewrite bool_decide_eq_true_2.
Qed.

Lemma recency_no_frame scan better iter pageID :
  scan_spec scan better → iter_ok iter → trace_ok pageID →
  recency_processRAM scan iter 0 pageID
  = Ok [Z.of_nat (distinct pageID); Z.of_nat (length pageID)].
Proof.
  intros Hscan Hiter Hlen. unfold recency_processRAM. rewrite (size_as_int_ok _ Hlen).
  destruct (for_each_inv
    (λ k st, lru_cache st = list_to_set (take k pageID) ∧
             lru_missCount st = Z.of_nat (size (lru_cache st)))
    (recency_body scan iter 0 pageID)
    (upto (Z.of_nat (length pageID))) LRU_init) as (st & Hrun & Hcache & Hmiss).
  - unfold LRU_init. fields. split; [done|]. by rewrite size_empty.
  - intros k x [missCount cache lastUsed] Hx [Hcache Hmiss]. fields. subst.
    apply upto_lookup in Hx as [-> Hk].
    destruct (lookup_lt_is_Some_2 pageID k) as [id Hid]; [lia|].
    destruct (decide (id ∈ (list_to_set (take k pageID) : gset Z))) as [Hhit|Hhit].
    + unfold recency_body. rewrite (at_index_lookup _ _ _ Hid).
      cbn [mbind result_bind]. rewrite bool_decide_eq_true_2 by done.
      eexists. split; [done|]. fields. by rewrite (seen_hit _ _ _ Hid Hhit).
    + rewrite (recency_body_no_frame scan better iter pageID k id) by done.
      destruct (seen_fresh _ _ _ Hid Hhit) as [Hsz Hlt].
      eexists. split; [reflexivity|]. fields.
      rewrite <- (seen_next _ _ _ Hid). split; [done|].
      rewrite Hsz. pose proof (distinct_le_length pageID).
      rewrite wrap_id; [lia|]. unfold trace_ok, is_int, INT_MIN, INT_MAX in *. lia.
  - rewrite Hrun. cbn [mbind result_bind].
    rewrite upto_length, Nat2Z.id, firstn_all in Hcache.
    by rewrite Hmiss, Hcache.
Qed.

Lemma set_last_empty : set_last ∅ = None.
Proof. done. Qed.

Lemma OPT_body_no_frame id pageID next :
  OPT_body 0 (id :: pageID) next 0 OPT_init = Fault EmptySetLast.
Proof.
  unfold OPT_body, OPT_init.
  replace (at_index (id :: pageID) 0) with (Ok id) by done.
  cbn [mbind result_bind].
  rewrite bool_decide_eq_false_2 by set_solver.
  by rewrite size_is_empty_zero, set_last_empty.
Qed.

Lemma OPT_no_frame noOfPages id pageID :
  trace_ok (id :: pageID) →
  OPT_processRAM noOfPages 0 (id :: pageID) = Fault EmptySetLast.
Proof.
  intros Hlen. unfold OPT_processRAM. rewrite (size_as_int_ok _ Hlen).
  destruct (OPT_next_ok _ Hlen) as (next & -> & Hnext).
  cbn [mbind result_bind]. rewrite upto_cons by (simpl; lia).
  cbn [for_each]. by rewrite OPT_body_no_frame.
Qed.

(** * Merging the rows of the processes *)

Lemma cell_add_ok mine theirs : cell_ok (cell_add mine theirs).
Proof. eexists _, _. split; [done|]. split; apply wrap_is_int. Qed.

Lemma merge_cell mine theirs :
  cell_ok mine → cell_ok theirs →
  (t ← at_index theirs TOTAL;
   mine1 ← add_at mine TOTAL t;
   m ← at_index theirs MISS;
   add_at mine1 MISS m) = Ok (cell_add mine theirs).
Proof. intros (a & b & -> & _) (c & d & -> & _). done. Qed.

Lemma mergeOutput_first curOutput : mergeOutput [] curOutput = Ok curOutput.
Proof.
  unfold mergeOutput.
  destruct (for_each_inv (λ k this, this = take k curOutput)
    (mergeOutput_body curOutput) (upto (Z.of_nat (length curOutput))) [])
    as (this & Hrun & Hthis).
  - done.
  - intros k x this Hx ->. apply upto_lookup in Hx as [-> Hk].
    destruct (lookup_lt_is_Some_2 curOutput k) as [theirs Hth]; [lia|].
    unfold mergeOutput_body.
    rewrite bool_decide_eq_false_2 by (rewrite length_take; lia).
    rewrite (at_index_lookup _ _ _ Hth). eexists. split; [reflexivity|].
    by rewrite (take_S_r _ _ _ Hth).
  - rewrite upto_length, Nat2Z.id, firstn_all in Hthis. by subst.
Qed.

Lemma mergeOutput_rows m this curOutput :
  row_ok m this → row_ok m curOutput →
  mergeOutput this curOutput = Ok (zip_with cell_add this curOutput).
Proof.
  intros [Hlt Hct] [Hlc Hcc]. unfold mergeOutput.
  destruct (for_each_inv
    (λ k s, s = zip_with cell_add (take k this) (take k curOutput) ++ drop k this)
    (mergeOutput_body curOutput) (upto (Z.of_nat (length curOutput))) this)
    as (s & Hrun & Hs).
  - done.
  - intros k x s Hx ->. apply upto_lookup in Hx as [-> Hk].
    destruct (lookup_lt_is_Some_2 this k) as [mine Hmine]; [lia|].
    destruct (lookup_lt_is_Some_2 curOutput k) as [theirs Htheirs]; [lia|].
    pose proof (Forall_lookup_1 _ _ _ _ Hct Hmine) as Hokm.
    pose proof (Forall_lookup_1 _ _ _ _ Hcc Htheirs) as Hokt.
    set (done_ := zip_with cell_add (take k this) (take k curOutput)).
    assert (Hdone : length done_ = k).
    { unfold done_. rewrite length_zip_with, !length_take. lia. }
    unfold mergeOutput_body.
    rewrite bool_decide_eq_true_2
      by (rewrite length_app, Hdone, length_drop; lia).
    assert (Hat : (done_ ++ drop k this) !! k = Some mine).
    { rewrite lookup_app_r by lia. rewrite Hdone, Nat.sub_diag, lookup_drop.
      by rewrite Nat.add_0_r. }
    rewrite (at_index_lookup _ _ _ Hat), (at_index_lookup _ _ _ Htheirs).
    cbn [mbind result_bind].
    pose proof (merge_cell mine theirs Hokm Hokt) as Hcell.
    destruct (at_index theirs TOTAL) as [t|]; [|done]. cbn [mbind result_bind] in *.
    destruct (add_at mine TOTAL t) as [mine1|]; [|done]. cbn [mbind result_bind] in *.
    destruct (at_index theirs MISS) as [ms|]; [|done]. cbn [mbind result_bind] in *.
    rewrite Hcell. cbn [mbind result_bind].
    rewrite set_index_lookup by (rewrite length_app, Hdone, length_drop; lia).
    eexists. split; [reflexivity|].
    rewrite (take_S_r _ _ _ Hmine), (take_S_r _ _ _ Htheirs).
    rewrite zip_with_app by (rewrite !length_take; lia).
    fold done_. cbn [zip_with]. rewrite <- app_assoc. cbn [app].
    rewrite <- (Nat.add_0_r k) at 1. rewrite <- Hdone at 1.
    rewrite insert_app_r. f_equal.
    rewrite (drop_S _ _ _ Hmine). done.
  - rewrite Hrun. f_equal. rewrite upto_length, Nat2Z.id in Hs.
    rewrite (take_ge this), firstn_all, (drop_ge this), app_nil_r in Hs by lia.
    done.
Qed.

Lemma sumZ_perm l l' : l ≡ₚ l' → sumZ l = sumZ l'.
Proof.
  intros Hperm.
  induction Hperm as [|x l l' _ IH|x y l|l l' l'' _ IH1 _ IH2]; simpl; lia.
Qed.

Lemma tab_ext f g f' g' m :
  (∀ i, (i < m)%nat → f i = f' i ∧ g i = g' i) → tab f g m = tab f' g' m.
Proof.
  intros Hext. unfold tab. apply list_eq. intros i.
  rewrite !list_lookup_fmap.
  destruct (seq 0 m !! i) as [k|] eqn:Hk; [|done].
  apply lookup_seq in Hk as [-> Hk]. simpl.
  by destruct (Hext i Hk) as [-> ->].
Qed.

Lemma tab_row_ok f g m :
  (∀ i, is_int (f i) ∧ is_int (g i)) → row_ok m (tab f g m).
Proof.
  intros Hint. split.
  - unfold tab. by rewrite length_fmap, length_seq.
  - unfold tab. apply Forall_fmap, Forall_forall. intros i _.
    exists (f i), (g i). by destruct (Hint i).
Qed.

Lemma row_as_tab m row :
  row_ok m row → row = tab (λ i, entry row i 0) (λ i, entry row i 1) m.
Proof.
  intros [Hlen Hcells]. apply list_eq. intros i. unfold tab.
  rewrite list_lookup_fmap.
  destruct (row !! i) as [cell|] eqn:Hcell.
  - rewrite lookup_seq_lt by (apply lookup_lt_Some in Hcell; lia). simpl.
    destruct (Forall_lookup_1 _ _ _ _ Hcells Hcell) as (a & b & -> & _).
    unfold entry. by rewrite (nth_lookup_Some _ _ _ _ Hcell).
  - apply lookup_ge_None in Hcell.
    by rewrite (proj2 (lookup_ge_None _ _)) by (rewrite length_seq; lia).
Qed.

Lemma zip_tab f g f' g' m :
  zip_with cell_add (tab f g m) (tab f' g' m)
  = tab (λ i, wrap (f i + f' i)) (λ i, wrap (g i + g' i)) m.
Proof.
  unfold tab. generalize (seq 0 m). intros l.
  induction l as [|i l IH]; [done|].
  rewrite !fmap_cons. cbn [zip_with]. rewrite IH. reflexivity.
Qed.

Lemma merge_all_tab m rows F G :
  (∀ i, is_int (F i) ∧ is_int (G i)) → Forall (row_ok m) rows →
  merge_all rows (tab F G m)
  = Ok (tab (λ i, wrap (F i + sumZ ((λ row, entry row i 0) <$> rows)))
            (λ i, wrap (G i + sumZ ((λ row, entry row i 1) <$> rows))) m).
Proof.
  revert F G. induction rows as [|row rows IH]; intros F G Hint Hrows.
  - simpl. f_equal. apply tab_ext. intros i _.
    destruct (Hint i). by rewrite !Z.add_0_r, !wrap_id.
  - apply Forall_cons in Hrows as [Hrow Hrows].
    unfold merge_all. cbn [for_each]. fold (merge_all rows).
    rewrite (mergeOutput_rows m) by (by try apply tab_row_ok).
    cbn [mbind result_bind].
    rewrite (row_as_tab m row Hrow) at 1. rewrite zip_tab.
    rewrite IH by (done || intros i; split; apply wrap_is_int).
    f_equal. apply tab_ext. intros i _. rewrite !fmap_cons.
    unfold sumZ. cbn [foldr]. rewrite !wrap_add_l. split; f_equal; lia.
Qed.

(** Merging [N ≥ 1] rows of the same shape, starting from the empty
    accumulator of a fresh [analyze], yields their elementwise sums. *)
Lemma merge_all_sum m rows :
  rows ≠ [] → Forall (row_ok m) rows → merge_all rows [] = Ok (row_sum m rows).
Proof.
  intros Hne Hrows. destruct rows as [|row rows]; [done|].
  apply Forall_cons in Hrows as [Hrow Hrows].
  unfold merge_all. cbn [for_each]. fold (merge_all rows).
  rewrite mergeOutput_first. cbn [mbind result_bind].
  rewrite (row_as_tab m row Hrow) at 1.
  rewrite merge_all_tab; [done | | done].
  intros i. destruct Hrow as [Hlen Hcells].
  destruct (decide (i < m)%nat) as [Hi|Hi].
  - destruct (lookup_lt_is_Some_2 row i) as [cell Hcell]; [lia|].
    destruct (Forall_lookup_1 _ _ _ _ Hcells Hcell) as (a & b & -> & Ha & Hb).
    unfold entry. by rewrite (nth_lookup_Some _ _ _ _ Hcell).
  - unfold entry. rewrite (nth_overflow row) by lia.
    cbn [nth]. unfold is_int, INT_MIN, INT_MAX. lia.
Qed.

Lemma row_sum_perm m rows rows' : rows ≡ₚ rows' → row_sum m rows = row_sum m rows'.
Proof.
  intros Hperm. apply tab_ext. intros i _.
  split; f_equal; apply sumZ_perm; by apply fmap_Permutation.
Qed.

(** * The row of page size 0 *)

Lemma runProcess_sentinel mapping noOfRAMPages pageID :
  ids_in_range mapping →
  runProcess mapping (mkProcess noOfRAMPages (-1) pageID)
  = Ok (replicate (length mapping + 1) [-1; -1]).
Proof.
  intros Hids. unfold runProcess.
  destruct (for_each_inv
    (λ _ out, out = replicate (length mapping + 1) [-1; -1])
    (runProcess_body (mkProcess noOfRAMPages (-1) pageID)) mapping
    (replicate (length mapping + 1) [-1; -1])) as (out & Hrun & ->); [done | | done].
  intros k it out Hit ->. exists (replicate (length mapping + 1) [-1; -1]).
  split; [|done]. unfold runProcess_body. cbn [proc_noOfPages].
  rewrite bool_decide_eq_true_2 by done.
  pose proof (Forall_lookup_1 _ _ _ _ Hids Hit) as Hid. cbn beta in Hid.
  unfold set_index. rewrite length_replicate.
  rewrite bool_decide_eq_true_2 by lia. f_equal.
  apply list_insert_id, lookup_replicate_2. lia.
Qed.

Lemma createProcess_sentinel {RS} (rand : RS → Z * RS) noOfRAMPages s :
  createProcess rand (-1) noOfRAMPages s = (mkProcess noOfRAMPages (-1) [], s).
Proof. done. Qed.

Lemma sentinel_row_ok m k :
  0 <= k <= 2 ^ 31 → row_ok m (replicate m [- k; - k]).
Proof.
  intros Hk. split; [apply length_replicate|].
  apply Forall_replicate. exists (- k), (- k).
  unfold is_int, INT_MIN, INT_MAX. repeat split; lia.
Qed.

(** For page size 0 no division is made. *)
Lemma createAnalyze_sentinel noOfProcess RAMSize processSize :
  createAnalyze noOfProcess RAMSize processSize 0
  = Ok (mkAnalyze noOfProcess (-1) (-1) []).
Proof. done. Qed.

(** For a page size from 1 on both divisions have a quotient. *)
Lemma createAnalyze_sized noOfProcess RAMSize processSize pageSize :
  1 <= pageSize →
  createAnalyze noOfProcess RAMSize processSize pageSize
  = Ok (mkAnalyze noOfProcess
          (Z.quot (wrap (wrap (processSize + pageSize) - 1)) pageSize)
          (Z.quot RAMSize pageSize) []).
Proof.
  intros Hps. unfold createAnalyze, int_div.
  rewrite !(bool_decide_eq_false_2 (pageSize = 0)) by lia.
  rewrite !bool_decide_eq_false_2 by lia. done.
Qed.

(** For a page size that is not negative [createAnalyze] returns. *)
Lemma createAnalyze_returns noOfProcess RAMSize processSize pageSize :
  0 <= pageSize →
  ∃ noOfPages noOfRAMPages,
    createAnalyze noOfProcess RAMSize processSize pageSize
    = Ok (mkAnalyze noOfProcess noOfPages noOfRAMPages []).
Proof.
  intros Hps. destruct (decide (pageSize = 0)) as [->|Hne].
  - eexists _, _. apply createAnalyze_sentinel.
  - eexists _, _. apply createAnalyze_sized. lia.
Qed.

(** What [createAnalyze] returns holds the number of processes and no
    row. *)
Lemma createAnalyze_Ok noOfProcess RAMSize processSize pageSize a :
  createAnalyze noOfProcess RAMSize processSize pageSize = Ok a →
  ∃ noOfPages noOfRAMPages, a = mkAnalyze noOfProcess noOfPages noOfRAMPages [].
Proof.
  unfold createAnalyze. intros (noOfPages & _ & Hrest)%bind_Ok_inv.
  apply bind_Ok_inv in Hrest as (noOfRAMPages & _ & [= <-]). by eexists _, _.
Qed.

Lemma analyzeOnAllPageSize_body_zero {RS} (rand : RS → Z * RS) mapping
    RAMSize noOfProcess processSize st :
  analyzeOnAllPageSize_body rand mapping RAMSize noOfProcess processSize 0 st
  = runProcesses rand mapping (mkAnalyze noOfProcess (-1) (-1) []) st.
Proof. done. Qed.

Lemma analyzeOnAllPageSize_body_sized {RS} (rand : RS → Z * RS) mapping
    RAMSize noOfProcess processSize pageSize st :
  1 <= pageSize →
  analyzeOnAllPageSize_body rand mapping RAMSize noOfProcess processSize pageSize st
  = runProcesses rand mapping
      (mkAnalyze noOfProcess
         (Z.quot (wrap (wrap (processSize + pageSize) - 1)) pageSize)
         (Z.quot RAMSize pageSize) []) st.
Proof.
  intros Hps. unfold analyzeOnAllPageSize_body.
  by rewrite createAnalyze_sized by done.
Qed.

Lemma runProcesses_sentinel {RS} (rand : RS → Z * RS) mapping
    noOfProcess s mainOutput :
  ids_in_range mapping → 1 <= noOfProcess <= INT_MAX →
  runProcesses rand mapping (mkAnalyze noOfProcess (-1) (-1) []) (s, mainOutput)
  = Ok (s, mainOutput
           ++ [replicate (length mapping + 1) [- noOfProcess; - noOfProcess]]).
Proof.
  intros Hids HN. unfold runProcesses.
  cbn [an_noOfProcess an_noOfPages an_noOfRAMPages an_curOutput].
  set (m := (length mapping + 1)%nat).
  destruct (for_each_inv
    (λ k st, st = (s, match k with
                      | O => []
                      | S _ => replicate m [- Z.of_nat k; - Z.of_nat k]
                      end))
    (runProcesses_body rand mapping (mkAnalyze noOfProcess (-1) (-1) []))
    (upto noOfProcess) (s, [])) as (st & Hrun & Hst).
  - done.
  - intros k x st Hx ->. apply upto_lookup in Hx as [-> Hk].
    unfold runProcesses_body. cbn [an_noOfPages an_noOfRAMPages].
    rewrite createProcess_sentinel, (runProcess_sentinel _ _ _ Hids).
    cbn [mbind result_bind]. fold m. destruct k as [|k].
    + rewrite mergeOutput_first. by eexists.
    + rewrite (mergeOutput_rows m).
      * eexists. split; [reflexivity|]. f_equal.
        rewrite zip_with_replicate. f_equal. unfold cell_add. cbn [nth].
        rewrite wrap_id by (unfold is_int, INT_MIN, INT_MAX in *; lia).
        f_equal; [|f_equal]; lia.
      * apply sentinel_row_ok. unfold INT_MAX in HN. lia.
      * apply (sentinel_row_ok m 1). lia.
  - rewrite Hrun, Hst, upto_length. cbn [mbind result_bind].
    destruct (Z.to_nat noOfProcess) as [|n] eqn:Hn; [lia|].
    rewrite <- Hn, Z2Nat.id by lia. done.
Qed.

Lemma runProcesses_no_process {RS} (rand : RS → Z * RS) mapping
    noOfProcess noOfPages noOfRAMPages s mainOutput :
  noOfProcess <= 0 →
  runProcesses rand mapping (mkAnalyze noOfProcess noOfPages noOfRAMPages [])
               (s, mainOutput)
  = Ok (s, mainOutput ++ [[]]).
Proof.
  intros HN. unfold runProcesses. cbn [an_noOfProcess an_curOutput].
  by rewrite upto_nonpos.
Qed.

(** * The generated trace *)

Section GeneratorFacts.
Context {RS : Type} (rand : RS → Z * RS).
Context (rand_nonneg : ∀ s, 0 <= (rand s).1).

Lemma createProcess_fold noOfPages xs pageID s :
  1 <= noOfPages <= INT_MAX →
  Forall (λ pid, 1 <= pid <= noOfPages) pageID →
  let r := foldl (createProcess_body rand noOfPages) (pageID, s) xs in
  length r.1 = (length pageID + length xs)%nat ∧
  Forall (λ pid, 1 <= pid <= noOfPages) r.1.
Proof.
  intros Hn. revert pageID s.
  induction xs as [|x xs IH]; intros pageID s Hok; cbn [foldl].
  - cbn [fst length]. split; [lia | done].
  - pose proof (rand_nonneg s) as Hr.
    assert (Hstep : createProcess_body rand noOfPages (pageID, s) x
                    = (pageID ++ [Z.rem (rand s).1 noOfPages + 1], (rand s).2)).
    { unfold createProcess_body. destruct (rand s) as [r s']. cbn [fst snd] in *.
      pose proof (Z.rem_bound_pos r noOfPages Hr ltac:(lia)) as Hrem.
      by rewrite wrap_id by (unfold is_int, INT_MIN, INT_MAX in *; lia). }
    rewrite Hstep.
    pose proof (Z.rem_bound_pos _ noOfPages Hr ltac:(lia)) as Hrem.
    destruct (IH (pageID ++ [Z.rem (rand s).1 noOfPages + 1]) (rand s).2)
      as [Hlen Hall].
    { apply Forall_app. split; [done|]. apply Forall_singleton. lia. }
    split; [|done]. rewrite Hlen, length_app. cbn [length]. lia.
Qed.

Lemma createProcess_trace noOfPages noOfRAMPages s :
  1 <= noOfPages → 100 * noOfPages <= INT_MAX →
  let pageID := proc_pageID (createProcess rand noOfPages noOfRAMPages s).1 in
  Z.of_nat (length pageID) = 100 * noOfPages ∧
  Forall (λ pid, 1 <= pid <= noOfPages) pageID.
Proof.
  intros Hn Hmax. unfold createProcess.
  rewrite wrap_id by (unfold is_int, INT_MIN, INT_MAX in *; lia).
  destruct (createProcess_fold noOfPages (upto (100 * noOfPages)) [] s)
    as [Hlen Hall]; [lia | done |].
  destruct (foldl _ _ _) as [pageID s']. cbn [fst proc_pageID] in *.
  split; [|done]. rewrite Hlen, upto_length. cbn [length]. lia.
Qed.
End GeneratorFacts.

(** Whatever the generator draws, the trace it returns has a length that
    fits an [int]. *)
Lemma createProcess_trace_ok {RS} (rand : RS → Z * RS) noOfPages noOfRAMPages s :
  trace_ok (proc_pageID (createProcess rand noOfPages noOfRAMPages s).1).
Proof.
  unfold createProcess, trace_ok.
  assert (Hlen : ∀ xs pageID s0,
    length (foldl (createProcess_body rand noOfPages) (pageID, s0) xs).1
    = (length pageID + length xs)%nat).
  { induction xs as [|x xs IH]; intros pageID s0; cbn [foldl].
    - cbn [fst]. simpl. lia.
    - assert (Hstep : ∃ pid s', createProcess_body rand noOfPages (pageID, s0) x
                                = (pageID ++ [pid], s')).
      { unfold createProcess_body. destruct (rand s0) as [r s']. by eexists _, _. }
      destruct Hstep as (pid & s' & ->).
      rewrite IH, length_app. simpl. lia. }
  specialize (Hlen (upto (wrap (100 * noOfPages))) [] s).
  destruct (foldl _ _ _) as [pageID s']. cbn [fst proc_pageID] in *.
  rewrite Hlen, upto_length. cbn [length].
  pose proof (wrap_is_int (100 * noOfPages)) as [_ Hmax].
  unfold INT_MAX in *. lia.
Qed.

(** * The resident set never outgrows the frames: FIFO, LRU, MRU *)

Lemma FIFO_body_inv noOfRAMPages id st :
  1 <= noOfRAMPages <= INT_MAX → FIFO_inv noOfRAMPages st →
  ∃ st', FIFO_body noOfRAMPages id st = Ok st' ∧ FIFO_inv noOfRAMPages st'.
Proof.
  intros Hcap (Hcache & Hnodup & Hsize). destruct st as [missCount cache order].
  fields. subst cache. unfold FIFO_body. case_bool_decide as Hhit.
  { eexists. split; [done|]. by repeat split. }
  unfold size_is. rewrite to_size_t_id by lia. case_bool_decide as Hfull.
  - destruct order as [|front rest].
    { exfalso. rewrite list_to_set_nil, size_empty in Hfull. lia. }
    apply NoDup_cons in Hnodup as [Hfront Hrest].
    assert (Hev : (list_to_set (front :: rest) : gset Z) ∖ {[front]} = list_to_set rest).
    { rewrite list_to_set_cons. apply set_eq. intros x.
      rewrite elem_of_difference, elem_of_union, elem_of_singleton, elem_of_list_to_set.
      split; [naive_solver|]. intros Hx. split; [by right|]. by intros ->. }
    eexists. split; [reflexivity|]. unfold FIFO_inv. fields. rewrite Hev.
    assert (Hnew : id ∉ rest).
    { intros Hin. apply Hhit. rewrite list_to_set_cons. set_solver. }
    split; [rewrite list_to_set_snoc_L; set_solver|].
    split; [apply NoDup_app; repeat split;
            [done | set_solver | apply NoDup_singleton]|].
    rewrite list_to_set_cons, size_union, size_singleton in Hfull
      by (rewrite disjoint_singleton_l, elem_of_list_to_set; done).
    rewrite size_union, size_singleton
      by (rewrite disjoint_singleton_l, elem_of_list_to_set; done).
    lia.
  - eexists. split; [reflexivity|]. unfold FIFO_inv. fields.
    assert (Hnew : id ∉ order) by (by rewrite elem_of_list_to_set in Hhit).
    split; [rewrite list_to_set_snoc_L; set_solver|].
    split; [apply NoDup_app; repeat split;
            [done | set_solver | apply NoDup_singleton]|].
    rewrite size_union, size_singleton by (rewrite disjoint_singleton_l; done).
    lia.
Qed.

(** After any number of references FIFO has a state, and its resident
    set holds at most [noOfRAMPages] identifiers. *)
Lemma FIFO_bounded noOfRAMPages pageID :
  1 <= noOfRAMPages <= INT_MAX →
  ∃ st, for_each (FIFO_body noOfRAMPages) pageID FIFO_init = Ok st ∧
        FIFO_inv noOfRAMPages st.
Proof.
  intros Hcap.
  destruct (for_each_inv (λ _, FIFO_inv noOfRAMPages) (FIFO_body noOfRAMPages)
              pageID FIFO_init) as (st & Hrun & Hinv).
  - unfold FIFO_inv, FIFO_init. fields. rewrite size_empty.
    repeat split; [apply NoDup_nil_2 | lia].
  - intros k id st _ Hinv. by apply FIFO_body_inv.
  - by exists st.
Qed.

Section RecencyBounded.
Context (scan : gmap Z Z → list Z → Z * option Z) (better : Z → Z → Prop).
Context (Hscan : scan_spec scan better).
Context (iter : Z → gset Z → list Z) (Hiter : iter_ok iter).
Context (noOfRAMPages : Z) (Hcap : 1 <= noOfRAMPages <= INT_MAX).
Context (pageID : list Z).

Lemma recency_body_bounded i st :
  0 <= i < size_as_int pageID →
  recency_inv pageID i st →
  Z.of_nat (size (lru_cache st)) <= noOfRAMPages →
  ∃ st', recency_body scan iter noOfRAMPages pageID i st = Ok st' ∧
         Z.of_nat (size (lru_cache st')) <= noOfRAMPages.
Proof.
  intros Hi Hinv Hsize.
  pose proof (wrap_is_int (Z.of_nat (length pageID))) as [_ Hmax].
  fold (size_as_int pageID) in Hmax.
  assert (Hlen : size_as_int pageID <= Z.of_nat (length pageID)).
  { unfold size_as_int, wrap.
    pose proof (Z.mod_le (Z.of_nat (length pageID) + 2 ^ 31) (2 ^ 32)). lia. }
  destruct (at_index_in_range pageID i) as (id & Hid & _); [lia|].
  destruct st as [missCount cache lastUsed]. fields.
  unfold recency_body. rewrite Hid. cbn [mbind result_bind].
  case_bool_decide as Hhit; cbn [mbind result_bind].
  { eexists. split; [reflexivity|]. done. }
  unfold size_is. rewrite to_size_t_id by lia. case_bool_decide as Hfull.
  - assert (Hne : iter i cache ≠ []).
    { intros Hnil. pose proof (Hiter i cache) as Hperm. rewrite Hnil in Hperm.
      symmetry in Hperm. apply Permutation_nil_r, elements_empty_inv in Hperm.
      apply leibniz_equiv in Hperm. rewrite Hperm, size_empty in Hfull. lia. }
    destruct (scan_victim _ _ Hscan lastUsed (iter i cache) Hne)
      as (v & Hv & Hvin & _).
    { intros p Hp. rewrite (Hiter i cache) in Hp. apply elem_of_elements in Hp.
      apply (recency_inv_range pageID i (mkLRU missCount cache lastUsed));
        [lia | done | done]. }
    rewrite Hv. cbn [mbind result_bind].
    eexists. split; [reflexivity|]. fields.
    rewrite (Hiter i cache) in Hvin. apply elem_of_elements in Hvin.
    rewrite size_union, size_singleton by set_solver.
    rewrite size_difference, size_singleton by set_solver.
    assert (size cache ≠ 0)%nat by lia. lia.
  - cbn [mbind result_bind]. eexists. split; [reflexivity|]. fields.
    rewrite size_union, size_singleton by set_solver. lia.
Qed.

(** After any number [k] of steps the policy has a state, and its
    resident set holds at most [noOfRAMPages] identifiers. *)
Lemma recency_bounded (k : nat) :
  ∃ st, for_each (recency_body scan iter noOfRAMPages pageID)
                 (take k (upto (size_as_int pageID))) LRU_init = Ok st ∧
        Z.of_nat (size (lru_cache st)) <= noOfRAMPages.
Proof.
  destruct (for_each_inv
    (λ j st, recency_inv pageID (Z.of_nat j) st ∧
             Z.of_nat (size (lru_cache st)) <= noOfRAMPages)
    (recency_body scan iter noOfRAMPages pageID)
    (take k (upto (size_as_int pageID))) LRU_init) as (st & Hrun & _ & Hsize).
  - split; [apply recency_inv_init|]. unfold LRU_init. fields.
    rewrite size_empty. lia.
  - intros j x st Hx [Hinv Hsize].
    apply lookup_take_Some in Hx as [Hx _].
    apply upto_lookup in Hx as [-> Hj].
    destruct (recency_body_bounded (Z.of_nat j) st) as (st' & Hst' & Hsize');
      [lia | done | done |].
    exists st'. split; [done|]. split; [|done].
    replace (Z.of_nat (S j)) with (Z.of_nat j + 1) by lia.
    eapply recency_body_next; [lia | done | done].
  - by exists st.
Qed.
End RecencyBounded.

(** * Instances used in examples *)

Lemma canon_ok : iter_ok canon.
Proof. intros i cache. reflexivity. Qed.

Lemma lcg_nonneg s : 0 <= (lcg s).1.
Proof. unfold lcg. cbn [fst]. apply Z.mod_pos_bound. lia. Qed.

Lemma LRU_order_irrelevant iter noOfPages noOfRAMPages pageID :
  iter_ok iter →
  LRU_processRAM iter noOfPages noOfRAMPages pageID
  = LRU_processRAM canon noOfPages noOfRAMPages pageID.
Proof.
  intros Hiter. unfold LRU_processRAM.
  apply (recency_order_irrelevant _ _ LRU_scan_spec); [done | apply canon_ok].
Qed.

Lemma MRU_order_irrelevant iter noOfPages noOfRAMPages pageID :
  iter_ok iter →
  MRU_processRAM iter noOfPages noOfRAMPages pageID
  = MRU_processRAM canon noOfPages noOfRAMPages pageID.
Proof.
  intros Hiter. unfold MRU_processRAM.
  apply (recency_order_irrelevant _ _ MRU_scan_spec); [done | apply canon_ok].
Qed.

Lemma mapping_ids_in_range iterL iterM : ids_in_range (mapping iterL iterM).
Proof. unfold ids_in_range, mapping. repeat constructor; simpl; lia. Qed.

(** In the sweep every page size from 1 on leaves at least one frame. *)
Lemma sweep_leaves_a_frame noOfProcess RAMSize processSize pageSize :
  1 <= pageSize <= Z.min RAMSize processSize →
  ∃ a, createAnalyze noOfProcess RAMSize processSize pageSize = Ok a ∧
       1 <= an_noOfRAMPages a.
Proof.
  intros Hps. rewrite createAnalyze_sized by lia.
  eexists. split; [done|]. cbn [an_noOfRAMPages].
  rewrite Z.quot_div_nonneg by lia.
  apply Z.div_le_lower_bound; lia.
Qed.

(** The rows that [runProcesses] accumulates are merged one after the
    other, as [merge_all] does. *)
Lemma runProcesses_merges {RS} (rand : RS → Z * RS) mapping a xs s cur s' cur' :
  for_each (runProcesses_body rand mapping a) xs (s, cur) = Ok (s', cur') →
  ∃ rows, length rows = length xs ∧ merge_all rows cur = Ok cur'.
Proof.
  revert s cur. induction xs as [|x xs IH]; intros s cur Hrun.
  - injection Hrun as <- <-. by exists [].
  - cbn [for_each] in Hrun.
    apply bind_Ok_inv in Hrun as ([s1 cur1] & Hbody & Hrest).
    unfold runProcesses_body in Hbody.
    destruct (createProcess rand _ _ s) as [curProcess s0].
    apply bind_Ok_inv in Hbody as (row & Hrow & Hbody).
    apply bind_Ok_inv in Hbody as (merged & Hmerged & Hbody).
    injection Hbody as <- <-.
    destruct (IH _ _ Hrest) as (rows & Hlen & Hall).
    exists (row :: rows). split; [simpl; by rewrite Hlen|].
    unfold merge_all in *. cbn [for_each]. by rewrite Hmerged.
Qed.

(** [runProcesses] appends exactly one row to the result matrix. *)
Lemma runProcesses_appends {RS} (rand : RS → Z * RS) mapping a s mainOutput s' out :
  runProcesses rand mapping a (s, mainOutput) = Ok (s', out) →
  ∃ row, out = mainOutput ++ [row].
Proof.
  unfold runProcesses. intros ([s1 cur] & _ & Hout)%bind_Ok_inv.
  injection Hout as <- <-. by exists cur.
Qed.

(** When the sweep over the page sizes returns, the row it has added first
    is the row of page size 0. *)
Lemma sweep_row_zero {RS} (rand : RS → Z * RS) mapping
    RAMSize noOfProcess processSize s mainOutput s' out :
  ids_in_range mapping → 1 <= noOfProcess <= INT_MAX →
  0 <= Z.min RAMSize processSize →
  analyzeOnAllPageSize rand mapping RAMSize noOfProcess processSize (s, mainOutput)
  = Ok (s', out) →
  out !! length mainOutput
  = Some (replicate (length mapping + 1) [- noOfProcess; - noOfProcess]).
Proof.
  intros Hids HN Hmin. unfold analyzeOnAllPageSize.
  rewrite upto_cons by lia. cbn [for_each].
  rewrite analyzeOnAllPageSize_body_zero.
  rewrite runProcesses_sentinel by done. cbn [mbind result_bind].
  set (row := replicate (length mapping + 1) [- noOfProcess; - noOfProcess]).
  assert (Hkeep : ∀ xs st st',
    for_each (analyzeOnAllPageSize_body rand mapping RAMSize noOfProcess processSize)
             xs st = Ok st' →
    ∃ rows, st'.2 = st.2 ++ rows).
  { induction xs as [|x xs IH]; intros st st' Hrun.
    - injection Hrun as <-. exists []. by rewrite app_nil_r.
    - cbn [for_each] in Hrun. apply bind_Ok_inv in Hrun as (st1 & Hstep & Hrest).
      destruct st as [s0 out0], st1 as [s1 out1].
      apply bind_Ok_inv in Hstep as (a & _ & Hstep).
      apply runProcesses_appends in Hstep as [row1 ->].
      destruct (IH _ _ Hrest) as [rows Hrows]. cbn [snd] in *.
      exists (row1 :: rows). by rewrite Hrows, <- app_assoc. }
  intros Hrun. destruct (Hkeep _ _ _ Hrun) as [rows Hrows]. cbn [snd] in Hrows.
  rewrite Hrows, <- app_assoc. cbn [app].
  by rewrite lookup_app_r, Nat.sub_diag by lia.
Qed.

(** * OPT on a machine that reads past the end of the trace *)

Lemma for_each_Ok_mono {A St} (body body' : A → St → result St) xs st st' :
  (∀ x s s', body x s = Ok s' → body' x s = Ok s') →
  for_each body xs st = Ok st' → for_each body' xs st = Ok st'.
Proof.
  intros Hmono. revert st. induction xs as [|x xs IH]; intros st Hrun; [done|].
  cbn [for_each] in *. apply bind_Ok_inv in Hrun as (s1 & Hbody & Hrest).
  rewrite (Hmono _ _ _ Hbody). cbn [mbind result_bind]. by apply IH.
Qed.

Lemma at_index_app {A} (v w : list A) i x :
  at_index v i = Ok x → at_index (v ++ w) i = Ok x.
Proof.
  intros [Hi Hx]%at_index_Ok. unfold at_index.
  rewrite bool_decide_eq_true_2 by done.
  by rewrite (lookup_app_l_Some _ _ _ _ Hx).
Qed.

Lemma OPT_body_app noOfRAMPages pageID rest next i st st' :
  OPT_body noOfRAMPages pageID next i st = Ok st' →
  OPT_body noOfRAMPages (pageID ++ rest) next i st = Ok st'.
Proof.
  destruct st as [missCount cache occSet]. unfold OPT_body.
  intros (id & Hid & Hbody)%bind_Ok_inv.
  rewrite (at_index_app _ rest _ _ Hid). cbn [mbind result_bind].
  case_bool_decide; [done|].
  apply bind_Ok_inv in Hbody as ([cache1 occSet1] & Hevict & Hbody).
  destruct (size_is cache noOfRAMPages); [|by rewrite Hevict].
  destruct (set_last occSet) as [removeAt|]; [|done].
  apply bind_Ok_inv in Hevict as (victim & Hvictim & Hevict).
  rewrite (at_index_app _ rest _ _ Hvictim). cbn [mbind result_bind].
  by injection Hevict as <- <-.
Qed.

(** Where the run of the model returns, the run on the machine ends with
    the same miss count, whatever lies behind the trace. *)
Lemma OPT_run_stray_agrees stray noOfPages noOfRAMPages pageID missCount total :
  OPT_processRAM noOfPages noOfRAMPages pageID = Ok [missCount; total] →
  ∃ st, OPT_run_stray stray noOfRAMPages pageID = Ok st ∧
        opt_missCount st = missCount.
Proof.
  unfold OPT_processRAM, OPT_run_stray.
  intros (next & -> & Hrun)%bind_Ok_inv. cbn [mbind result_bind].
  apply bind_Ok_inv in Hrun as (st & Hrun & Hret). injection Hret as <- <-.
  exists st. split; [|done].
  eapply for_each_Ok_mono; [|exact Hrun].
  intros x s s'. apply OPT_body_app.
Qed.

(** On the trace of the worked example with three frames: if the value
    behind the trace is not a resident (here 0), nothing is evicted at the
    reference of index 9, OPT ends with 7 misses and five residents; if
    the value is 5, OPT ends with 8 misses. *)
Lemma OPT_fixture_stray :
  (∃ st, OPT_run_stray 0 3 fixture = Ok st ∧
         opt_missCount st = 7 ∧ size (opt_cache st) = 5%nat) ∧
  (∃ st, OPT_run_stray 5 3 fixture = Ok st ∧ opt_missCount st = 8).
Proof. split; eexists; (split; [vm_compute; reflexivity|]); by vm_compute. Qed.

(** On the trace [1, 2, 3, 1] with two frames MRU misses 3 times; OPT
    misses 4 times if the value behind the trace is 1, because the stray
    eviction at the third reference then removes the identifier that the
    fourth reference needs. *)
Lemma OPT_stray_above_MRU iter noOfPages :
  iter_ok iter →
  MRU_processRAM iter noOfPages 2 [1; 2; 3; 1] = Ok [3; 4] ∧
  ∃ st, OPT_run_stray 1 2 [1; 2; 3; 1] = Ok st ∧ opt_missCount st = 4.
Proof.
  intros Hiter. rewrite (MRU_order_irrelevant iter) by done.
  split; [by vm_compute|]. eexists. split; [vm_compute; reflexivity | done].
Qed.

(** On the trace [1, 2, 1] with one frame, a value behind the trace that
    is not the resident (here 0) leaves OPT with two residents. *)
Lemma OPT_stray_outgrows_frames :
  ∃ st, OPT_run_stray 0 1 [1; 2; 1] = Ok st ∧ size (opt_cache st) = 2%nat.
Proof. eexists. split; [vm_compute; reflexivity | by vm_compute]. Qed.

(** * OPT: the table of next occurrences, and the runs that have to evict *)

Lemma find_from_le l p : (find_from l p ≤ length l)%nat.
Proof. induction l as [|x l IH]; simpl; [lia|]. case_decide; lia. Qed.

Lemma find_from_lookup l p : (find_from l p < length l)%nat → l !! find_from l p = Some p.
Proof.
  induction l as [|x l IH]; simpl; [lia|]. case_decide as Hx; [by subst|].
  intros Hlt. apply IH. lia.
Qed.

Lemma find_from_first l p j : (j < find_from l p)%nat → l !! j ≠ Some p.
Proof.
  revert j. induction l as [|x l IH]; intros j; simpl; [lia|].
  case_decide as Hx; [lia|]. intros Hlt. destruct j as [|j]; simpl.
  - congruence.
  - apply IH. lia.
Qed.

Lemma next_occ_range pageID i p :
  (i ≤ length pageID → i ≤ next_occ pageID i p ≤ length pageID)%nat.
Proof.
  intros Hi. unfold next_occ.
  pose proof (find_from_le (drop i pageID) p) as Hle. rewrite length_drop in Hle. lia.
Qed.

Lemma next_occ_lookup pageID i p :
  (next_occ pageID i p < length pageID)%nat →
  pageID !! next_occ pageID i p = Some p.
Proof.
  unfold next_occ. intros Hlt. rewrite <- lookup_drop. apply find_from_lookup.
  rewrite length_drop. lia.
Qed.

Lemma next_occ_first pageID i p j :
  (i ≤ j < next_occ pageID i p)%nat → pageID !! j ≠ Some p.
Proof.
  unfold next_occ. intros Hj.
  replace j with (i + (j - i))%nat by lia. rewrite <- lookup_drop.
  apply find_from_first. lia.
Qed.

Lemma next_occ_here pageID i p : pageID !! i = Some p → next_occ pageID i p = i.
Proof.
  intros Hi. unfold next_occ. rewrite (drop_S _ _ _ Hi). simpl.
  rewrite decide_True by done. lia.
Qed.

Lemma next_occ_skip pageID i p q :
  pageID !! i = Some q → q ≠ p → next_occ pageID i p = next_occ pageID (S i) p.
Proof.
  intros Hi Hne. unfold next_occ. rewrite (drop_S _ _ _ Hi). simpl.
  rewrite decide_False by done. lia.
Qed.

Lemma next_occ_end pageID p : next_occ pageID (length pageID) p = length pageID.
Proof. unfold next_occ. rewrite drop_all. simpl. lia. Qed.

Lemma downfrom_lookup total (m : nat) x :
  0 <= total <= INT_MAX →
  downfrom total !! m = Some x → x = total - 1 - Z.of_nat m ∧ Z.of_nat m < total.
Proof.
  intros Htotal. unfold downfrom.
  rewrite wrap_id by (unfold is_int, INT_MIN, INT_MAX in *; lia).
  replace (total - 1 + 1) with total by lia.
  intros Hx. assert (Hm : (m < length (seqZ 0 total))%nat).
  { apply lookup_lt_Some in Hx. by rewrite length_reverse in Hx. }
  rewrite reverse_lookup in Hx by done.
  rewrite length_seqZ in Hx, Hm.
  apply lookup_seqZ in Hx as [-> Hlt]. lia.
Qed.

Lemma downfrom_length total :
  0 <= total <= INT_MAX → length (downfrom total) = Z.to_nat total.
Proof.
  intros Htotal. unfold downfrom.
  rewrite wrap_id by (unfold is_int, INT_MIN, INT_MAX in *; lia).
  rewrite length_reverse, length_seqZ. lia.
Qed.

Lemma OPT_next_body_inv pageID (k : nat) st :
  (k < length pageID)%nat →
  OPT_next_inv pageID (S k) st →
  ∃ st', OPT_next_body pageID (Z.of_nat k) st = Ok st' ∧ OPT_next_inv pageID k st'.
Proof.
  intros Hklt (Hlen & Hfut & Hnext & Hinit). destruct st as [next futureIndex]. fields.
  destruct (lookup_lt_is_Some_2 pageID k Hklt) as [id Hk].
  unfold OPT_next_body. rewrite (at_index_lookup _ _ _ Hk). cbn [mbind result_bind].
  pose proof (next_occ_range pageID (S k) id ltac:(lia)) as Hrange.
  assert (Hnew : ∃ next',
    match futureIndex !! id with
    | Some j => set_index next (Z.of_nat k) j
    | None => Ok next
    end = Ok next' ∧ length next' = length pageID ∧
    next' !! k = Some (Z.of_nat (next_occ pageID (S k) id)) ∧
    ∀ j, j ≠ k → next' !! j = next !! j).
  { rewrite Hfut. case_decide as Hocc.
    - rewrite set_index_lookup by lia. eexists. split; [done|].
      rewrite length_insert. split; [done|]. split.
      + by rewrite list_lookup_insert_eq by lia.
      + intros j Hj. by rewrite list_lookup_insert_ne.
    - exists next. split; [done|]. split; [done|]. split; [|done].
      rewrite Hinit by lia. do 2 f_equal. lia. }
  destruct Hnew as (next' & -> & Hlen' & Hat & Hother). cbn [mbind result_bind].
  eexists. split; [done|]. split; [done|]. fields. split; [|split].
  - intros p. destruct (decide (p = id)) as [->|Hne].
    + rewrite lookup_insert_eq, (next_occ_here _ _ _ Hk).
      by rewrite decide_True by lia.
    + rewrite lookup_insert_ne by done.
      rewrite (next_occ_skip _ _ _ _ Hk) by done. apply Hfut.
  - intros j id' Hj Hid'. destruct (decide (j = k)) as [->|Hne].
    + rewrite Hk in Hid'. injection Hid' as <-. done.
    + rewrite Hother by done. apply Hnext; [lia | done].
  - intros j Hj Hjlen. rewrite Hother by lia. apply Hinit; lia.
Qed.

(** The table [next] holds, for every position, the position of the next
    occurrence of the identifier referenced there, or the length of the
    trace if the identifier does not occur again. *)
Lemma OPT_next_table pageID :
  trace_ok pageID →
  ∃ next, OPT_next (Z.of_nat (length pageID)) pageID = Ok next ∧
          length next = length pageID ∧
          ∀ k id, pageID !! k = Some id →
                  next !! k = Some (Z.of_nat (next_occ pageID (S k) id)).
Proof.
  intros Hlen. unfold OPT_next. unfold trace_ok in Hlen.
  rewrite bool_decide_eq_false_2 by lia.
  set (total := Z.of_nat (length pageID)).
  assert (Htotal : 0 <= total <= INT_MAX) by (unfold total; lia).
  destruct (for_each_inv
    (λ m st, OPT_next_inv pageID (length pageID - m) st)
    (OPT_next_body pageID) (downfrom total)
    (replicate (Z.to_nat total) total, ∅))
    as ([next futureIndex] & Hrun & Hnextlen & _ & Hnext & _).
  - unfold OPT_next_inv. fields. rewrite Nat.sub_0_r.
    split; [by rewrite length_replicate; unfold total; lia|]. split; [|split].
    + intros p. rewrite lookup_empty, next_occ_end. by rewrite decide_False by lia.
    + intros j id Hj Hid. apply lookup_lt_Some in Hid. lia.
    + intros j _ Hj. apply lookup_replicate_2. unfold total. lia.
  - intros m x st Hx Hinv.
    apply (downfrom_lookup _ _ _ Htotal) in Hx as [-> Hm].
    replace (total - 1 - Z.of_nat m) with (Z.of_nat (length pageID - S m))
      by (unfold total; lia).
    replace (length pageID - m)%nat with (S (length pageID - S m)) in Hinv
      by (unfold total in Hm; lia).
    apply OPT_next_body_inv; [unfold total in Hm; lia | done].
  - rewrite (downfrom_length _ Htotal) in Hnext. fields.
    exists next. rewrite Hrun. split; [done|]. split; [done|].
    intros k id Hk. apply Hnext; [unfold total; lia | done].
Qed.

(** ** The largest element of a set *)

Lemma max_of_list (l : list Z) :
  match foldr (λ x acc, Some (from_option (Z.max x) x acc)) None l with
  | None => l = []
  | Some m => m ∈ l ∧ ∀ x, x ∈ l → x <= m
  end.
Proof.
  induction l as [|x l IH]; [done|]. cbn [foldr].
  destruct (foldr _ None l) as [m|]; cbn [from_option].
  - destruct IH as [Hm Hmax]. split.
    + destruct (Z.max_spec x m) as [[_ ->]|[_ ->]]; [by right | by left].
    + intros y [->|Hy]%elem_of_cons; [lia|]. specialize (Hmax y Hy). lia.
  - subst l. split; [by left|]. intros y [->|Hy]%elem_of_cons; [lia|].
    by apply elem_of_nil in Hy.
Qed.

Lemma set_last_Some s r : set_last s = Some r → r ∈ s ∧ ∀ x, x ∈ s → x <= r.
Proof.
  unfold set_last. pose proof (max_of_list (elements s)) as Hmax.
  intros Heq. rewrite Heq in Hmax. destruct Hmax as [Hr Hall]. split.
  - by apply elem_of_elements.
  - intros x Hx. apply Hall. by apply elem_of_elements.
Qed.

Lemma set_last_None s : set_last s = None → s = ∅.
Proof.
  unfold set_last. pose proof (max_of_list (elements s)) as Hmax.
  intros Heq. rewrite Heq in Hmax. apply leibniz_equiv. by apply elements_empty_inv.
Qed.

(** ** OPT's loop *)

Section OPTLoop.
Context (noOfRAMPages : Z) (pageID next : list Z).
Context (Hcap : 1 <= noOfRAMPages <= INT_MAX).
Context (Hnext : ∀ k id, pageID !! k = Some id →
                         next !! k = Some (Z.of_nat (next_occ pageID (S k) id))).

Lemma OPT_body_hit (i : nat) id st :
  pageID !! i = Some id → id ∈ opt_cache st → OPT_inv pageID i st →
  ∃ st', OPT_body noOfRAMPages pageID next (Z.of_nat i) st = Ok st' ∧
         opt_cache st' = opt_cache st ∧ opt_missCount st' = opt_missCount st ∧
         OPT_inv pageID (S i) st'.
Proof using Hnext.
  clear Hcap. intros Hi Hin Hinv. destruct st as [missCount cache occSet].
  unfold OPT_inv in *. fields. subst occSet.
  unfold OPT_body. rewrite (at_index_lookup _ _ _ Hi). cbn [mbind result_bind].
  rewrite bool_decide_eq_true_2 by done.
  rewrite (at_index_lookup _ _ _ (Hnext _ _ Hi)). cbn [mbind result_bind].
  eexists. split; [done|]. fields. split; [done|]. split; [done|].
  assert (Hilt : (i < length pageID)%nat) by (by apply lookup_lt_Some in Hi).
  apply set_eq. intros y. rewrite elem_of_union, elem_of_singleton,
    elem_of_difference, elem_of_singleton, !elem_of_map. split.
  - intros [->|[(p & -> & Hp) Hne]].
    + by exists id.
    + exists p. split; [|done]. destruct (decide (p = id)) as [->|Hpid].
      * by rewrite (next_occ_here _ _ _ Hi) in Hne.
      * by rewrite (next_occ_skip _ _ _ _ Hi).
  - intros (p & -> & Hp). destruct (decide (p = id)) as [->|Hpid]; [by left|].
    right. rewrite <- (next_occ_skip _ _ _ _ Hi) by done. split; [by exists p|].
    intros Heq. apply Nat2Z.inj in Heq.
    pose proof (next_occ_lookup pageID i p ltac:(lia)) as Hat.
    rewrite Heq, Hi in Hat. congruence.
Qed.

Lemma OPT_insert_inv (i : nat) id (cache : gset Z) :
  pageID !! i = Some id → id ∉ cache →
  {[Z.of_nat (next_occ pageID (S i) id)]}
    ∪ set_map (λ p, Z.of_nat (next_occ pageID i p)) cache
  =@{gset Z} set_map (λ p, Z.of_nat (next_occ pageID (S i) p)) ({[id]} ∪ cache).
Proof using Type.
  clear Hcap Hnext. intros Hi Hout. apply set_eq. intros y.
  rewrite elem_of_union, elem_of_singleton, !elem_of_map. split.
  - intros [->|(p & -> & Hp)].
    + exists id. split; [done | set_solver].
    + exists p. split; [|set_solver]. rewrite (next_occ_skip _ _ _ _ Hi); [done|].
      by intros ->.
  - intros (p & -> & [->%elem_of_singleton|Hp]%elem_of_union); [by left|].
    right. exists p. split; [|done]. rewrite (next_occ_skip _ _ _ _ Hi); [done|].
    by intros ->.
Qed.

Lemma OPT_body_miss_room (i : nat) id st :
  pageID !! i = Some id → id ∉ opt_cache st →
  Z.of_nat (size (opt_cache st)) ≠ noOfRAMPages → OPT_inv pageID i st →
  ∃ st', OPT_body noOfRAMPages pageID next (Z.of_nat i) st = Ok st' ∧
         opt_cache st' = {[id]} ∪ opt_cache st ∧
         opt_missCount st' = wrap (opt_missCount st + 1) ∧
         OPT_inv pageID (S i) st'.
Proof using Hnext Hcap.
  intros Hi Hout Hroom Hinv. destruct st as [missCount cache occSet].
  unfold OPT_inv in *. fields. subst occSet.
  unfold OPT_body. rewrite (at_index_lookup _ _ _ Hi). cbn [mbind result_bind].
  rewrite bool_decide_eq_false_2 by done.
  unfold size_is. rewrite to_size_t_id by lia.
  rewrite bool_decide_eq_false_2 by done. cbn [mbind result_bind].
  rewrite (at_index_lookup _ _ _ (Hnext _ _ Hi)). cbn [mbind result_bind].
  eexists. split; [done|]. fields. split; [done|]. split; [done|].
  by apply OPT_insert_inv.
Qed.

Lemma OPT_body_miss_full (i : nat) id st :
  pageID !! i = Some id → id ∉ opt_cache st →
  Z.of_nat (size (opt_cache st)) = noOfRAMPages → OPT_inv pageID i st →
  OPT_body noOfRAMPages pageID next (Z.of_nat i) st
    = Fault (OutOfRange (Z.of_nat (length pageID))) ∨
  ∃ st' v (r : nat),
    OPT_body noOfRAMPages pageID next (Z.of_nat i) st = Ok st' ∧
    v ∈ opt_cache st ∧ (i < r < length pageID)%nat ∧ pageID !! r = Some v ∧
    opt_cache st' = {[id]} ∪ (opt_cache st ∖ {[v]}) ∧
    opt_missCount st' = wrap (opt_missCount st + 1) ∧
    OPT_inv pageID (S i) st'.
Proof using Hnext Hcap.
  intros Hi Hout Hfull Hinv. destruct st as [missCount cache occSet].
  unfold OPT_inv in *. fields. subst occSet.
  assert (Hilt : (i < length pageID)%nat) by (by apply lookup_lt_Some in Hi).
  unfold OPT_body. rewrite (at_index_lookup _ _ _ Hi). cbn [mbind result_bind].
  rewrite bool_decide_eq_false_2 by done.
  unfold size_is. rewrite to_size_t_id by lia.
  rewrite bool_decide_eq_true_2 by done.
  destruct (set_last _) as [removeAt|] eqn:Hlast.
  2:{ apply set_last_None in Hlast. exfalso.
      assert (Hne : cache ≠ ∅).
      { intros ->. rewrite size_empty in Hfull. lia. }
      apply Hne. apply set_eq. intros p. split; [|set_solver].
      intros Hp. assert (Hin : Z.of_nat (next_occ pageID i p)
        ∈ (set_map (λ p, Z.of_nat (next_occ pageID i p)) cache : gset Z)).
      { apply elem_of_map. by exists p. }
      rewrite Hlast in Hin. set_solver. }
  apply set_last_Some in Hlast as [Hin Hmax].
  apply elem_of_map in Hin as (v & -> & Hv).
  pose proof (next_occ_range pageID i v ltac:(lia)) as Hrange.
  destruct (decide (next_occ pageID i v = length pageID)) as [Hend|Hreal].
  { left. rewrite Hend, at_index_past_end. done. }
  right. set (r := next_occ pageID i v) in *.
  pose proof (next_occ_lookup pageID i v ltac:(lia)) as Hr. fold r in Hr.
  assert (Hri : r ≠ i). { intros Heq. rewrite Heq, Hi in Hr. congruence. }
  rewrite (at_index_lookup _ _ _ Hr). cbn [mbind result_bind].
  rewrite (at_index_lookup _ _ _ (Hnext _ _ Hi)). cbn [mbind result_bind].
  eexists _, v, r. split; [done|]. fields.
  split; [done|]. split; [lia|]. split; [done|]. split; [done|]. split; [done|].
  rewrite <- OPT_insert_inv by set_solver. f_equal.
  apply set_eq. intros y. rewrite elem_of_difference, elem_of_singleton, !elem_of_map.
  split.
  - intros [(p & -> & Hp) Hne]. exists p. split; [done|].
    apply elem_of_difference. split; [done|]. rewrite elem_of_singleton.
    intros ->. by apply Hne.
  - intros (p & -> & [Hp Hpv]%elem_of_difference). rewrite elem_of_singleton in Hpv.
    split; [by exists p|]. intros Heq. apply Nat2Z.inj in Heq. apply Hpv.
    pose proof (next_occ_lookup pageID i p ltac:(fold r in Heq; lia)) as Hp'.
    rewrite Heq in Hp'. fold r in Hp'. congruence.
Qed.
End OPTLoop.

Section OPTRun.
Context (noOfRAMPages : Z) (pageID next : list Z).
Context (Hcap : 1 <= noOfRAMPages <= INT_MAX).
Context (Hnext : ∀ k id, pageID !! k = Some id →
                         next !! k = Some (Z.of_nat (next_occ pageID (S k) id))).

Lemma OPT_run_from_step (j : nat) st :
  (j < length pageID)%nat →
  OPT_run_from noOfRAMPages pageID next j st
  = (st' ← OPT_body noOfRAMPages pageID next (Z.of_nat j) st;
     OPT_run_from noOfRAMPages pageID next (S j) st').
Proof using Type.
  clear Hcap Hnext. intros Hj. unfold OPT_run_from.
  rewrite seqZ_cons by lia. cbn [for_each].
  replace (Z.succ (Z.of_nat j)) with (Z.of_nat (S j)) by lia.
  by replace (Z.pred (Z.of_nat (length pageID - j)))
    with (Z.of_nat (length pageID - S j)) by lia.
Qed.

Lemma OPT_run_from_end st :
  OPT_run_from noOfRAMPages pageID next (length pageID) st = Ok st.
Proof using Type.
  clear Hcap Hnext. unfold OPT_run_from. by rewrite Nat.sub_diag, seqZ_nil.
Qed.

(** From a doomed state the run ends at the read past the end of the
    trace. *)
Lemma OPT_doomed_faults (n : nat) : ∀ (j : nat) st,
  (length pageID - j ≤ n)%nat →
  OPT_doomed noOfRAMPages pageID j st →
  OPT_run_from noOfRAMPages pageID next j st
  = Fault (OutOfRange (Z.of_nat (length pageID))).
Proof using Hcap Hnext.
  induction n as [|n IH]; intros j st Hn (Hinv & Hfull & r & v & Hjr & Hr & Hv).
  { apply lookup_lt_Some in Hr. lia. }
  assert (Hj : (j < length pageID)%nat) by (apply lookup_lt_Some in Hr; lia).
  destruct (lookup_lt_is_Some_2 pageID j Hj) as [id Hid].
  rewrite OPT_run_from_step by done.
  destruct (decide (id ∈ opt_cache st)) as [Hhit|Hmiss].
  - destruct (OPT_body_hit noOfRAMPages pageID next Hnext j id st Hid Hhit Hinv)
      as (st' & -> & Hcache & _ & Hinv').
    cbn [mbind result_bind]. apply IH; [lia|].
    split; [done|]. rewrite Hcache. split; [done|].
    exists r, v. split; [|done].
    destruct (decide (r = j)) as [->|]; [|lia]. congruence.
  - destruct (OPT_body_miss_full noOfRAMPages pageID next Hcap Hnext j id st
                Hid Hmiss Hfull Hinv)
      as [-> | (st' & w & q & -> & Hw & Hq & Hqw & Hcache & _ & Hinv')]; [done|].
    cbn [mbind result_bind]. apply IH; [lia|].
    split; [done|]. rewrite Hcache. split.
    + rewrite size_union, size_singleton by set_solver.
      rewrite size_difference, size_singleton by set_solver.
      assert (size (opt_cache st) ≠ 0)%nat by lia. lia.
    + exists q, w. split; [lia|]. split; [done|]. set_solver.
Qed.

(** A run that has never evicted either goes on like that to the end of
    the trace, or reaches a miss with all frames taken and ends at the read
    past the end of the trace. *)
Lemma OPT_cold_or_faults (n : nat) : ∀ (j : nat) st,
  (length pageID - j ≤ n)%nat → (j ≤ length pageID)%nat →
  OPT_inv pageID j st →
  opt_cache st = list_to_set (take j pageID) →
  Z.of_nat (size (opt_cache st)) <= noOfRAMPages →
  OPT_run_from noOfRAMPages pageID next j st
    = Fault (OutOfRange (Z.of_nat (length pageID))) ∨
  ∃ st', OPT_run_from noOfRAMPages pageID next j st = Ok st' ∧
         opt_cache st' = list_to_set pageID ∧
         Z.of_nat (size (opt_cache st')) <= noOfRAMPages.
Proof using Hcap Hnext.
  induction n as [|n IH]; intros j st Hn Hjle Hinv Hseen Hsize.
  { right. assert (j = length pageID) as -> by lia.
    rewrite OPT_run_from_end. exists st. by rewrite firstn_all in Hseen. }
  destruct (decide (j = length pageID)) as [->|Hjne].
  { right. rewrite OPT_run_from_end. exists st. by rewrite firstn_all in Hseen. }
  assert (Hj : (j < length pageID)%nat) by lia.
  destruct (lookup_lt_is_Some_2 pageID j Hj) as [id Hid].
  destruct (decide (id ∈ opt_cache st)) as [Hhit|Hmiss].
  - rewrite OPT_run_from_step by done.
    destruct (OPT_body_hit noOfRAMPages pageID next Hnext j id st Hid Hhit Hinv)
      as (st' & -> & Hcache & _ & Hinv').
    cbn [mbind result_bind]. apply IH; [lia | lia | done | | by rewrite Hcache].
    rewrite Hcache, Hseen. symmetry. apply (seen_hit _ _ _ Hid). by rewrite <- Hseen.
  - destruct (decide (Z.of_nat (size (opt_cache st)) = noOfRAMPages)) as [Hfull|Hroom].
    + left. apply (OPT_doomed_faults (S n)); [lia|].
      split; [done|]. split; [done|]. by exists j, id.
    + rewrite OPT_run_from_step by done.
      destruct (OPT_body_miss_room noOfRAMPages pageID next Hcap Hnext j id st
                  Hid Hmiss Hroom Hinv) as (st' & -> & Hcache & _ & Hinv').
      cbn [mbind result_bind]. apply IH; [lia | lia | done | |].
      * rewrite Hcache, Hseen. symmetry. apply (seen_next _ _ _ Hid).
      * rewrite Hcache, size_union, size_singleton by set_solver. lia.
Qed.
End OPTRun.

(** OPT returns a result only when it never has to evict: with more
    distinct identifiers than frames, the run ends at the read of the
    trace at the index [pageID.size()]. *)
Lemma OPT_faults_when_evicting noOfPages noOfRAMPages pageID :
  trace_ok pageID → 1 <= noOfRAMPages <= INT_MAX →
  noOfRAMPages < Z.of_nat (distinct pageID) →
  OPT_processRAM noOfPages noOfRAMPages pageID
  = Fault (OutOfRange (Z.of_nat (length pageID))).
Proof.
  intros Hlen Hcap Hmany. unfold OPT_processRAM. rewrite (size_as_int_ok _ Hlen).
  destruct (OPT_next_table pageID Hlen) as (next & -> & _ & Hnext).
  cbn [mbind result_bind].
  destruct (OPT_cold_or_faults noOfRAMPages pageID next Hcap Hnext
              (length pageID) 0 OPT_init) as [Hrun | (st & _ & Hcache & Hsize)].
  - lia.
  - lia.
  - unfold OPT_inv, OPT_init. fields. by rewrite set_map_empty.
  - done.
  - unfold OPT_init. fields. rewrite size_empty. lia.
  - unfold OPT_run_from in Hrun. rewrite Nat.sub_0_r in Hrun.
    unfold upto. change (Z.of_nat 0) with 0 in Hrun. by rewrite Hrun.
  - exfalso. unfold distinct in Hmany. rewrite Hcache in Hsize. lia.
Qed.

(** * FIFO, LRU and MRU: the states that a run goes through *)

Lemma last_occ_snoc l x p :
  last_occ (l ++ [x]) p = if decide (x = p) then Some (length l) else last_occ l p.
Proof.
  induction l as [|y l IH]; simpl.
  - by case_decide.
  - rewrite IH. case_decide; [done|]. done.
Qed.

Lemma last_occ_None l p j : last_occ l p = None → l !! j ≠ Some p.
Proof.
  revert j. induction l as [|y l IH]; intros j; simpl; [by destruct j|].
  destruct (last_occ l p) eqn:E; [done|]. case_decide; [done|].
  intros _. destruct j as [|j]; simpl; [congruence | by apply IH].
Qed.

Lemma last_occ_Some l p a :
  last_occ l p = Some a → l !! a = Some p ∧ ∀ b, (a < b)%nat → l !! b ≠ Some p.
Proof.
  revert a. induction l as [|x l IH]; intros a; simpl; [done|].
  destruct (last_occ l p) as [k|] eqn:Hk.
  - intros [= <-]. destruct (IH k eq_refl) as [Hat Hlast]. split; [done|].
    intros [|b] Hb; [lia|]. simpl. apply Hlast. lia.
  - case_decide as Hx; [|done]. intros [= <-]. subst x. split; [done|].
    intros [|b] Hb; [lia|]. simpl. by apply last_occ_None.
Qed.

Lemma last_occ_is_Some l p : p ∈ l → is_Some (last_occ l p).
Proof.
  induction l as [|x l IH]; [by intros ?%elem_of_nil|]. simpl.
  intros [<-|Hin]%elem_of_cons.
  - destruct (last_occ l p); [by eexists|]. rewrite decide_True by done. by eexists.
  - destruct (IH Hin) as [k ->]. by eexists.
Qed.

Lemma recency_state_ok_inv noOfRAMPages pageID k st :
  recency_state_ok noOfRAMPages pageID k st → recency_inv pageID (Z.of_nat k) st.
Proof.
  intros (Hlast & Hsub & _) p Hp.
  apply Hsub, elem_of_list_to_set in Hp.
  destruct (last_occ_is_Some _ _ Hp) as [a Ha].
  destruct (last_occ_Some _ _ _ Ha) as [Hat _].
  exists (Z.of_nat a). rewrite Hlast, Ha. split; [done|].
  pose proof (lookup_lt_Some _ _ _ Hat) as Hlt. rewrite length_take in Hlt.
  split; [lia|]. rewrite Nat2Z.id. by rewrite lookup_take_lt in Hat by lia.
Qed.

Lemma seen_size_step (pageID : list Z) (k : nat) id :
  pageID !! k = Some id →
  (size (list_to_set (take k pageID) : gset Z)
   ≤ size (list_to_set (take (S k) pageID) : gset Z)
   ≤ S (size (list_to_set (take k pageID) : gset Z)))%nat.
Proof.
  intros Hk. destruct (decide (id ∈ (list_to_set (take k pageID) : gset Z))) as [Hin|Hout].
  - rewrite (seen_hit _ _ _ Hk Hin). lia.
  - destruct (seen_fresh _ _ _ Hk Hout) as [-> _]. lia.
Qed.

Section RecencyRun.
Context (scan : gmap Z Z → list Z → Z * option Z) (better : Z → Z → Prop).
Context (Hscan : scan_spec scan better).
Context (iter : Z → gset Z → list Z) (Hiter : iter_ok iter).
Context (noOfRAMPages : Z) (Hcap : 1 <= noOfRAMPages <= INT_MAX).
Context (pageID : list Z) (Hlen : trace_ok pageID).

(** One step of the loop from a state reached after [k] references. *)
Lemma recency_step (k : nat) id st :
  pageID !! k = Some id → recency_state_ok noOfRAMPages pageID k st →
  ∃ st', recency_body scan iter noOfRAMPages pageID (Z.of_nat k) st = Ok st' ∧
         recency_state_ok noOfRAMPages pageID (S k) st' ∧
         ((id ∈ lru_cache st ∧ lru_cache st' = lru_cache st ∧
           lru_missCount st' = lru_missCount st) ∨
          ((id ∉ lru_cache st) ∧ (Z.of_nat (size (lru_cache st)) ≠ noOfRAMPages) ∧
           lru_cache st' = {[id]} ∪ lru_cache st ∧
           lru_missCount st' = lru_missCount st + 1) ∨
          ((id ∉ lru_cache st) ∧ (Z.of_nat (size (lru_cache st)) = noOfRAMPages) ∧
           lru_missCount st' = lru_missCount st + 1 ∧
           ∃ v, v ∈ lru_cache st ∧ lru_cache st' = {[id]} ∪ (lru_cache st ∖ {[v]}) ∧
                ∀ q, q ∈ lru_cache st →
                     better (last_used (lru_lastUsed st) v)
                            (last_used (lru_lastUsed st) q))).
Proof using Hscan Hiter Hcap Hlen.
  intros Hid Hok. pose proof (recency_state_ok_inv _ _ _ _ Hok) as Hinv.
  destruct Hok as (Hlast & Hsub & Hsize & Hmiss).
  assert (Hk : (k < length pageID)%nat) by (by apply lookup_lt_Some in Hid).
  unfold trace_ok in Hlen.
  pose proof (seen_size_step _ _ _ Hid) as Hseen.
  assert (Hlast' : ∀ p, <[id:=Z.of_nat k]> (lru_lastUsed st) !! p
                        = Z.of_nat <$> last_occ (take (S k) pageID) p).
  { intros p. rewrite (take_S_r _ _ _ Hid), last_occ_snoc, length_take.
    replace (k `min` length pageID)%nat with k by lia.
    case_decide as Hp; [subst; by rewrite lookup_insert_eq|].
    rewrite lookup_insert_ne by done. apply Hlast. }
  assert (Hwrap : wrap (lru_missCount st + 1) = lru_missCount st + 1).
  { apply wrap_id. unfold is_int, INT_MIN, INT_MAX in *. lia. }
  destruct st as [missCount cache lastUsed]. fields.
  unfold recency_body. rewrite (at_index_lookup _ _ _ Hid). cbn [mbind result_bind].
  case_bool_decide as Hhit; cbn [mbind result_bind].
  { eexists. split; [done|]. split; [|left; by fields].
    split; [done|]. fields. rewrite (seen_hit _ _ _ Hid) by set_solver.
    split; [done|]. split; [done|]. lia. }
  assert (Hfresh : id ∉ (list_to_set (take k pageID) : gset Z) ∨
                   id ∈ (list_to_set (take k pageID) : gset Z))
    by (destruct (decide (id ∈ (list_to_set (take k pageID) : gset Z))); auto).
  assert (Hseen' : Z.of_nat (size (list_to_set (take (S k) pageID) : gset Z))
                   <= missCount + 1) by lia.
  unfold size_is. rewrite to_size_t_id by lia. case_bool_decide as Hfull.
  - assert (Hne : iter (Z.of_nat k) cache ≠ []).
    { intros Hnil. pose proof (Hiter (Z.of_nat k) cache) as Hperm. rewrite Hnil in Hperm.
      symmetry in Hperm. apply Permutation_nil_r, elements_empty_inv in Hperm.
      apply leibniz_equiv in Hperm. rewrite Hperm, size_empty in Hfull. lia. }
    destruct (scan_victim _ _ Hscan lastUsed (iter (Z.of_nat k) cache) Hne)
      as (v & Hv & Hvin & Hbest).
    { intros p Hp. rewrite (Hiter _ cache) in Hp. apply elem_of_elements in Hp.
      apply (recency_inv_range pageID (Z.of_nat k) (mkLRU missCount cache lastUsed));
        [lia | done | done]. }
    rewrite Hv. cbn [mbind result_bind].
    rewrite (Hiter _ cache) in Hvin. apply elem_of_elements in Hvin.
    eexists. split; [reflexivity|]. fields. rewrite Hwrap. split.
    + split; [done|]. fields. split; [|split; [|lia]].
      * rewrite (seen_next _ _ _ Hid). set_solver.
      * rewrite size_union, size_singleton by set_solver.
        rewrite size_difference, size_singleton by set_solver.
        assert (size cache ≠ 0)%nat by lia. lia.
    + right. right. split; [done|]. split; [done|]. split; [done|].
      exists v. split; [done|]. split; [done|].
      intros q Hq. apply Hbest. rewrite (Hiter _ cache). by apply elem_of_elements.
  - cbn [mbind result_bind]. eexists. split; [reflexivity|]. fields. rewrite Hwrap.
    split.
    + split; [done|]. fields. split; [|split; [|lia]].
      * rewrite (seen_next _ _ _ Hid). set_solver.
      * rewrite size_union, size_singleton by set_solver. lia.
    + right. left. done.
Qed.

(** After any number [k] of references the loop has a state, and the
    state is as [recency_state_ok] says. *)
Lemma recency_run_ok (k : nat) :
  ∃ st, for_each (recency_body scan iter noOfRAMPages pageID)
                 (take k (upto (Z.of_nat (length pageID)))) LRU_init = Ok st ∧
        recency_state_ok noOfRAMPages pageID (k `min` length pageID) st.
Proof using Hscan Hiter Hcap Hlen.
  destruct (for_each_inv
    (λ j st, recency_state_ok noOfRAMPages pageID j st)
    (recency_body scan iter noOfRAMPages pageID)
    (take k (upto (Z.of_nat (length pageID)))) LRU_init) as (st & Hrun & Hok).
  - unfold recency_state_ok, LRU_init. fields. rewrite take_0.
    rewrite list_to_set_nil, size_empty.
    split; [intros p; by rewrite lookup_empty|].
    split; [done|]. simpl. lia.
  - intros j x st Hx Hok. apply lookup_take_Some in Hx as [Hx _].
    apply upto_lookup in Hx as [-> Hj].
    destruct (lookup_lt_is_Some_2 pageID j) as [id Hid]; [lia|].
    destruct (recency_step j id st Hid Hok) as (st' & Hst' & Hok' & _). eauto.
  - exists st. split; [done|].
    by rewrite length_take, upto_length, Nat2Z.id in Hok.
Qed.
End RecencyRun.

Lemma FIFO_step noOfRAMPages pageID (k : nat) id st :
  1 <= noOfRAMPages <= INT_MAX → trace_ok pageID →
  pageID !! k = Some id → FIFO_state_ok noOfRAMPages pageID k st →
  ∃ st', FIFO_body noOfRAMPages id st = Ok st' ∧
         FIFO_state_ok noOfRAMPages pageID (S k) st'.
Proof.
  intros Hcap Hlen Hid (Hinv & Hsub & Hmiss).
  destruct (FIFO_body_inv noOfRAMPages id st Hcap Hinv) as (st' & Hbody & Hinv').
  exists st'. split; [done|]. split; [done|].
  assert (Hk : (k < length pageID)%nat) by (by apply lookup_lt_Some in Hid).
  unfold trace_ok in Hlen. pose proof (seen_size_step _ _ _ Hid) as Hseen.
  destruct st as [missCount cache order]. fields. unfold FIFO_body in Hbody.
  case_bool_decide as Hhit.
  - injection Hbody as <-. fields. rewrite (seen_hit _ _ _ Hid) by set_solver.
    split; [done|]. lia.
  - apply bind_Ok_inv in Hbody as ([cache1 order1] & Hevict & Hst').
    injection Hst' as <-. fields.
    rewrite wrap_id by (unfold is_int, INT_MIN, INT_MAX in *; lia).
    assert (Hsub1 : cache1 ⊆ cache).
    { destruct (size_is cache noOfRAMPages).
      - destruct order as [|front rest]; [done|]. injection Hevict as <- <-. set_solver.
      - by injection Hevict as <- <-. }
    split; [rewrite (seen_next _ _ _ Hid); set_solver | lia].
Qed.

Lemma FIFO_run_ok noOfRAMPages pageID (k : nat) :
  1 <= noOfRAMPages <= INT_MAX → trace_ok pageID →
  ∃ st, for_each (FIFO_body noOfRAMPages) (take k pageID) FIFO_init = Ok st ∧
        FIFO_state_ok noOfRAMPages pageID (k `min` length pageID) st.
Proof.
  intros Hcap Hlen.
  destruct (for_each_inv
    (λ j st, FIFO_state_ok noOfRAMPages pageID j st)
    (FIFO_body noOfRAMPages) (take k pageID) FIFO_init) as (st & Hrun & Hok).
  - unfold FIFO_state_ok, FIFO_inv, FIFO_init. fields. rewrite take_0.
    rewrite list_to_set_nil, size_empty.
    split; [split; [done|]; split; [apply NoDup_nil_2 | lia]|].
    split; [done|]. simpl. lia.
  - intros j id st Hx Hok. apply lookup_take_Some in Hx as [Hx _].
    by apply (FIFO_step noOfRAMPages pageID j).
  - exists st. split; [done|]. by rewrite length_take in Hok.
Qed.

Section Victim.
Context (scan : gmap Z Z → list Z → Z * option Z) (better : Z → Z → Prop).
Context (Hscan : scan_spec scan better).
Context (iter : Z → gset Z → list Z) (Hiter : iter_ok iter).
Context (noOfRAMPages : Z) (Hcap : 1 <= noOfRAMPages <= INT_MAX).
Context (pageID : list Z) (Hlen : trace_ok pageID).

(** A miss with all frames taken, in a state reached after [k]
    references, evicts a resident whose last reference is extremal. *)
Lemma recency_victim (k : nat) st id :
  for_each (recency_body scan iter noOfRAMPages pageID)
           (take k (upto (size_as_int pageID))) LRU_init = Ok st →
  pageID !! k = Some id → id ∉ lru_cache st →
  Z.of_nat (size (lru_cache st)) = noOfRAMPages →
  ∃ v (a : nat) st',
    v ∈ lru_cache st ∧ last_occ (take k pageID) v = Some a ∧
    (∀ q, q ∈ lru_cache st →
          ∃ b : nat, last_occ (take k pageID) q = Some b ∧
                     better (Z.of_nat a) (Z.of_nat b)) ∧
    recency_body scan iter noOfRAMPages pageID (Z.of_nat k) st = Ok st' ∧
    lru_cache st' = {[id]} ∪ (lru_cache st ∖ {[v]}).
Proof using Hscan Hiter Hcap Hlen.
  rewrite (size_as_int_ok _ Hlen). intros Hrun Hid Hmiss Hfull.
  assert (Hk : (k < length pageID)%nat) by (by apply lookup_lt_Some in Hid).
  destruct (recency_run_ok scan better Hscan iter Hiter noOfRAMPages Hcap
              pageID Hlen k) as (st0 & Hrun0 & Hok).
  rewrite Hrun in Hrun0. injection Hrun0 as <-.
  rewrite Nat.min_l in Hok by lia.
  destruct (recency_step scan better Hscan iter Hiter noOfRAMPages Hcap
              pageID Hlen k id st Hid Hok)
    as (st' & Hbody & _ & [(Hhit & _) | [(_ & Hroom & _) | (_ & _ & _ & v & Hv & Hcache & Hbest)]]);
    [done | done |].
  destruct Hok as (Hlast & Hsub & _).
  assert (Hpos : ∀ q, q ∈ lru_cache st →
            ∃ b : nat, last_occ (take k pageID) q = Some b ∧
                       last_used (lru_lastUsed st) q = Z.of_nat b).
  { intros q Hq. apply Hsub, elem_of_list_to_set in Hq.
    destruct (last_occ_is_Some _ _ Hq) as [b Hb]. exists b. split; [done|].
    unfold last_used. by rewrite Hlast, Hb. }
  destruct (Hpos v Hv) as (a & Ha & Hua).
  exists v, a, st'. split; [done|]. split; [done|]. split; [|done].
  intros q Hq. destruct (Hpos q Hq) as (b & Hb & Hub).
  exists b. split; [done|]. rewrite <- Hua, <- Hub. by apply Hbest.
Qed.
End Victim.

(** * The parameters, the trace and the row of a process *)

(** ** createAnalyze *)

Lemma createAnalyze_arith noOfProcess RAMSize processSize pageSize :
  1 <= pageSize <= Z.min RAMSize processSize →
  RAMSize <= INT_MAX → processSize + pageSize - 1 <= INT_MAX →
  ∃ a, createAnalyze noOfProcess RAMSize processSize pageSize = Ok a ∧
  an_noOfProcess a = noOfProcess ∧ an_curOutput a = [] ∧
  (an_noOfPages a - 1) * pageSize < processSize <= an_noOfPages a * pageSize ∧
  an_noOfRAMPages a * pageSize <= RAMSize < (an_noOfRAMPages a + 1) * pageSize ∧
  1 <= an_noOfPages a <= processSize ∧ 1 <= an_noOfRAMPages a <= RAMSize.
Proof.
  intros Hps Hram Hsum. rewrite createAnalyze_sized by lia.
  eexists. split; [done|].
  cbn [an_noOfProcess an_noOfPages an_noOfRAMPages an_curOutput].
  replace (wrap (processSize + pageSize) - 1)
    with (wrap (processSize + pageSize) + -1) by lia.
  rewrite wrap_add_l, wrap_id by (unfold is_int, INT_MIN, INT_MAX in *; lia).
  rewrite !Z.quot_div_nonneg by lia.
  pose proof (Z.div_mod (processSize + pageSize + -1) pageSize ltac:(lia)) as Hp.
  pose proof (Z.mod_pos_bound (processSize + pageSize + -1) pageSize ltac:(lia)) as Hpm.
  pose proof (Z.div_mod RAMSize pageSize ltac:(lia)) as Hr.
  pose proof (Z.mod_pos_bound RAMSize pageSize ltac:(lia)) as Hrm.
  set (n := (processSize + pageSize + -1) / pageSize) in *.
  set (c := RAMSize / pageSize) in *.
  repeat split; try done; nia.
Qed.

(** ** createProcess *)

Lemma createProcess_fold_draws {RS} (rand : RS → Z * RS) noOfPages xs pageID s :
  1 <= noOfPages <= INT_MAX →
  foldl (createProcess_body rand noOfPages) (pageID, s) xs
  = (pageID ++ ((λ k, Z.rem (rand (draws rand k s)).1 noOfPages + 1)
                  <$> seq 0 (length xs)),
     draws rand (length xs) s).
Proof.
  intros Hn. revert pageID s.
  induction xs as [|x xs IH]; intros pageID s; cbn [foldl length seq fmap list_fmap draws].
  - by rewrite app_nil_r.
  - assert (Hstep : createProcess_body rand noOfPages (pageID, s) x
                    = (pageID ++ [Z.rem (rand s).1 noOfPages + 1], (rand s).2)).
    { unfold createProcess_body. destruct (rand s) as [r s']. cbn [fst snd].
      pose proof (Z.rem_bound_abs r noOfPages ltac:(lia)) as Hrem.
      by rewrite wrap_id by (unfold is_int, INT_MIN, INT_MAX in *; lia). }
    rewrite Hstep, IH, <- app_assoc. cbn [app]. f_equal. f_equal. f_equal.
    rewrite <- fmap_S_seq, <- list_fmap_compose. done.
Qed.

(** ** runProcess *)

Lemma for_each_preserves {A St} (P : St → Prop) (body : A → St → result St) xs st st' :
  P st → (∀ x s s', P s → body x s = Ok s' → P s') →
  for_each body xs st = Ok st' → P st'.
Proof.
  intros Hst Hbody. revert st Hst. induction xs as [|x xs IH]; intros st Hst Hrun.
  - by injection Hrun as <-.
  - cbn [for_each] in Hrun. apply bind_Ok_inv in Hrun as (s1 & Hs1 & Hrest).
    eapply IH; [|done]. by eapply Hbody.
Qed.

Lemma is_int_0 : is_int 0.
Proof. unfold is_int, INT_MIN, INT_MAX. lia. Qed.

(** What a policy returns is a cell: a vector with two [int]s. *)
Lemma FIFO_result_cell noOfPages noOfRAMPages pageID r :
  FIFO_processRAM noOfPages noOfRAMPages pageID = Ok r → cell_ok r.
Proof.
  unfold FIFO_processRAM. intros (st & Hrun & Hr)%bind_Ok_inv. injection Hr as <-.
  eexists _, _. split; [done|]. split; [|apply wrap_is_int].
  eapply (for_each_preserves (λ st, is_int (fifo_missCount st)) _ _ FIFO_init);
    [exact is_int_0 | | exact Hrun].
  intros id [missCount cache order] s' Hs. unfold FIFO_body.
  case_bool_decide; [by intros [= <-]|].
  intros ([c o] & _ & [= <-])%bind_Ok_inv. apply wrap_is_int.
Qed.

Lemma recency_result_cell scan iter noOfRAMPages pageID r :
  recency_processRAM scan iter noOfRAMPages pageID = Ok r → cell_ok r.
Proof.
  unfold recency_processRAM. intros (st & Hrun & Hr)%bind_Ok_inv. injection Hr as <-.
  eexists _, _. split; [done|]. split; [|apply wrap_is_int].
  eapply (for_each_preserves (λ st, is_int (lru_missCount st)) _ _ LRU_init);
    [exact is_int_0 | | exact Hrun].
  intros i [missCount cache lastUsed] s' Hs. unfold recency_body.
  intros (id & _ & Hrest)%bind_Ok_inv.
  apply bind_Ok_inv in Hrest as ([m c] & Hmc & [= <-]). fields.
  case_bool_decide; [by injection Hmc as <- <-|].
  apply bind_Ok_inv in Hmc as (c1 & _ & [= <- <-]). apply wrap_is_int.
Qed.

Lemma OPT_result_cell noOfPages noOfRAMPages pageID r :
  OPT_processRAM noOfPages noOfRAMPages pageID = Ok r → cell_ok r.
Proof.
  unfold OPT_processRAM. intros (next & _ & Hrest)%bind_Ok_inv.
  apply bind_Ok_inv in Hrest as (st & Hrun & Hr). injection Hr as <-.
  eexists _, _. split; [done|]. split; [|apply wrap_is_int].
  eapply (for_each_preserves (λ st, is_int (opt_missCount st)) _ _ OPT_init);
    [exact is_int_0 | | exact Hrun].
  intros i [missCount cache occSet] s' Hs. unfold OPT_body.
  intros (id & _ & Hrest)%bind_Ok_inv.
  case_bool_decide.
  - apply bind_Ok_inv in Hrest as (nxt & _ & [= <-]). done.
  - apply bind_Ok_inv in Hrest as ([c o] & _ & Hrest).
    apply bind_Ok_inv in Hrest as (nxt & _ & [= <-]). apply wrap_is_int.
Qed.

Lemma runProcess_body_returns p it out :
  proc_noOfPages p ≠ -1 →
  0 <= algoID it.2 < Z.of_nat (length out) → entry_returns p it →
  runProcess_body p it out
  = Ok (<[Z.to_nat (algoID it.2) := entry_result p it]> out).
Proof.
  intros Hn Hid [r Hr]. unfold runProcess_body, entry_result.
  rewrite bool_decide_eq_false_2 by done. rewrite Hr. cbn [mbind result_bind].
  unfold set_index. by rewrite bool_decide_eq_true_2 by lia.
Qed.

Lemma runProcess_fold p ms out :
  proc_noOfPages p ≠ -1 →
  Forall (λ it, 0 <= algoID it.2 < Z.of_nat (length out) ∧ entry_returns p it) ms →
  for_each (runProcess_body p) ms out
  = Ok (foldl (λ out it, <[Z.to_nat (algoID it.2) := entry_result p it]> out) out ms).
Proof.
  intros Hn. revert out. induction ms as [|it ms IH]; intros out Hall; [done|].
  apply Forall_cons in Hall as [[Hid Hret] Hall]. cbn [for_each foldl].
  rewrite runProcess_body_returns by done. cbn [mbind result_bind].
  apply IH. by rewrite length_insert.
Qed.

Lemma runProcess_fault p ms out it f :
  proc_noOfPages p ≠ -1 → it ∈ ms →
  processRAM it.2 (proc_noOfPages p) (proc_noOfRAMPages p) (proc_pageID p) = Fault f →
  ∃ f', for_each (runProcess_body p) ms out = Fault f'.
Proof.
  intros Hn Hin Hf. revert out. induction ms as [|it' ms IH]; intros out.
  { by apply elem_of_nil in Hin. }
  cbn [for_each]. destruct (runProcess_body p it' out) as [out'|f'] eqn:Hbody.
  - cbn [mbind result_bind]. apply elem_of_cons in Hin as [->|Hin]; [|by apply IH].
    unfold runProcess_body in Hbody. rewrite bool_decide_eq_false_2 in Hbody by done.
    by rewrite Hf in Hbody.
  - by exists f'.
Qed.

(** Writes at different positions can be done in any order. *)
Lemma inserts_any_order {A B} (pos : B → nat) (val : B → A) (ms ms' : list B)
    (out : list A) :
  NoDup (pos <$> ms) → ms ≡ₚ ms' →
  foldl (λ (out : list A) it, <[pos it := val it]> out) out ms
  = foldl (λ (out : list A) it, <[pos it := val it]> out) out ms'.
Proof.
  intros Hnd Hperm. revert out Hnd.
  induction Hperm as [|x l l' Hp IH|x y l|l l' l'' Hp1 IH1 Hp2 IH2]; intros out Hnd.
  - done.
  - cbn [foldl]. apply IH. rewrite fmap_cons in Hnd. by apply NoDup_cons in Hnd as [_ ?].
  - cbn [foldl]. f_equal. rewrite !fmap_cons in Hnd.
    apply NoDup_cons in Hnd as [Hy _]. apply list_insert_insert_ne.
    intros Heq. apply Hy. rewrite Heq. apply elem_of_cons. by left.
  - rewrite IH1 by done. apply IH2. by rewrite <- Hp1.
Qed.

Lemma distinct_le_pages pageID noOfPages :
  Forall (λ pid, 1 <= pid <= noOfPages) pageID →
  Z.of_nat (distinct pageID) <= Z.max 0 noOfPages.
Proof.
  intros Hall. unfold distinct.
  assert (Hsub : (list_to_set pageID : gset Z) ⊆ list_to_set (seqZ 1 noOfPages)).
  { intros x Hx. apply elem_of_list_to_set in Hx. apply elem_of_list_to_set.
    rewrite Forall_forall in Hall. specialize (Hall x Hx).
    apply elem_of_seqZ. lia. }
  apply subseteq_size in Hsub.
  rewrite (size_list_to_set (seqZ 1 noOfPages)) in Hsub by apply NoDup_seqZ.
  rewrite length_seqZ in Hsub. lia.
Qed.

Lemma runProcess_row_perm iterL iterM (mapping' : list (string * algoData)) p :
  mapping' ≡ₚ mapping iterL iterM → proc_noOfPages p ≠ -1 →
  (∀ rO rF rL rM,
     OPT_processRAM (proc_noOfPages p) (proc_noOfRAMPages p) (proc_pageID p) = Ok rO →
     FIFO_processRAM (proc_noOfPages p) (proc_noOfRAMPages p) (proc_pageID p) = Ok rF →
     LRU_processRAM iterL (proc_noOfPages p) (proc_noOfRAMPages p) (proc_pageID p) = Ok rL →
     MRU_processRAM iterM (proc_noOfPages p) (proc_noOfRAMPages p) (proc_pageID p) = Ok rM →
     runProcess mapping' p = Ok [[-1; -1]; rO; rF; rL; rM]) ∧
  (∀ it f, it ∈ mapping iterL iterM →
     processRAM it.2 (proc_noOfPages p) (proc_noOfRAMPages p) (proc_pageID p) = Fault f →
     ∃ f', runProcess mapping' p = Fault f').
Proof.
  intros Hperm Hn. split.
  - intros rO rF rL rM HO HF HL HM. unfold runProcess.
    rewrite (Permutation_length Hperm).
    rewrite runProcess_fold; [|done|].
    + rewrite (inserts_any_order (λ it, Z.to_nat (algoID it.2)) (entry_result p)
                 mapping' (mapping iterL iterM)); [|by rewrite Hperm; compute; repeat constructor; set_solver|done].
      unfold mapping, entry_result. cbn [foldl snd processRAM algoID].
      by rewrite HO, HF, HL, HM.
    + rewrite Hperm. unfold mapping, entry_returns.
      repeat constructor; cbn [snd algoID processRAM length]; try lia; eauto.
  - intros it f Hin Hf. unfold runProcess.
    eapply runProcess_fault; [done | by rewrite Hperm | done].
Qed.

(** * A sweep with a frame for every page *)

Lemma createProcess_fields {RS} (rand : RS → Z * RS) noOfPages noOfRAMPages s :
  proc_noOfPages (createProcess rand noOfPages noOfRAMPages s).1 = noOfPages ∧
  proc_noOfRAMPages (createProcess rand noOfPages noOfRAMPages s).1 = noOfRAMPages.
Proof. unfold createProcess. by destruct (foldl _ _ _). Qed.

Lemma sentinel_cell_ok : cell_ok [-1; -1].
Proof. eexists _, _. split; [done|]. unfold is_int, INT_MIN, INT_MAX. lia. Qed.

(** With a frame for every page, the row of a generated process holds the
    same cell for the four algorithms. *)
Lemma runProcess_room {RS} (rand : RS → Z * RS) iterL iterM
    noOfPages noOfRAMPages s :
  (∀ s, 0 <= (rand s).1) →
  1 <= noOfPages → 100 * noOfPages <= INT_MAX →
  noOfPages <= noOfRAMPages <= INT_MAX →
  let p := (createProcess rand noOfPages noOfRAMPages s).1 in
  runProcess (mapping iterL iterM) p
  = Ok [[-1; -1];
        [Z.of_nat (distinct (proc_pageID p)); 100 * noOfPages];
        [Z.of_nat (distinct (proc_pageID p)); 100 * noOfPages];
        [Z.of_nat (distinct (proc_pageID p)); 100 * noOfPages];
        [Z.of_nat (distinct (proc_pageID p)); 100 * noOfPages]] ∧
  Z.of_nat (distinct (proc_pageID p)) <= noOfPages.
Proof.
  intros Hrand Hn Hmax Hcap p.
  destruct (createProcess_fields rand noOfPages noOfRAMPages s) as [Hpn Hpc].
  destruct (createProcess_trace rand Hrand noOfPages noOfRAMPages s Hn Hmax)
    as [Hlen Hrange].
  fold p in Hpn, Hpc, Hlen, Hrange.
  pose proof (distinct_le_pages _ _ Hrange) as Hdist.
  assert (Hok : trace_ok (proc_pageID p)) by (unfold trace_ok; lia).
  assert (Hroom : Z.of_nat (distinct (proc_pageID p)) <= noOfRAMPages <= INT_MAX) by lia.
  split; [|lia].
  apply (runProcess_row_perm iterL iterM); [done | lia | | | |]; rewrite Hpn, Hpc.
  - rewrite <- Hlen. by apply OPT_cold.
  - rewrite FIFO_cold by done. by rewrite size_as_int_ok, Hlen.
  - rewrite <- Hlen. by apply recency_cold.
  - rewrite <- Hlen. by apply recency_cold.
Qed.

Lemma tied_row_ok row : tied row → row_ok 5 row.
Proof. intros (c0 & c & -> & H0 & Hc). split; [done|]. by repeat constructor. Qed.

Lemma tied_merge this curOutput :
  tied this → tied curOutput →
  ∃ merged, mergeOutput this curOutput = Ok merged ∧ tied merged.
Proof.
  intros Ht Hc. rewrite (mergeOutput_rows 5) by (by apply tied_row_ok).
  destruct Ht as (a0 & a & -> & _ & _), Hc as (b0 & b & -> & _ & _).
  eexists. split; [done|]. cbn [zip_with].
  exists (cell_add a0 b0), (cell_add a b). split; [done|]. split; apply cell_add_ok.
Qed.

(** The processes of one page size, each with a frame for every page:
    [runProcesses] returns and appends a row in which the four algorithms
    are tied. *)
Lemma runProcesses_room {RS} (rand : RS → Z * RS) iterL iterM
    noOfProcess noOfPages noOfRAMPages s mainOutput :
  (∀ s, 0 <= (rand s).1) → 1 <= noOfProcess →
  1 <= noOfPages → 100 * noOfPages <= INT_MAX →
  noOfPages <= noOfRAMPages <= INT_MAX →
  ∃ s' row,
    runProcesses rand (mapping iterL iterM)
                 (mkAnalyze noOfProcess noOfPages noOfRAMPages []) (s, mainOutput)
    = Ok (s', mainOutput ++ [row]) ∧ tied row.
Proof.
  intros Hrand HN Hn Hmax Hcap. unfold runProcesses.
  cbn [an_noOfProcess an_curOutput].
  destruct (for_each_inv
    (λ k (st : RS * list (list Z)),
       match k with O => st.2 = [] | S _ => tied st.2 end)
    (runProcesses_body rand (mapping iterL iterM)
       (mkAnalyze noOfProcess noOfPages noOfRAMPages []))
    (upto noOfProcess) (s, [])) as ([s' cur] & Hrun & Hcur).
  - done.
  - intros k x [s0 cur] Hx Hk. apply upto_lookup in Hx as [-> _].
    unfold runProcesses_body. cbn [an_noOfPages an_noOfRAMPages].
    pose proof (runProcess_room rand iterL iterM noOfPages noOfRAMPages s0
                  Hrand Hn Hmax Hcap) as Hrow. cbn zeta in Hrow.
    destruct (createProcess rand noOfPages noOfRAMPages s0) as [p s1].
    cbn [fst] in Hrow. destruct Hrow as [Hrow Hdist].
    rewrite Hrow. cbn [mbind result_bind].
    set (c := [Z.of_nat (distinct (proc_pageID p)); 100 * noOfPages]).
    assert (Htied : tied [[-1; -1]; c; c; c; c]).
    { exists [-1; -1], c. split; [done|]. split; [apply sentinel_cell_ok|].
      eexists _, _. split; [done|]. unfold is_int, INT_MIN, INT_MAX in *. lia. }
    destruct k as [|k]; fields.
    + subst cur. rewrite mergeOutput_first. by eexists.
    + destruct (tied_merge cur _ Hk Htied) as (merged & -> & Hm). by eexists.
  - exists s', cur. rewrite Hrun. cbn [mbind result_bind]. split; [done|].
    rewrite upto_length in Hcur. destruct (Z.to_nat noOfProcess) eqn:E; [lia | done].
Qed.

Lemma sentinel_row_tied noOfProcess :
  1 <= noOfProcess <= INT_MAX →
  tied (replicate 5 [- noOfProcess; - noOfProcess]).
Proof.
  intros HN. exists [- noOfProcess; - noOfProcess], [- noOfProcess; - noOfProcess].
  split; [done|].
  assert (cell_ok [- noOfProcess; - noOfProcess]); [|done].
  eexists _, _. split; [done|]. unfold is_int, INT_MIN, INT_MAX in *. lia.
Qed.

(** The whole sweep with a RAM of at least twice the process size. *)
Lemma sweep_room {RS} (rand : RS → Z * RS) iterL iterM
    RAMSize noOfProcess processSize s mainOutput :
  (∀ s, 0 <= (rand s).1) → 1 <= noOfProcess <= INT_MAX →
  1 <= processSize → 100 * processSize <= INT_MAX →
  2 * processSize - 1 <= RAMSize <= INT_MAX →
  ∃ s' rows,
    analyzeOnAllPageSize rand (mapping iterL iterM) RAMSize noOfProcess processSize
                         (s, mainOutput)
    = Ok (s', mainOutput ++ rows) ∧
    Z.of_nat (length rows) = processSize + 1 ∧ Forall tied rows.
Proof.
  intros Hrand HN Hps Hmax Hram. unfold analyzeOnAllPageSize.
  rewrite Z.min_r by lia.
  destruct (for_each_inv
    (λ k (st : RS * list (list (list Z))),
       ∃ rows, st.2 = mainOutput ++ rows ∧ length rows = k ∧ Forall tied rows)
    (analyzeOnAllPageSize_body rand (mapping iterL iterM)
       RAMSize noOfProcess processSize)
    (upto (processSize + 1)) (s, mainOutput))
    as ([s' out] & Hrun & rows & Hout & Hlen & Htied).
  - exists []. by rewrite app_nil_r.
  - intros k x [s0 out] Hx (rows & Hout & Hlen & Htied). fields. subst out.
    apply upto_lookup in Hx as [-> Hk].
    assert (Hrow : ∃ s1 row,
      analyzeOnAllPageSize_body rand (mapping iterL iterM)
        RAMSize noOfProcess processSize (Z.of_nat k)
        (s0, mainOutput ++ rows) = Ok (s1, (mainOutput ++ rows) ++ [row]) ∧ tied row).
    { destruct k as [|k].
      - exists s0. eexists. split.
        + change (Z.of_nat 0) with 0. rewrite analyzeOnAllPageSize_body_zero.
          apply (runProcesses_sentinel rand); [apply mapping_ids_in_range | done].
        + by apply sentinel_row_tied.
      - set (pageSize := Z.of_nat (S k)) in *.
        assert (Hrange : 1 <= pageSize <= Z.min RAMSize processSize) by lia.
        destruct (createAnalyze_arith noOfProcess RAMSize processSize pageSize
                    Hrange ltac:(lia) ltac:(lia))
          as (a & Ha & HaN & Hacur & Hpages & Hframes & Hpn & Hcn).
        unfold analyzeOnAllPageSize_body. rewrite Ha. cbn [mbind result_bind].
        destruct a as [aN an ac acur]. cbn [an_noOfProcess an_noOfPages an_noOfRAMPages
                                   an_curOutput] in *. subst aN acur.
        apply runProcesses_room; [done | lia | lia | lia |]. nia. }
    destruct Hrow as (s1 & row & -> & Hrt). eexists. split; [done|]. fields.
    exists (rows ++ [row]). rewrite app_assoc. split; [done|].
    split; [rewrite length_app; simpl; lia|].
    apply Forall_app. by split; [|constructor].
  - exists s', rows. fields. rewrite Hrun, Hout. split; [done|].
    rewrite Hlen, upto_length. split; [lia | done].
Qed.

(** * The rows of a sweep *)

(** Partial correctness of a loop from an invariant indexed by the number
    of elements already visited. *)
Lemma for_each_inv_Ok {A St} (I : nat → St → Prop) (body : A → St → result St)
    xs st st' :
  I 0%nat st →
  (∀ k x s s', xs !! k = Some x → I k s → body x s = Ok s' → I (S k) s') →
  for_each body xs st = Ok st' → I (length xs) st'.
Proof.
  revert I st. induction xs as [|x xs IH]; intros I st H0 Hstep Hrun.
  - by injection Hrun as <-.
  - cbn [for_each] in Hrun. apply bind_Ok_inv in Hrun as (s1 & Hs1 & Hrest).
    apply (IH (λ k, I (S k)) s1); [by eapply (Hstep 0%nat) | | done].
    intros k y s s' Hy Hs Hb. by apply (Hstep (S k) y s s').
Qed.

(** A row that [runProcess] returns has five cells of two [int]s. *)
Lemma runProcess_row_ok iterL iterM p row :
  runProcess (mapping iterL iterM) p = Ok row → row_ok 5 row.
Proof.
  intros Hrun. destruct (decide (proc_noOfPages p = -1)) as [Hs|Hn].
  - destruct p as [c n l]. cbn [proc_noOfPages] in Hs. subst n.
    rewrite (runProcess_sentinel _ _ _ (mapping_ids_in_range iterL iterM)) in Hrun.
    injection Hrun as <-. split; [done|]. repeat constructor; apply sentinel_cell_ok.
  - destruct (runProcess_row_perm iterL iterM (mapping iterL iterM) p
                (reflexivity _) Hn) as [Hrow Hfault].
    destruct (OPT_processRAM (proc_noOfPages p) (proc_noOfRAMPages p) (proc_pageID p))
      as [rO|f] eqn:HO.
    2:{ destruct (Hfault ("OPT"%string, mkAlgo OPT_processRAM 1) f) as [f' Hf'];
          [unfold mapping; set_solver | done | congruence]. }
    destruct (FIFO_processRAM (proc_noOfPages p) (proc_noOfRAMPages p) (proc_pageID p))
      as [rF|f] eqn:HF.
    2:{ destruct (Hfault ("FIFO"%string, mkAlgo FIFO_processRAM 2) f) as [f' Hf'];
          [unfold mapping; set_solver | done | congruence]. }
    destruct (LRU_processRAM iterL (proc_noOfPages p) (proc_noOfRAMPages p) (proc_pageID p))
      as [rL|f] eqn:HL.
    2:{ destruct (Hfault ("LRU"%string, mkAlgo (LRU_processRAM iterL) 3) f) as [f' Hf'];
          [unfold mapping; set_solver | done | congruence]. }
    destruct (MRU_processRAM iterM (proc_noOfPages p) (proc_noOfRAMPages p) (proc_pageID p))
      as [rM|f] eqn:HM.
    2:{ destruct (Hfault ("MRU"%string, mkAlgo (MRU_processRAM iterM) 4) f) as [f' Hf'];
          [unfold mapping; set_solver | done | congruence]. }
    rewrite (Hrow rO rF rL rM eq_refl eq_refl eq_refl eq_refl) in Hrun.
    injection Hrun as <-. split; [done|].
    repeat constructor.
    + apply sentinel_cell_ok.
    + by eapply OPT_result_cell.
    + by eapply FIFO_result_cell.
    + by eapply recency_result_cell.
    + by eapply recency_result_cell.
Qed.

Lemma merge_row_ok this curOutput merged :
  this = [] ∨ row_ok 5 this → row_ok 5 curOutput →
  mergeOutput this curOutput = Ok merged → row_ok 5 merged.
Proof.
  intros [->|Hthis] Hcur.
  - rewrite mergeOutput_first. by intros [= <-].
  - rewrite (mergeOutput_rows 5) by done. intros [= <-].
    destruct Hthis as [Hlt _], Hcur as [Hlc _]. split.
    + rewrite length_zip_with. lia.
    + apply Forall_forall. intros c Hc.
      apply list_elem_of_lookup_1 in Hc as [i Hi].
      apply lookup_zip_with_Some in Hi as (a & b & -> & _ & _). apply cell_add_ok.
Qed.

(** The row that [runProcesses] appends. *)
Lemma runProcesses_shape {RS} (rand : RS → Z * RS) iterL iterM
    noOfProcess noOfPages noOfRAMPages s mainOutput s' out :
  runProcesses rand (mapping iterL iterM)
               (mkAnalyze noOfProcess noOfPages noOfRAMPages []) (s, mainOutput)
  = Ok (s', out) →
  ∃ row, out = mainOutput ++ [row] ∧
         (1 <= noOfProcess → row_ok 5 row) ∧ (noOfProcess <= 0 → row = []).
Proof.
  unfold runProcesses. cbn [an_noOfProcess an_curOutput].
  intros ([s1 cur] & Hrun & Hout)%bind_Ok_inv. injection Hout as <- <-.
  exists cur. split; [done|].
  apply (for_each_inv_Ok
    (λ k (st : RS * list (list Z)),
       match k with O => st.2 = [] | S _ => row_ok 5 st.2 end)) in Hrun.
  - rewrite upto_length in Hrun. fields. split.
    + intros HN. destruct (Z.to_nat noOfProcess) eqn:E; [lia | done].
    + intros HN. by replace (Z.to_nat noOfProcess) with 0%nat in Hrun by lia.
  - done.
  - intros k x [s0 cur0] [s2 cur2] _ Hk. unfold runProcesses_body.
    destruct (createProcess rand _ _ s0) as [p s3].
    intros (row & Hrow & Hrest)%bind_Ok_inv.
    apply bind_Ok_inv in Hrest as (merged & Hmerged & [= <- <-]). fields.
    apply runProcess_row_ok in Hrow.
    eapply merge_row_ok; [|done|done]. destruct k; auto.
Qed.

(** The matrix after the sweep. *)
Lemma sweep_shape {RS} (rand : RS → Z * RS) iterL iterM
    RAMSize noOfProcess processSize s mainOutput s' out :
  analyzeOnAllPageSize rand (mapping iterL iterM) RAMSize noOfProcess processSize
                       (s, mainOutput) = Ok (s', out) →
  ∃ rows, out = mainOutput ++ rows ∧
          length rows = Z.to_nat (Z.min RAMSize processSize + 1) ∧
          (1 <= noOfProcess → Forall (row_ok 5) rows) ∧
          (noOfProcess <= 0 → Forall (λ row, row = []) rows).
Proof.
  unfold analyzeOnAllPageSize. intros Hrun.
  apply (for_each_inv_Ok
    (λ k (st : RS * list (list (list Z))),
       ∃ rows, st.2 = mainOutput ++ rows ∧ length rows = k ∧
               (1 <= noOfProcess → Forall (row_ok 5) rows) ∧
               (noOfProcess <= 0 → Forall (λ row, row = []) rows))) in Hrun.
  - destruct Hrun as (rows & Hout & Hlen & Hrows). fields.
    exists rows. rewrite upto_length in Hlen. done.
  - exists []. fields. by rewrite app_nil_r.
  - intros k x [s0 out0] [s1 out1] _ (rows & Hout & Hlen & Hpos & Hzero). fields.
    subst out0. intros (a & Ha & Hstep)%bind_Ok_inv.
    apply createAnalyze_Ok in Ha as (noOfPages & noOfRAMPages & ->).
    apply runProcesses_shape in Hstep as (row & -> & Hrpos & Hrzero).
    exists (rows ++ [row]). rewrite app_assoc. split; [done|].
    split; [rewrite length_app; simpl; lia|]. split.
    + intros HN. apply Forall_app. split; [auto | constructor; auto].
    + intros HN. apply Forall_app. split; [auto | constructor; auto].
Qed.

(** * FIFO: eviction in the order of arrival *)

(** Every resident of a run by arrival arrived at a position already
    visited, which holds this very resident. *)
Lemma arrival_run_positions frameCapacity trace k arrived missCount :
  arrival_run frameCapacity trace k arrived missCount →
  ∀ q b, arrived !! q = Some b → (b < k)%nat ∧ trace !! b = Some q.
Proof.
  induction 1 as [|k arrived missCount id _ IH Hid Hin
                   |k arrived missCount id _ IH Hid Hout Hroom
                   |k arrived missCount id victim a _ IH Hid Hout Hfull Hv Hmin];
    intros q b Hq.
  - by rewrite lookup_empty in Hq.
  - destruct (IH q b Hq). split; [lia | done].
  - destruct (decide (q = id)) as [->|Hne].
    + rewrite lookup_insert_eq in Hq. injection Hq as <-. split; [lia | done].
    + rewrite lookup_insert_ne in Hq by done. destruct (IH q b Hq). split; [lia | done].
  - destruct (decide (q = id)) as [->|Hne].
    + rewrite lookup_insert_eq in Hq. injection Hq as <-. split; [lia | done].
    + rewrite lookup_insert_ne in Hq by done.
      apply lookup_delete_Some in Hq as [_ Hq].
      destruct (IH q b Hq). split; [lia | done].
Qed.

(** No two residents arrived at the same position. *)
Lemma arrival_run_inj frameCapacity trace k arrived missCount p q a :
  arrival_run frameCapacity trace k arrived missCount →
  arrived !! p = Some a → arrived !! q = Some a → p = q.
Proof.
  intros Hrun Hp Hq.
  destruct (arrival_run_positions _ _ _ _ _ Hrun p a Hp) as [_ Hp'].
  destruct (arrival_run_positions _ _ _ _ _ Hrun q a Hq) as [_ Hq'].
  congruence.
Qed.

(** The resident that arrived earliest is determined: two runs by arrival
    over the same references leave the same residents and the same number
    of misses. *)
Lemma arrival_run_unique frameCapacity trace k arrived1 missCount1 arrived2 missCount2 :
  arrival_run frameCapacity trace k arrived1 missCount1 →
  arrival_run frameCapacity trace k arrived2 missCount2 →
  arrived1 = arrived2 ∧ missCount1 = missCount2.
Proof.
  intros Hrun1. revert arrived2 missCount2.
  induction Hrun1 as [|k arrived missCount id Hrun IH Hid Hin
                      |k arrived missCount id Hrun IH Hid Hout Hroom
                      |k arrived missCount id victim a Hrun IH Hid Hout Hfull Hv Hmin];
    intros arrived2 missCount2 Hrun2.
  - by inversion Hrun2.
  - inversion Hrun2 as [|k' arr' m' id' Hrun' Hid' Hin'
                        |k' arr' m' id' Hrun' Hid' Hout' Hroom'
                        |k' arr' m' id' v' a' Hrun' Hid' Hout' Hfull' Hv' Hmin'];
      subst; destruct (IH _ _ Hrun') as [-> ->];
      assert (id' = id) as -> by congruence.
    + done.
    + destruct Hin as [? Hin]. congruence.
    + destruct Hin as [? Hin]. congruence.
  - inversion Hrun2 as [|k' arr' m' id' Hrun' Hid' Hin'
                        |k' arr' m' id' Hrun' Hid' Hout' Hroom'
                        |k' arr' m' id' v' a' Hrun' Hid' Hout' Hfull' Hv' Hmin'];
      subst; destruct (IH _ _ Hrun') as [-> ->];
      assert (id' = id) as -> by congruence.
    + destruct Hin' as [? Hin']. congruence.
    + done.
    + done.
  - inversion Hrun2 as [|k' arr' m' id' Hrun' Hid' Hin'
                        |k' arr' m' id' Hrun' Hid' Hout' Hroom'
                        |k' arr' m' id' v' a' Hrun' Hid' Hout' Hfull' Hv' Hmin'];
      subst; destruct (IH _ _ Hrun') as [-> ->];
      assert (id' = id) as -> by congruence.
    + destruct Hin' as [? Hin']. congruence.
    + done.
    + pose proof (Hmin _ _ Hv') as Hle. pose proof (Hmin' _ _ Hv) as Hle'.
      assert (a' = a) as -> by lia.
      assert (v' = victim) as -> by (by eapply arrival_run_inj).
      done.
Qed.

(** The misses of a run by arrival are at most the references. *)
Lemma arrival_run_misses frameCapacity trace k arrived missCount :
  arrival_run frameCapacity trace k arrived missCount → 0 <= missCount <= Z.of_nat k.
Proof. induction 1; lia. Qed.

(** A position of a run by arrival is a position of the trace. *)
Lemma arrival_run_length frameCapacity trace k arrived missCount :
  arrival_run frameCapacity trace k arrived missCount → (k ≤ length trace)%nat.
Proof.
  induction 1 as [|k ? ? id _ _ Hid|k ? ? id _ _ Hid|k ? ? id ? ? _ _ Hid];
    [lia|apply lookup_lt_Some in Hid; lia..].
Qed.

(** The residents of a run by arrival are at most the references. *)
Lemma arrival_run_size frameCapacity trace k arrived missCount :
  arrival_run frameCapacity trace k arrived missCount → (size arrived ≤ k)%nat.
Proof.
  induction 1 as [|k arrived missCount id _ IH Hid Hin
                   |k arrived missCount id _ IH Hid Hout Hroom
                   |k arrived missCount id victim a _ IH Hid Hout Hfull Hv Hmin].
  - by rewrite map_size_empty.
  - lia.
  - rewrite map_size_insert_None by done. lia.
  - rewrite map_size_insert_None by (by rewrite lookup_delete_ne by congruence).
    rewrite map_size_delete_Some by done. lia.
Qed.

(** [cache.size() == noOfRAMPages] on a set that is not larger than a
    trace: the conversion to [size_t] makes no difference. *)
Lemma size_is_int (cache : gset Z) noOfRAMPages :
  is_int noOfRAMPages → Z.of_nat (size cache) <= INT_MAX →
  size_is cache noOfRAMPages = bool_decide (Z.of_nat (size cache) = noOfRAMPages).
Proof.
  intros [Hlo Hhi] Hsize. unfold size_is.
  destruct (decide (0 <= noOfRAMPages)) as [Hpos|Hneg].
  - by rewrite to_size_t_id by lia.
  - rewrite !bool_decide_eq_false_2; [done | lia |].
    unfold to_size_t, INT_MIN, INT_MAX in *.
    replace (noOfRAMPages mod 2 ^ 64) with (noOfRAMPages + 2 ^ 64); [lia|].
    apply Z.mod_unique_pos with (q := -1); lia.
Qed.

Lemma rising_elem arrived order q :
  rising arrived order → q ∈ order → is_Some (arrived !! q).
Proof.
  induction order as [|p rest IH]; [by intros _ ?%elem_of_nil|].
  intros [(a & Ha & _) Hrest] [->|Hq]%elem_of_cons; [by eexists | by apply IH].
Qed.

(** The queue after an identifier has been brought in. *)
Lemma rising_push arrived order id (k : nat) :
  rising arrived order → arrived !! id = None →
  (∀ q b, arrived !! q = Some b → (b < k)%nat) →
  rising (<[id := k]> arrived) (order ++ [id]).
Proof.
  intros Hrise Hout Hold. induction order as [|p rest IH].
  - cbn. split; [|done]. exists k. by rewrite lookup_insert_eq.
  - destruct Hrise as [(a & Ha & Hrest) Hrise]. cbn [app rising]. split; [|by apply IH].
    assert (p ≠ id) by congruence.
    exists a. rewrite lookup_insert_ne by done. split; [done|].
    apply Forall_app. split.
    + eapply Forall_impl; [exact Hrest|]. intros q (b & Hb & Hlt).
      exists b. rewrite lookup_insert_ne by congruence. done.
    + apply Forall_singleton. exists k. rewrite lookup_insert_eq.
      split; [done|]. by eapply Hold.
Qed.

(** The queue after its front has left. *)
Lemma rising_pop arrived front rest :
  rising arrived (front :: rest) → rising (delete front arrived) rest.
Proof.
  intros [(a & Ha & Hlater) Hrise].
  assert (Hnot : front ∉ rest).
  { intros Hin. eapply Forall_forall in Hlater as (b & Hb & Hlt); [|done]. 
    rewrite Ha in Hb. injection Hb as <-. lia. }
  clear Hlater. induction rest as [|p rest IH]; [done|].
  destruct Hrise as [(b & Hb & Hrest) Hrise].
  apply not_elem_of_cons in Hnot as [Hne Hnot]. split; [|by apply IH].
  exists b. rewrite lookup_delete_ne by done. split; [done|].
  apply Forall_forall. intros q Hq. eapply Forall_forall in Hrest as (c & Hc & Hlt); [|done].
  exists c. rewrite lookup_delete_ne by (intros ->; done). done.
Qed.

(** One step of FIFO's loop that does not go wrong is a step of a run by
    arrival. *)
Lemma FIFO_arrival_step noOfRAMPages pageID (k : nat) id st st' :
  is_int noOfRAMPages → trace_ok pageID →
  pageID !! k = Some id → FIFO_arrival_ok noOfRAMPages pageID k st →
  FIFO_body noOfRAMPages id st = Ok st' →
  FIFO_arrival_ok noOfRAMPages pageID (S k) st'.
Proof.
  intros Hcap Hlen Hid (arrived & Hrun & Hdom & Hcache & Hrise & Hcount).
  destruct st as [missCount cache order]. fields.
  assert (Hk : (k < length pageID)%nat) by (by apply lookup_lt_Some in Hid).
  pose proof (arrival_run_size _ _ _ _ _ Hrun) as Hsize.
  assert (Hsz : size cache = size arrived) by (by rewrite <- Hdom, size_dom).
  unfold trace_ok in Hlen.
  assert (Hwrap : wrap (missCount + 1) = missCount + 1).
  { apply wrap_id. unfold is_int, INT_MIN, INT_MAX in *. lia. }
  unfold FIFO_body. case_bool_decide as Hhit.
  { intros [= <-]. exists arrived. fields.
    split; [|split; [done|]; split; [done|]; split; [done | lia]].
    eapply arrival_hit; [done | done |]. apply elem_of_dom. by rewrite Hdom. }
  assert (Hout : arrived !! id = None).
  { apply not_elem_of_dom. by rewrite Hdom. }
  rewrite size_is_int by (done || lia). rewrite Hwrap.
  case_bool_decide as Hfull.
  - destruct order as [|front rest]; [done|]. cbn [mbind result_bind].
    intros [= <-]. destruct Hrise as [(a & Ha & Hlater) Hrise'].
    exists (<[id := k]> (delete front arrived)). fields.
    split; [|split; [|split; [|split; [|lia]]]].
    + eapply arrival_evict; [done | done | done | lia | done |].
      intros q b Hq.
      assert (Hin : q ∈ front :: rest).
      { apply (elem_of_list_to_set (C := gset Z)). rewrite <- Hcache, <- Hdom.
        apply elem_of_dom. by eexists. }
      apply elem_of_cons in Hin as [->|Hin]; [rewrite Ha in Hq; injection Hq as <-; lia|].
      eapply Forall_forall in Hlater as (c & Hc & Hlt); [|done].
      rewrite Hc in Hq. injection Hq as <-. lia.
    + rewrite dom_insert_L, dom_delete_L, Hdom. done.
    + rewrite list_to_set_snoc_L, Hcache, list_to_set_cons.
      assert (front ∉ rest).
      { intros Hin. eapply Forall_forall in Hlater as (c & Hc & Hlt); [|done].
        rewrite Ha in Hc. injection Hc as <-. lia. }
      assert (front ∉ (list_to_set rest : gset Z)) by (by rewrite elem_of_list_to_set).
      set_solver.
    + apply rising_push.
      * apply (rising_pop arrived front rest). split; [by exists a | done].
      * by rewrite lookup_delete_ne by congruence.
      * intros q b [_ Hq]%lookup_delete_Some.
        by destruct (arrival_run_positions _ _ _ _ _ Hrun q b Hq).
  - cbn [mbind result_bind]. intros [= <-].
    exists (<[id := k]> arrived). fields.
    split; [|split; [|split; [|split; [|lia]]]].
    + eapply arrival_load; [done | done | done | lia].
    + by rewrite dom_insert_L, Hdom.
    + rewrite list_to_set_snoc_L, Hcache. set_solver.
    + apply rising_push; [done | done |].
      intros q b Hq. by destruct (arrival_run_positions _ _ _ _ _ Hrun q b Hq).
Qed.

(** A run of FIFO's loop over the first [k] references that does not go
    wrong is a run by arrival. *)
Lemma FIFO_arrival_prefix noOfRAMPages pageID (k : nat) st :
  is_int noOfRAMPages → trace_ok pageID →
  for_each (FIFO_body noOfRAMPages) (take k pageID) FIFO_init = Ok st →
  FIFO_arrival_ok noOfRAMPages pageID (k `min` length pageID) st.
Proof.
  intros Hcap Hlen Hrun.
  apply (for_each_inv_Ok (FIFO_arrival_ok noOfRAMPages pageID)) in Hrun.
  - by rewrite length_take in Hrun.
  - exists ∅. unfold FIFO_init. fields.
    split; [constructor|]. split; [by rewrite dom_empty_L|]. done.
  - intros j id s s' Hx Hok Hbody. apply lookup_take_Some in Hx as [Hx _].
    by apply (FIFO_arrival_step noOfRAMPages pageID j id s).
Qed.

(** * The printed table *)

(** ** Strings *)

Lemma append_cons c (s1 s2 : string) : String c s1 +:+ s2 = String c (s1 +:+ s2).
Proof. reflexivity. Qed.

Lemma length_append (s1 s2 : string) :
  String.length (s1 +:+ s2) = (String.length s1 + String.length s2)%nat.
Proof.
  induction s1 as [|c s1 IH]; [done|].
  rewrite append_cons. cbn [String.length]. by rewrite IH.
Qed.

Lemma append_assoc (s1 s2 s3 : string) : (s1 +:+ s2) +:+ s3 = s1 +:+ (s2 +:+ s3).
Proof. induction s1 as [|c s1 IH]; [done|]. rewrite !append_cons. by rewrite IH. Qed.

Lemma append_nil_r (s : string) : s +:+ "" = s.
Proof. induction s as [|c s IH]; [done|]. rewrite append_cons. by rewrite IH. Qed.

Lemma length_fill c n :
  String.length c = 1%nat → String.length (fill c n) = n.
Proof.
  intros Hc. induction n as [|n IH]; [done|].
  cbn [fill]. rewrite length_append, IH, Hc. done.
Qed.

Lemma append_fill c n (s : string) : (s +:+ c) +:+ fill c n = s +:+ fill c (S n).
Proof. by rewrite append_assoc. Qed.

(** ** Cells of a table *)

Lemma represents_ext f g n m t :
  (∀ i j, (i < n)%nat → (j < m)%nat → f i j = g i j) →
  represents f n m t → represents g n m t.
Proof.
  intros Hfg [Hlen Hrows]. split; [done|]. intros i row Hrow.
  destruct (Hrows i row Hrow) as [Hm Hcells]. split; [done|].
  intros j Hj. rewrite <- Hfg; [by apply Hcells | | done].
  apply lookup_lt_Some in Hrow. lia.
Qed.

Lemma represents_row f n m t (i : nat) :
  represents f n m t → (i < n)%nat →
  ∃ row, t !! i = Some row ∧ length row = m ∧
         ∀ j, (j < m)%nat → row !! j = Some (f i j).
Proof.
  intros [Hlen Hrows] Hi. destruct (lookup_lt_is_Some_2 t i) as [row Hrow]; [lia|].
  exists row. split; [done|]. by apply Hrows.
Qed.

Lemma get_cell_represents f n m t (i j : nat) :
  represents f n m t → (i < n)%nat → (j < m)%nat →
  get_cell t (Z.of_nat i) (Z.of_nat j) = Ok (f i j).
Proof.
  intros Hrep Hi Hj. destruct (represents_row _ _ _ _ i Hrep Hi) as (row & Hrow & _ & Hcells).
  unfold get_cell. rewrite (at_index_lookup _ _ _ Hrow). cbn [mbind result_bind].
  apply at_index_lookup. by apply Hcells.
Qed.

Lemma set_cell_represents f n m t (i j : nat) x :
  represents f n m t → (i < n)%nat → (j < m)%nat →
  ∃ t', set_cell t (Z.of_nat i) (Z.of_nat j) x = Ok t' ∧
        represents (λ i' j', if decide (i' = i ∧ j' = j) then x else f i' j') n m t'.
Proof.
  intros Hrep Hi Hj.
  destruct (represents_row _ _ _ _ i Hrep Hi) as (row & Hrow & Hm & Hcells).
  destruct Hrep as [Hlen Hrows].
  exists (<[i := <[j := x]> row]> t). split.
  - unfold set_cell. rewrite (at_index_lookup _ _ _ Hrow). cbn [mbind result_bind].
    rewrite set_index_lookup by lia. cbn [mbind result_bind].
    apply set_index_lookup. lia.
  - split; [by rewrite length_insert|]. intros i' row' Hrow'.
    destruct (decide (i' = i)) as [->|Hne].
    + rewrite list_lookup_insert_eq in Hrow' by lia. injection Hrow' as <-.
      split; [by rewrite length_insert|]. intros j' Hj'.
      destruct (decide (j' = j)) as [->|Hnej].
      * rewrite decide_True by done. apply list_lookup_insert_eq. lia.
      * rewrite decide_False by naive_solver.
        rewrite list_lookup_insert_ne by done. by apply Hcells.
    + rewrite list_lookup_insert_ne in Hrow' by done.
      destruct (Hrows i' row' Hrow') as [Hm' Hcells']. split; [done|].
      intros j' Hj'. rewrite decide_False by naive_solver. by apply Hcells'.
Qed.

Lemma represents_blank n m :
  represents (λ _ _, ""%string) n m (replicate n (replicate m ""%string)).
Proof.
  split; [by rewrite length_replicate|]. intros i row [-> _]%lookup_replicate.
  split; [by rewrite length_replicate|]. intros j Hj. by apply lookup_replicate_2.
Qed.

(** ** The text of the cells *)

Lemma rows_from_1_lookup noOfRows (k : nat) x :
  rows_from_1 noOfRows !! k = Some x → x = Z.of_nat (S k) ∧ Z.of_nat (S k) < noOfRows.
Proof. unfold rows_from_1. rewrite lookup_seqZ. naive_solver lia. Qed.

Lemma rows_from_1_length noOfRows : length (rows_from_1 noOfRows) = Z.to_nat (noOfRows - 1).
Proof. apply length_seqZ. Qed.

(** The cells of a row of the result matrix, as [printCurrentStats] reads
    them. *)
Lemma matrix_reads (mainOutput : list (list (list Z))) (m i a : nat) row :
  mainOutput !! i = Some row → row_ok m row → (a < m)%nat →
  ∃ cell, at_index mainOutput (Z.of_nat i) = Ok row ∧
          at_index row (Z.of_nat a) = Ok cell ∧
          at_index cell TOTAL = Ok (entry (nth i mainOutput []) a 1) ∧
          at_index cell MISS = Ok (entry (nth i mainOutput []) a 0).
Proof.
  intros Hrow [Hlen Hcells] Ha.
  destruct (lookup_lt_is_Some_2 row a) as [cell Hcell]; [lia|].
  exists cell. split; [by apply at_index_lookup|]. split; [by apply at_index_lookup|].
  rewrite Forall_forall in Hcells.
  destruct (Hcells cell) as (miss & total & -> & _); [by eapply list_elem_of_lookup_2|].
  unfold entry. rewrite (nth_lookup_Some _ _ _ _ Hrow), (nth_lookup_Some _ _ _ _ Hcell).
  done.
Qed.

Section CellFacts.
Context (to_string_int : Z → string) (to_string_rate : Z → Z → string).

Lemma label_rows_represents (n m : nat) :
  (1 <= n)%nat → (1 <= m)%nat →
  ∃ t, label_rows to_string_int (Z.of_nat n) (replicate n (replicate m ""%string)) = Ok t ∧
       represents (label_cell to_string_int) n m t.
Proof using Type.
  intros Hn Hm. unfold label_rows.
  destruct (set_cell_represents _ n m _ 0 0 "Page Size"%string (represents_blank n m))
    as (t1 & Ht1 & Hrep1); [lia..|].
  change (Z.of_nat 0) with 0 in Ht1. rewrite Ht1. cbn [mbind result_bind].
  destruct (for_each_inv
    (λ k t, represents (λ i j, if decide (i <= k ∧ j = 0)%nat then label_cell to_string_int i j
                               else ""%string) n m t)
    (λ i table, set_cell table i 0 (to_string_int i)) (rows_from_1 (Z.of_nat n)) t1)
    as (t & Hrun & Hend).
  - eapply represents_ext; [|exact Hrep1]. intros i j _ _. cbn beta.
    destruct (decide (i = 0 ∧ j = 0)%nat) as [[-> ->]|Hne].
    + by rewrite decide_True by lia.
    + rewrite decide_False by lia. done.
  - intros k x t Hx Hrep. apply rows_from_1_lookup in Hx as [-> Hlt].
    destruct (set_cell_represents _ n m t (S k) 0 (to_string_int (Z.of_nat (S k))) Hrep)
      as (t' & Ht' & Hrep'); [lia..|].
    exists t'. split; [exact Ht'|].
    eapply represents_ext; [|exact Hrep']. intros i j _ _. cbn beta.
    destruct (decide (i = S k ∧ j = 0)%nat) as [[-> ->]|Hne].
    + by rewrite decide_True by lia.
    + destruct (decide (i <= k ∧ j = 0)%nat).
      * by rewrite decide_True by lia.
      * by rewrite decide_False by lia.
  - exists t. split; [done|]. rewrite rows_from_1_length in Hend.
    eapply represents_ext; [|exact Hend]. intros i j Hi Hj. cbn beta.
    destruct (decide (i <= Z.to_nat (Z.of_nat n - 1) ∧ j = 0)%nat) as [[_ ->]|Hne]; [done|].
    unfold label_cell. destruct j; [lia | done].
Qed.

Lemma column_body_represents (mainOutput : list (list (list Z))) (m a : nat)
    (it : string * algoData) f t :
  let n := length mainOutput in
  (∀ i row, mainOutput !! i = Some row → (1 <= i)%nat → row_ok m row) →
  algoID it.2 = Z.of_nat a → (1 <= a < m)%nat → it.1 = column_name a →
  (1 <= n)%nat →
  represents f n m t →
  ∃ t', column_body to_string_rate (Z.of_nat n) mainOutput it t = Ok t' ∧
        represents (λ i j, if decide (j = a) then stats_cell to_string_int to_string_rate mainOutput i j else f i j)
                   n m t'.
Proof.
  intros n Hrows Hid Ha Hname Hn Hrep. unfold column_body. rewrite Hid, Hname.
  destruct (set_cell_represents _ n m t 0 a (column_name a +:+ "(Hit Rate)") Hrep)
    as (t1 & Ht1 & Hrep1); [lia..|].
  change (Z.of_nat 0) with 0 in Ht1. rewrite Ht1. cbn [mbind result_bind].
  destruct (for_each_inv
    (λ k t, represents (λ i j, if decide (i <= k ∧ j = a)%nat
                               then stats_cell to_string_int to_string_rate mainOutput i j else f i j) n m t)
    (rate_body to_string_rate mainOutput it) (rows_from_1 (Z.of_nat n)) t1)
    as (t' & Hrun & Hend).
  - eapply represents_ext; [|exact Hrep1]. intros i j _ _. cbn beta.
    destruct (decide (i = 0 ∧ j = a)%nat) as [[-> ->]|Hne].
    + rewrite decide_True by lia. unfold stats_cell. destruct a; [lia | done].
    + by rewrite decide_False by lia.
  - intros k x t2 Hx Hrep2. apply rows_from_1_lookup in Hx as [-> Hlt].
    destruct (lookup_lt_is_Some_2 mainOutput (S k)) as [row Hrow]; [fold n; lia|].
    destruct (matrix_reads mainOutput m (S k) a row Hrow) as (cell & H1 & H2 & H3 & H4);
      [apply (Hrows (S k)); [done | lia] | lia |].
    unfold rate_body. rewrite Hid, H1. cbn [mbind result_bind].
    rewrite H2. cbn [mbind result_bind]. rewrite H3, H4. cbn [mbind result_bind].
    destruct (set_cell_represents _ n m t2 (S k) a
                (to_string_rate (wrap (entry (nth (S k) mainOutput []) a 1
                                       - entry (nth (S k) mainOutput []) a 0))
                                (entry (nth (S k) mainOutput []) a 1)) Hrep2)
      as (t3 & Ht3 & Hrep3); [lia..|].
    exists t3. split; [exact Ht3|].
    eapply represents_ext; [|exact Hrep3]. intros i j _ _. cbn beta.
    destruct (decide (i = S k ∧ j = a)%nat) as [[-> ->]|Hne].
    + rewrite decide_True by lia. unfold stats_cell, rate_cell. destruct a; [lia | done].
    + destruct (decide (i <= k ∧ j = a)%nat).
      * by rewrite decide_True by lia.
      * by rewrite decide_False by lia.
  - exists t'. split; [done|]. rewrite rows_from_1_length in Hend.
    eapply represents_ext; [|exact Hend]. intros i j Hi Hj. cbn beta.
    destruct (decide (j = a)) as [->|Hne].
    + by rewrite decide_True by lia.
    + by rewrite decide_False by lia.
Qed.

End CellFacts.

(** ** Loops of a run that may still be running *)

Lemma for_run_inv {A St} (I : nat → St → Prop) (body : A → St → run St) xs st :
  I 0%nat st →
  (∀ k x s, xs !! k = Some x → I k s → ∃ s', body x s = Returns s' ∧ I (S k) s') →
  ∃ s', for_run body xs st = Returns s' ∧ I (length xs) s'.
Proof.
  revert I st. induction xs as [|x xs IH]; intros I st H0 Hstep.
  - by exists st.
  - destruct (Hstep 0%nat x st eq_refl H0) as (s1 & Hb & H1).
    destruct (IH (λ k, I (S k)) s1 H1) as (s' & Hrun & Hend).
    { intros k y s Hy Hs. by apply (Hstep (S k)). }
    exists s'. simpl. by rewrite Hb.
Qed.

(** ** Padding the columns *)

Lemma max_list_with_snoc {A} (f : A → nat) l x :
  max_list_with f (l ++ [x]) = (max_list_with f l `max` f x)%nat.
Proof. induction l as [|y l IH]; simpl; [lia|]. rewrite IH. lia. Qed.

Lemma max_list_with_ge {A} (f : A → nat) l x :
  x ∈ l → (f x <= max_list_with f l)%nat.
Proof. induction 1; simpl; lia. Qed.

Lemma width_ext f g n j :
  (∀ i, (i < n)%nat → f i j = g i j) → width f n j = width g n j.
Proof.
  intros Hfg. unfold width.
  assert (Hall : Forall (λ i, (i < n)%nat) (seq 0 n)).
  { apply Forall_forall. intros i Hi%elem_of_seq. lia. }
  induction Hall as [|i l Hi _ IH]; [done|]. simpl. by rewrite IH, Hfg.
Qed.

Lemma width_ge f n i j : (i < n)%nat → (String.length (f i j) <= width f n j)%nat.
Proof.
  intros Hi. unfold width.
  apply (max_list_with_ge (λ i, String.length (f i j))), elem_of_seq. lia.
Qed.

Lemma width_reached f n j :
  (1 <= n)%nat → ∃ i, (i < n)%nat ∧ width f n j = String.length (f i j).
Proof.
  unfold width. induction n as [|n IH]; [lia|]. intros _.
  rewrite seq_S, max_list_with_snoc. cbn [Nat.add].
  destruct (decide (n = 0)%nat) as [->|Hn].
  - exists 0%nat. split; [lia|]. simpl. lia.
  - destruct IH as (i & Hi & Hw); [lia|].
    destruct (Nat.max_spec (max_list_with (λ i, String.length (f i j)) (seq 0 n))
                           (String.length (f n j))) as [[_ ->]|[_ ->]].
    + exists n. split; [lia | done].
    + exists i. split; [lia | done].
Qed.

Lemma length_padded f n i j :
  (i < n)%nat → String.length (padded f n i j) = width f n j.
Proof.
  intros Hi. unfold padded. rewrite length_append, length_fill by done.
  pose proof (width_ge f n i j Hi). lia.
Qed.

Lemma string_size_as_int_ok (s : string) :
  Z.of_nat (String.length s) <= INT_MAX →
  string_size_as_int s = Z.of_nat (String.length s).
Proof.
  intros. unfold string_size_as_int. apply wrap_id. unfold is_int, INT_MIN. lia.
Qed.

Lemma widest_represents f n m t (j : nat) :
  represents f n m t → (j < m)%nat →
  (∀ i, (i < n)%nat → Z.of_nat (String.length (f i j)) <= INT_MAX) →
  widest (Z.of_nat n) t (Z.of_nat j) = Ok (Z.of_nat (width f n j)).
Proof.
  intros Hrep Hj Hshort. unfold widest.
  destruct (for_each_inv
    (λ k mxLen, mxLen = Z.of_nat (max_list_with (λ i, String.length (f i j)) (seq 0 k)))
    (λ i mxLen, cell ← get_cell t i (Z.of_nat j);
                Ok (Z.max mxLen (string_size_as_int cell)))
    (upto (Z.of_nat n)) 0) as (mx & Hrun & Hend).
  - done.
  - intros k x mxLen Hx ->. apply upto_lookup in Hx as [-> Hk].
    rewrite (get_cell_represents f n m) by (done || lia). cbn [mbind result_bind].
    eexists. split; [done|].
    rewrite seq_S, max_list_with_snoc. cbn [Nat.add].
    rewrite string_size_as_int_ok by (apply Hshort; lia). lia.
  - rewrite Hrun. rewrite upto_length, Nat2Z.id in Hend. by rewrite Hend.
Qed.

Lemma pad_reaches (k fuel : nat) (cell : string) :
  (k <= fuel)%nat → Z.of_nat (String.length cell + k) <= INT_MAX →
  pad fuel (Z.of_nat (String.length cell + k)) cell = Returns (cell +:+ fill " " k).
Proof.
  revert fuel cell. induction k as [|k IH]; intros fuel cell Hfuel Hshort.
  - rewrite Nat.add_0_r. cbn [fill]. rewrite append_nil_r.
    destruct fuel; cbn [pad]; rewrite string_size_as_int_ok by lia;
      by rewrite bool_decide_eq_true_2.
  - destruct fuel as [|fuel]; [lia|]. cbn [pad].
    rewrite string_size_as_int_ok by lia.
    rewrite bool_decide_eq_false_2 by lia.
    specialize (IH fuel (cell +:+ " ") ltac:(lia)).
    rewrite length_append in IH. cbn [String.length] in IH.
    replace (String.length cell + 1 + k)%nat with (String.length cell + S k)%nat in IH by lia.
    rewrite IH by lia. by rewrite append_fill.
Qed.

Lemma align_body_represents f g n m t (j fuel : nat) :
  represents g n m t → (j < m)%nat →
  (∀ i, (i < n)%nat → g i j = f i j) →
  (∀ i, (i < n)%nat → Z.of_nat (String.length (f i j)) <= INT_MAX) →
  (width f n j <= fuel)%nat →
  ∃ t', align_body fuel (Z.of_nat n) (Z.of_nat j) t = Returns t' ∧
        represents (λ i j', if decide (j' = j) then padded f n i j' else g i j') n m t'.
Proof.
  intros Hrep Hj Hcol Hshort Hfuel. unfold align_body.
  rewrite (widest_represents g n m t j Hrep Hj).
  2:{ intros i Hi. rewrite Hcol by done. by apply Hshort. }
  cbn [lift mbind run_bind]. rewrite (width_ext g f n j Hcol).
  destruct (for_run_inv
    (λ k t, represents (λ i j', if decide (i < k ∧ j' = j)%nat then padded f n i j'
                                else g i j') n m t)
    (pad_body fuel (Z.of_nat j) (Z.of_nat (width f n j))) (upto (Z.of_nat n)) t)
    as (t' & Hrun & Hend).
  - eapply represents_ext; [|exact Hrep]. intros i j' _ _. cbn beta.
    by rewrite decide_False by lia.
  - intros k x t1 Hx Hrep1. apply upto_lookup in Hx as [-> Hk].
    unfold pad_body. rewrite (get_cell_represents _ n m t1 k j Hrep1) by lia.
    cbn [lift mbind run_bind]. rewrite decide_False by lia. rewrite Hcol by lia.
    pose proof (width_ge f n k j ltac:(lia)) as Hge.
    assert (Hpad : pad fuel (Z.of_nat (width f n j)) (f k j) = Returns (padded f n k j)).
    { unfold padded.
      rewrite <- (pad_reaches (width f n j - String.length (f k j)) fuel (f k j)).
      - do 2 f_equal. lia.
      - lia.
      - destruct (width_reached f n j) as (i0 & Hi0 & Hw0); [lia|].
        specialize (Hshort i0 Hi0). lia. }
    rewrite Hpad. cbn [mbind run_bind]. unfold padded.
    destruct (set_cell_represents _ n m t1 k j
                (f k j +:+ fill " " (width f n j - String.length (f k j))) Hrep1)
      as (t2 & Ht2 & Hrep2); [lia..|].
    rewrite Ht2. cbn [lift]. exists t2. split; [done|].
    eapply represents_ext; [|exact Hrep2]. intros i j' _ _. cbn beta.
    destruct (decide (i = k ∧ j' = j)%nat) as [[-> ->]|Hne].
    + by rewrite decide_True by lia.
    + destruct (decide (i < k ∧ j' = j)%nat).
      * by rewrite decide_True by lia.
      * by rewrite decide_False by lia.
  - exists t'. split; [done|]. rewrite upto_length, Nat2Z.id in Hend.
    eapply represents_ext; [|exact Hend]. intros i j' Hi _. cbn beta.
    destruct (decide (j' = j)) as [->|Hne].
    + by rewrite decide_True by lia.
    + by rewrite decide_False by lia.
Qed.

Lemma align_represents f n m t (fuel : nat) :
  represents f n m t →
  (∀ i j, (i < n)%nat → (j < m)%nat → Z.of_nat (String.length (f i j)) <= INT_MAX) →
  (∀ j, (j < m)%nat → width f n j <= fuel)%nat →
  ∃ t', for_run (align_body fuel (Z.of_nat n)) (upto (Z.of_nat m)) t = Returns t' ∧
        represents (padded f n) n m t'.
Proof.
  intros Hrep Hshort Hfuel.
  destruct (for_run_inv
    (λ k t, represents (λ i j, if decide (j < k)%nat then padded f n i j else f i j) n m t)
    (align_body fuel (Z.of_nat n)) (upto (Z.of_nat m)) t) as (t' & Hrun & Hend).
  - done.
  - intros k x t1 Hx Hrep1. apply upto_lookup in Hx as [-> Hk].
    destruct (align_body_represents f _ n m t1 k fuel Hrep1) as (t2 & Ht2 & Hrep2).
    + lia.
    + intros i _. cbn beta. by rewrite decide_False by lia.
    + intros i Hi. apply Hshort; lia.
    + apply Hfuel. lia.
    + exists t2. split; [done|].
      eapply represents_ext; [|exact Hrep2]. intros i j _ _. cbn beta.
      destruct (decide (j = k)) as [->|Hne].
      * by rewrite decide_True by lia.
      * destruct (decide (j < k)%nat).
        -- by rewrite decide_True by lia.
        -- by rewrite decide_False by lia.
  - exists t'. split; [done|]. rewrite upto_length, Nat2Z.id in Hend.
    eapply represents_ext; [|exact Hend]. intros i j _ Hj. cbn beta.
    by rewrite decide_True by lia.
Qed.

(** ** The lines and the borders *)

Lemma append_at_lookup (rowString : list string) (k : nat) line s :
  rowString !! k = Some line →
  append_at rowString (Z.of_nat k) s = Ok (<[k := line +:+ s]> rowString).
Proof.
  intros Hk. unfold append_at. rewrite (at_index_lookup _ _ _ Hk).
  cbn [mbind result_bind]. apply set_index_lookup. by eapply lookup_lt_Some.
Qed.

Lemma append_at_middle (A R : list string) (k : nat) cur s :
  length A = k → Z.of_nat k + 1 <= INT_MAX →
  append_at (""%string :: A ++ cur :: R) (wrap (Z.of_nat k + 1)) s
  = Ok (""%string :: A ++ (cur +:+ s) :: R).
Proof.
  intros HA Hk. rewrite wrap_id by (unfold is_int, INT_MIN; lia).
  replace (Z.of_nat k + 1) with (Z.of_nat (S k)) by lia.
  rewrite (append_at_lookup _ (S k) cur).
  - change (<[S k := (cur +:+ s)%string]> (""%string :: A ++ cur :: R))
      with (""%string :: <[k := (cur +:+ s)%string]> (A ++ cur :: R)).
    rewrite insert_app_r_alt by lia. by replace (k - length A)%nat with 0%nat by lia.
  - change ((""%string :: A ++ cur :: R) !! S k) with ((A ++ cur :: R) !! k).
    subst k. by rewrite list_lookup_middle.
Qed.

Lemma line_body_builds g n m t (A R : list string) (k : nat) :
  represents g n m t → (k < n)%nat → length A = k → Z.of_nat k + 1 <= INT_MAX →
  line_body (Z.of_nat m) t (Z.of_nat k) (""%string :: A ++ ""%string :: R)
  = Ok (""%string :: A ++ render_row g m k :: R).
Proof.
  intros Hrep Hk HA Hint. unfold line_body.
  rewrite append_at_middle by done. cbn [mbind result_bind].
  destruct (for_each_inv
    (λ j rs, rs = ""%string :: A ++
                  foldl (λ line j, line +:+ (g k j +:+ " | ")) "| "%string (seq 0 j) :: R)
    (λ j rowString, cell ← get_cell t (Z.of_nat k) j;
                    append_at rowString (wrap (Z.of_nat k + 1)) (cell +:+ " | "))
    (upto (Z.of_nat m)) (""%string :: A ++ ("" +:+ "| ")%string :: R))
    as (rs & Hrun & Hend).
  - done.
  - intros j x rs1 Hx ->. apply upto_lookup in Hx as [-> Hj].
    rewrite (get_cell_represents g n m) by (done || lia). cbn [mbind result_bind].
    rewrite append_at_middle by done. eexists. split; [done|].
    by rewrite seq_S, foldl_app.
  - rewrite Hrun. rewrite upto_length, Nat2Z.id in Hend. by rewrite Hend.
Qed.

Lemma lines_built g n m t :
  represents g n m t → Z.of_nat n + 2 <= INT_MAX →
  for_each (line_body (Z.of_nat m) t) (upto (Z.of_nat n)) (replicate (n + 2) ""%string)
  = Ok (""%string :: (render_row g m <$> seq 0 n) ++ [""%string]).
Proof.
  intros Hrep Hint.
  destruct (for_each_inv
    (λ k rs, rs = ""%string :: (render_row g m <$> seq 0 k)
                   ++ replicate (n - k + 1) ""%string)
    (line_body (Z.of_nat m) t) (upto (Z.of_nat n)) (replicate (n + 2) ""%string))
    as (rs & Hrun & Hend).
  - replace (n + 2)%nat with (S (n - 0 + 1)) by lia. done.
  - intros k x rs1 Hx ->. apply upto_lookup in Hx as [-> Hk].
    replace (n - k + 1)%nat with (S (n - S k + 1)) by lia. cbn [replicate].
    rewrite (line_body_builds g n m t) by (done || lia || (by rewrite length_fmap, length_seq)).
    eexists. split; [done|].
    rewrite seq_S, fmap_app. cbn [fmap list_fmap Nat.add]. by rewrite <- app_assoc.
  - rewrite Hrun. rewrite upto_length, Nat2Z.id in Hend. rewrite Hend.
    by replace (n - n + 1)%nat with 1%nat by lia.
Qed.

Lemma borders_step fuel noOfRows (top first : string) (rest : list string) :
  borders fuel noOfRows (top :: first :: rest)
  = if bool_decide (String.length top = String.length first)
    then Returns (top :: first :: rest)
    else match fuel with
         | O => StillRunning
         | S fuel =>
             rowString ← lift (set_index (top :: first :: rest) 0 (top +:+ "-"));
             bottom ← lift (at_index rowString (wrap (noOfRows + 1)));
             rowString ← lift (set_index rowString (wrap (noOfRows + 1)) (bottom +:+ "-"));
             borders fuel noOfRows rowString
         end.
Proof. destruct fuel; reflexivity. Qed.

Lemma borders_reach (k fuel n : nat) (top bottom first : string) (rest : list string) :
  (k <= fuel)%nat → S (length rest) = n → Z.of_nat n + 1 <= INT_MAX →
  (String.length top + k)%nat = String.length first →
  borders fuel (Z.of_nat n) (top :: (first :: rest) ++ [bottom])
  = Returns ((top +:+ fill "-" k) :: (first :: rest) ++ [bottom +:+ fill "-" k]).
Proof.
  revert fuel top bottom. induction k as [|k IH]; intros fuel top bottom Hfuel Hn Hint Hlen.
  - cbn [fill]. rewrite !append_nil_r.
    change (top :: (first :: rest) ++ [bottom]) with (top :: first :: (rest ++ [bottom])).
    rewrite borders_step. by rewrite bool_decide_eq_true_2 by lia.
  - destruct fuel as [|fuel]; [lia|].
    change (top :: (first :: rest) ++ [bottom]) with (top :: first :: (rest ++ [bottom])).
    rewrite borders_step. rewrite bool_decide_eq_false_2 by lia.
    change (set_index (top :: first :: rest ++ [bottom]) 0 (top +:+ "-"))
      with (Ok ((top +:+ "-")%string :: first :: rest ++ [bottom])).
    cbn [lift mbind run_bind].
    rewrite wrap_id by (unfold is_int, INT_MIN; lia).
    replace (Z.of_nat n + 1) with (Z.of_nat (S n)) by lia.
    rewrite (at_index_lookup _ (S n) bottom).
    2:{ change (((top +:+ "-")%string :: first :: rest ++ [bottom]) !! S n)
          with (((first :: rest) ++ [bottom]) !! n).
        rewrite <- Hn. by rewrite (list_lookup_middle (first :: rest) [] bottom). }
    cbn [lift mbind run_bind].
    rewrite set_index_lookup.
    2:{ cbn [length]. rewrite length_app. cbn [length]. lia. }
    cbn [lift mbind run_bind].
    change (<[S n := (bottom +:+ "-")%string]> ((top +:+ "-")%string :: first :: rest ++ [bottom]))
      with ((top +:+ "-")%string :: <[n := (bottom +:+ "-")%string]> ((first :: rest) ++ [bottom])).
    rewrite insert_app_r_alt by (cbn [length]; lia).
    replace (n - length (first :: rest))%nat with 0%nat by (cbn [length]; lia).
    change (<[0%nat := (bottom +:+ "-")%string]> [bottom]) with [(bottom +:+ "-")%string].
    rewrite (IH fuel (top +:+ "-")%string (bottom +:+ "-")%string); [| lia | done | done |].
    + by rewrite !append_fill.
    + rewrite length_append. cbn [String.length]. lia.
Qed.

Lemma length_render_row g m i :
  String.length (render_row g m i)
  = (2 + sum_list_with (λ j, String.length (g i j) + 3) (seq 0 m))%nat.
Proof.
  unfold render_row. induction m as [|m IH]; [done|].
  rewrite seq_S, foldl_app, sum_list_with_app. cbn [foldl sum_list_with Nat.add].
  rewrite !length_append, IH. cbn [String.length]. lia.
Qed.

Lemma sum_list_with_ge {A} (f : A → nat) l x : x ∈ l → (f x <= sum_list_with f l)%nat.
Proof. induction 1; simpl; lia. Qed.

Lemma sum_list_with_ext {A} (f g : A → nat) l :
  (∀ x, x ∈ l → f x = g x) → sum_list_with f l = sum_list_with g l.
Proof.
  induction l as [|x l IH]; intros Hfg; [done|]. simpl.
  rewrite (Hfg x) by (apply elem_of_cons; by left).
  rewrite IH; [done|]. intros y Hy. apply Hfg, elem_of_cons. by right.
Qed.

(** Every line of a table has the same length. *)
Lemma length_table_row f n m i :
  (i < n)%nat →
  String.length (render_row (padded f n) m i)
  = (2 + sum_list_with (λ j, width f n j + 3) (seq 0 m))%nat.
Proof.
  intros Hi. rewrite length_render_row. f_equal.
  apply sum_list_with_ext. intros j _. by rewrite length_padded.
Qed.

Lemma width_le_row f n m j :
  (1 <= n)%nat → (j < m)%nat →
  (width f n j <= String.length (render_row (padded f n) m 0))%nat.
Proof.
  intros Hn Hj. rewrite length_table_row by lia.
  pose proof (sum_list_with_ge (λ j, width f n j + 3)%nat (seq 0 m) j) as Hge.
  cbn beta in Hge. rewrite elem_of_seq in Hge. lia.
Qed.

(** ** The whole table *)

Lemma fmap_seq_first {A} (g : nat → A) (n : nat) :
  (1 <= n)%nat → g <$> seq 0 n = g 0%nat :: (g <$> seq 1 (n - 1)).
Proof. destruct n as [|n]; [lia|]. intros _. simpl. by rewrite Nat.sub_0_r. Qed.

Section Table.
Context (to_string_int : Z → string) (to_string_rate : Z → Z → string).

Lemma columns_represent (mainOutput : list (list (list Z))) (m : nat)
    (ms : list (string * algoData)) t :
  let n := length mainOutput in
  (∀ i row, mainOutput !! i = Some row → (1 <= i)%nat → row_ok m row) →
  Forall (λ it, ∃ a : nat, algoID it.2 = Z.of_nat a ∧ (1 <= a < m)%nat ∧
                           it.1 = column_name a) ms →
  (1 <= n)%nat →
  represents (label_cell to_string_int) n m t →
  ∃ t', for_each (column_body to_string_rate (Z.of_nat n) mainOutput) ms t = Ok t' ∧
        represents (λ i j, if decide (Z.of_nat j ∈ (λ it, algoID it.2) <$> ms)
                           then stats_cell to_string_int to_string_rate mainOutput i j
                           else label_cell to_string_int i j) n m t'.
Proof.
  intros n Hrows Hms Hn Hrep.
  destruct (for_each_inv
    (λ k t, represents (λ i j, if decide (Z.of_nat j ∈ (λ it, algoID it.2) <$> take k ms)
                               then stats_cell to_string_int to_string_rate mainOutput i j
                               else label_cell to_string_int i j) n m t)
    (column_body to_string_rate (Z.of_nat n) mainOutput) ms t) as (t' & Hrun & Hend).
  - eapply represents_ext; [|exact Hrep]. intros i j _ _. cbn beta.
    rewrite take_0. cbn [fmap list_fmap]. rewrite decide_False; [done | set_solver].
  - intros k it t1 Hit Hrep1.
    rewrite Forall_forall in Hms.
    destruct (Hms it) as (a & Hid & Ha & Hname); [by eapply list_elem_of_lookup_2|].
    destruct (column_body_represents to_string_int to_string_rate mainOutput m a it _ t1
                Hrows Hid Ha Hname Hn Hrep1) as (t2 & Ht2 & Hrep2).
    exists t2. split; [done|].
    eapply represents_ext; [|exact Hrep2]. intros i j _ _. cbn beta.
    rewrite (take_S_r ms k it Hit), fmap_app. cbn [fmap list_fmap]. rewrite Hid.
    destruct (decide (j = a)) as [->|Hne].
    + rewrite decide_True; [done | set_solver].
    + destruct (decide (Z.of_nat j ∈ (λ it, algoID it.2) <$> take k ms)) as [Hin|Hnin].
      * rewrite decide_True; [done | set_solver].
      * rewrite decide_False; [done|]. rewrite elem_of_app, list_elem_of_singleton.
        intros [?|?]; [done | lia].
  - exists t'. split; [done|]. by rewrite firstn_all in Hend.
Qed.

Lemma mapping_columns iterL iterM (ms : list (string * algoData)) :
  ms ≡ₚ mapping iterL iterM →
  length ms = 4%nat ∧
  Forall (λ it, ∃ a : nat, algoID it.2 = Z.of_nat a ∧ (1 <= a < 5)%nat ∧
                           it.1 = column_name a) ms ∧
  ∀ j, (1 <= j < 5)%nat → Z.of_nat j ∈ (λ it, algoID it.2) <$> ms.
Proof.
  intros Hperm. split; [by rewrite Hperm|]. split.
  - rewrite Hperm. unfold mapping.
    apply Forall_cons. split; [exists 1%nat; cbn [fst snd algoID]; split; [done | split; [lia | done]]|].
    apply Forall_cons. split; [exists 2%nat; cbn [fst snd algoID]; split; [done | split; [lia | done]]|].
    apply Forall_cons. split; [exists 3%nat; cbn [fst snd algoID]; split; [done | split; [lia | done]]|].
    apply Forall_cons. split; [exists 4%nat; cbn [fst snd algoID]; split; [done | split; [lia | done]]|].
    apply Forall_nil_2.
  - intros j Hj. rewrite Hperm. unfold mapping. cbn [fmap list_fmap snd algoID].
    assert (j = 1 ∨ j = 2 ∨ j = 3 ∨ j = 4)%nat as [-> | [-> | [-> | ->]]] by lia; set_solver.
Qed.

(** The lines that [printCurrentStats] writes for a result matrix whose
    rows, from row 1 on, hold a cell of two statistics for every
    algorithm. *)
Lemma printCurrentStats_lines iterL iterM (ms : list (string * algoData))
    (mainOutput : list (list (list Z))) (fuel : nat) :
  let n := length mainOutput in
  let f := stats_cell to_string_int to_string_rate mainOutput in
  ms ≡ₚ mapping iterL iterM →
  (1 <= n)%nat → Z.of_nat n + 2 <= INT_MAX →
  (∀ i row, mainOutput !! i = Some row → (1 <= i)%nat → row_ok 5 row) →
  (∀ i j, (i < n)%nat → (j < 5)%nat → Z.of_nat (String.length (f i j)) <= INT_MAX) →
  (String.length (render_row (padded f n) 5 0) <= fuel)%nat →
  printCurrentStats to_string_int to_string_rate ms fuel mainOutput
  = Returns ("Results:"%string :: table_lines f n 5).
Proof.
  intros n f Hperm Hn Hint Hrows Hshort Hfuel.
  destruct (mapping_columns iterL iterM ms Hperm) as (Hlen & Hms & Hids).
  unfold printCurrentStats. rewrite Hlen.
  change (wrap (Z.of_nat 4 + 1)) with 5.
  assert (Hsize : size_as_int mainOutput = Z.of_nat n).
  { unfold size_as_int. fold n. apply wrap_id. unfold is_int, INT_MIN. lia. }
  rewrite Hsize. rewrite bool_decide_eq_false_2 by lia.
  rewrite bool_decide_eq_false_2 by lia. rewrite Nat2Z.id.
  change (Z.to_nat 5) with 5%nat.
  destruct (label_rows_represents to_string_int n 5) as (t1 & Ht1 & Hrep1); [lia..|].
  rewrite Ht1. cbn [lift mbind run_bind].
  destruct (columns_represent mainOutput 5 ms t1 Hrows Hms Hn Hrep1) as (t2 & Ht2 & Hrep2).
  fold n in Ht2. rewrite Ht2. cbn [lift mbind run_bind].
  assert (Hrep2' : represents f n 5 t2).
  { eapply represents_ext; [|exact Hrep2]. intros i j _ Hj. cbn beta.
    destruct (decide (Z.of_nat j ∈ (λ it, algoID it.2) <$> ms)) as [|Hnin]; [done|].
    destruct j as [|j]; [by destruct i|]. destruct Hnin. apply Hids. lia. }
  destruct (align_represents f n 5 t2 fuel Hrep2' Hshort) as (t3 & Ht3 & Hrep3).
  { intros j Hj. etrans; [apply (width_le_row f n 5 j); lia | done]. }
  change (Z.of_nat 5) with 5 in Ht3. rewrite Ht3. cbn [mbind run_bind].
  rewrite wrap_id by (unfold is_int, INT_MIN; lia).
  rewrite bool_decide_eq_false_2 by lia.
  replace (Z.to_nat (Z.of_nat n + 2)) with (n + 2)%nat by lia.
  pose proof (lines_built (padded f n) n 5 t3 Hrep3 Hint) as Hlines.
  change (Z.of_nat 5) with 5 in Hlines. rewrite Hlines. cbn [lift mbind run_bind].
  unfold table_lines. rewrite (fmap_seq_first (render_row (padded f n) 5) n Hn).
  rewrite (borders_reach (String.length (render_row (padded f n) 5 0)) fuel n).
  - done.
  - done.
  - rewrite length_fmap, length_seq. lia.
  - lia.
  - done.
Qed.
End Table.

Lemma for_each_ext {A St} (body body' : A → St → result St) xs st :
  (∀ x s, x ∈ xs → body x s = body' x s) →
  for_each body xs st = for_each body' xs st.
Proof.
  revert st. induction xs as [|x xs IH]; intros st Hext; [done|].
  cbn [for_each]. rewrite (Hext x st) by (apply elem_of_cons; by left).
  destruct (body' x st) as [s1|f]; cbn [mbind result_bind]; [|done].
  apply IH. intros y s Hy. apply Hext, elem_of_cons. by right.
Qed.

Lemma at_index_tail {A} (x y : A) (v : list A) i :
  1 <= i → at_index (x :: v) i = at_index (y :: v) i.
Proof.
  intros Hi. unfold at_index. rewrite !bool_decide_eq_true_2 by lia.
  replace (Z.to_nat i) with (S (Z.to_nat (i - 1))) by lia. done.
Qed.

Lemma at_index_nil {A} (i : Z) : at_index (@nil A) i = Fault (OutOfRange i).
Proof. unfold at_index. case_bool_decide; [by rewrite lookup_nil | done]. Qed.

Section PrintFacts.
Context (to_string_int : Z → string) (to_string_rate : Z → Z → string).

(** On an empty matrix the first statement that writes the table,
    [table[0][0] = ..], is outside it. *)
Lemma printCurrentStats_nil (ms : list (string * algoData)) fuel :
  Z.of_nat (length ms) < INT_MAX →
  printCurrentStats to_string_int to_string_rate ms fuel [] = GoesWrong (OutOfRange 0).
Proof.
  intros Hms. unfold printCurrentStats.
  change (size_as_int []) with 0.
  rewrite wrap_id by (unfold is_int, INT_MIN, INT_MAX in *; lia).
  rewrite bool_decide_eq_false_2 by lia. rewrite bool_decide_eq_false_2 by lia.
  done.
Qed.

Lemma rate_body_no_cell (mainOutput : list (list (list Z))) (it : string * algoData)
    (i : nat) t :
  mainOutput !! i = Some [] →
  rate_body to_string_rate mainOutput it (Z.of_nat i) t
  = Fault (OutOfRange (algoID it.2)).
Proof.
  intros Hrow. unfold rate_body.
  rewrite (at_index_lookup mainOutput i [] Hrow). cbn [mbind result_bind].
  by rewrite at_index_nil.
Qed.

(** When row 1 of the matrix has no cell, the rate of the first algorithm
    of the table is read outside it. *)
Lemma printCurrentStats_no_cell iterL iterM (it : string * algoData)
    (ms : list (string * algoData)) fuel (mainOutput : list (list (list Z))) :
  it :: ms ≡ₚ mapping iterL iterM →
  Z.of_nat (length mainOutput) <= INT_MAX → mainOutput !! 1%nat = Some [] →
  1 <= algoID it.2 <= 4 ∧
  printCurrentStats to_string_int to_string_rate (it :: ms) fuel mainOutput
  = GoesWrong (OutOfRange (algoID it.2)).
Proof.
  intros Hperm Hint Hrow1.
  destruct (mapping_columns iterL iterM (it :: ms) Hperm) as (Hlen & Hms & _).
  apply Forall_cons in Hms as [(a & Hid & Ha & _) _].
  rewrite Hid. split; [lia|].
  set (n := length mainOutput).
  assert (Hn : (2 <= n)%nat) by (apply lookup_lt_Some in Hrow1; unfold n; lia).
  unfold printCurrentStats. rewrite Hlen. change (wrap (Z.of_nat 4 + 1)) with 5.
  assert (Hsize : size_as_int mainOutput = Z.of_nat n).
  { unfold size_as_int. fold n. apply wrap_id. unfold is_int, INT_MIN. lia. }
  rewrite Hsize. rewrite bool_decide_eq_false_2 by lia.
  rewrite bool_decide_eq_false_2 by lia. rewrite Nat2Z.id.
  change (Z.to_nat 5) with 5%nat.
  destruct (label_rows_represents to_string_int n 5) as (t1 & Ht1 & Hrep1); [lia..|].
  rewrite Ht1. cbn [lift mbind run_bind for_each result_bind].
  assert (Hcol : column_body to_string_rate (Z.of_nat n) mainOutput it t1
                 = Fault (OutOfRange (Z.of_nat a))).
  { unfold column_body. rewrite Hid.
    destruct (set_cell_represents _ n 5 t1 0 a (it.1 +:+ "(Hit Rate)") Hrep1)
      as (t2 & Ht2 & _); [lia..|].
    change (Z.of_nat 0) with 0 in Ht2. rewrite Ht2. cbn [mbind result_bind].
    unfold rows_from_1. rewrite seqZ_cons by lia. cbn [for_each].
    pose proof (rate_body_no_cell mainOutput it 1 t2 Hrow1) as Hread.
    change (Z.of_nat 1) with 1 in Hread. rewrite Hread. by rewrite Hid. }
  by rewrite Hcol.
Qed.
End PrintFacts.

(** * The order in which the table of algorithms is traversed *)

(** Whether [runProcess] returns, and the row it returns, is the same for
    two traversal orders. *)
Lemma runProcess_perm iterL iterM (ms ms' : list (string * algoData)) p row :
  ms ≡ₚ mapping iterL iterM → ms' ≡ₚ mapping iterL iterM →
  runProcess ms p = Ok row → runProcess ms' p = Ok row.
Proof.
  intros Hms Hms' Hrun. destruct (decide (proc_noOfPages p = -1)) as [Hs|Hn].
  - destruct p as [c n l]. cbn [proc_noOfPages] in Hs. subst n.
    assert (Hids : ∀ l, l ≡ₚ mapping iterL iterM → ids_in_range l).
    { intros l0 Hl. apply Forall_forall. intros it Hit. rewrite Hl in Hit.
      pose proof (mapping_ids_in_range iterL iterM) as Hids.
      unfold ids_in_range in Hids. rewrite Forall_forall in Hids.
      rewrite (Permutation_length Hl). by apply Hids. }
    rewrite runProcess_sentinel in Hrun by auto.
    rewrite runProcess_sentinel by auto.
    by rewrite Hms' , <- Hms.
  - destruct (runProcess_row_perm iterL iterM ms p Hms Hn) as [Hrow Hfault].
    destruct (runProcess_row_perm iterL iterM ms' p Hms' Hn) as [Hrow' _].
    destruct (OPT_processRAM (proc_noOfPages p) (proc_noOfRAMPages p) (proc_pageID p))
      as [rO|f] eqn:HO.
    2:{ destruct (Hfault ("OPT"%string, mkAlgo OPT_processRAM 1) f) as [f' Hf'];
          [unfold mapping; set_solver | done | congruence]. }
    destruct (FIFO_processRAM (proc_noOfPages p) (proc_noOfRAMPages p) (proc_pageID p))
      as [rF|f] eqn:HF.
    2:{ destruct (Hfault ("FIFO"%string, mkAlgo FIFO_processRAM 2) f) as [f' Hf'];
          [unfold mapping; set_solver | done | congruence]. }
    destruct (LRU_processRAM iterL (proc_noOfPages p) (proc_noOfRAMPages p) (proc_pageID p))
      as [rL|f] eqn:HL.
    2:{ destruct (Hfault ("LRU"%string, mkAlgo (LRU_processRAM iterL) 3) f) as [f' Hf'];
          [unfold mapping; set_solver | done | congruence]. }
    destruct (MRU_processRAM iterM (proc_noOfPages p) (proc_noOfRAMPages p) (proc_pageID p))
      as [rM|f] eqn:HM.
    2:{ destruct (Hfault ("MRU"%string, mkAlgo (MRU_processRAM iterM) 4) f) as [f' Hf'];
          [unfold mapping; set_solver | done | congruence]. }
    rewrite (Hrow rO rF rL rM eq_refl eq_refl eq_refl eq_refl) in Hrun.
    by rewrite (Hrow' rO rF rL rM eq_refl eq_refl eq_refl eq_refl).
Qed.

Lemma sweep_perm {RS} (rand : RS → Z * RS) iterL iterM
    (ms ms' : list (string * algoData)) RAMSize noOfProcess processSize st st' :
  ms ≡ₚ mapping iterL iterM → ms' ≡ₚ mapping iterL iterM →
  analyzeOnAllPageSize rand ms RAMSize noOfProcess processSize st = Ok st' →
  analyzeOnAllPageSize rand ms' RAMSize noOfProcess processSize st = Ok st'.
Proof.
  intros Hms Hms'. unfold analyzeOnAllPageSize. apply for_each_Ok_mono.
  intros pageSize [s out] [s1 out1]. unfold analyzeOnAllPageSize_body.
  intros (a0 & -> & Hstep)%bind_Ok_inv. cbn [mbind result_bind].
  revert Hstep. unfold runProcesses.
  intros ([s2 cur] & Hrun & Hout)%bind_Ok_inv.
  assert (Hbody : ∀ a i s s',
    runProcesses_body rand ms a i s = Ok s' → runProcesses_body rand ms' a i s = Ok s').
  { intros a i [s3 cur3] [s4 cur4]. unfold runProcesses_body.
    destruct (createProcess rand _ _ s3) as [p s5].
    intros (row & Hrow & Hrest)%bind_Ok_inv.
    by rewrite (runProcess_perm iterL iterM ms ms' p row Hms Hms' Hrow). }
  by rewrite (for_each_Ok_mono _ _ _ _ _ (Hbody _) Hrun).
Qed.

(** * A sweep without processes *)

Lemma sweep_no_process {RS} (rand : RS → Z * RS) (ms : list (string * algoData))
    RAMSize noOfProcess processSize s mainOutput :
  noOfProcess <= 0 →
  analyzeOnAllPageSize rand ms RAMSize noOfProcess processSize (s, mainOutput)
  = Ok (s, mainOutput ++ replicate (Z.to_nat (Z.min RAMSize processSize + 1)) []).
Proof.
  intros HN. unfold analyzeOnAllPageSize.
  destruct (for_each_inv
    (λ k (st : RS * list (list (list Z))), st = (s, mainOutput ++ replicate k []))
    (analyzeOnAllPageSize_body rand ms RAMSize noOfProcess processSize)
    (upto (Z.min RAMSize processSize + 1)) (s, mainOutput)) as (st & Hrun & Hend).
  - cbn [replicate]. by rewrite app_nil_r.
  - intros k x st Hx ->. apply upto_lookup in Hx as [-> _].
    destruct (createAnalyze_returns noOfProcess RAMSize processSize (Z.of_nat k))
      as (noOfPages & noOfRAMPages & Ha); [lia|].
    unfold analyzeOnAllPageSize_body. rewrite Ha. cbn [mbind result_bind].
    rewrite runProcesses_no_process by done. eexists. split; [done|].
    rewrite <- app_assoc. do 2 f_equal.
    change [[]] with (replicate 1 (@nil (list Z))). rewrite <- replicate_add.
    f_equal. lia.
  - rewrite Hrun, Hend. by rewrite upto_length.
Qed.

Lemma sweep_negative_size {RS} (rand : RS → Z * RS) (ms : list (string * algoData))
    RAMSize noOfProcess processSize st :
  Z.min RAMSize processSize < 0 →
  analyzeOnAllPageSize rand ms RAMSize noOfProcess processSize st = Ok st.
Proof. intros Hmin. unfold analyzeOnAllPageSize. by rewrite upto_nonpos by lia. Qed.

(** * Stand-ins for [to_string] *)

Lemma length_show_digits fuel n acc :
  (String.length (show_digits fuel n acc) <= fuel + String.length acc)%nat.
Proof.
  revert n acc. induction fuel as [|fuel IH]; intros n acc; [done|].
  cbn [show_digits]. case_bool_decide.
  - cbn [String.length]. lia.
  - etrans; [apply IH|]. cbn [String.length]. lia.
Qed.

Lemma length_show_int z : (String.length (show_int z) <= 11)%nat.
Proof.
  unfold show_int. case_bool_decide.
  - rewrite length_append. pose proof (length_show_digits 10 (- z) ""). cbn in *. lia.
  - pose proof (length_show_digits 10 z ""). cbn in *. lia.
Qed.

Lemma length_show_rate d total : (String.length (show_rate d total) <= 23)%nat.
Proof.
  unfold show_rate. rewrite !length_append.
  pose proof (length_show_int d). pose proof (length_show_int total). cbn. lia.
Qed.

(** * The whole program *)

Lemma entry_is_int (row : list (list Z)) (m j k : nat) :
  row_ok m row → (j < m)%nat → (k < 2)%nat → is_int (entry row j k).
Proof.
  intros [Hlen Hcells] Hj Hk.
  destruct (lookup_lt_is_Some_2 row j) as [cell Hcell]; [lia|].
  rewrite Forall_forall in Hcells.
  destruct (Hcells cell) as (miss & total & -> & Hm & Ht); [by eapply list_elem_of_lookup_2|].
  unfold entry. rewrite (nth_lookup_Some _ _ _ _ Hcell).
  destruct k as [|[|k]]; [done | done | lia].
Qed.

Lemma column_name_short j : (String.length (column_name j +:+ "(Hit Rate)") <= 14)%nat.
Proof. do 5 (destruct j as [|j]; [vm_compute; lia|]). vm_compute. lia. Qed.

Lemma stats_cell_short to_string_int to_string_rate
    (mainOutput : list (list (list Z))) (i j : nat) :
  short_strings to_string_int to_string_rate →
  Z.of_nat (length mainOutput) <= INT_MAX →
  (∀ i row, mainOutput !! i = Some row → (1 <= i)%nat → row_ok 5 row) →
  (i < length mainOutput)%nat → (j < 5)%nat →
  Z.of_nat (String.length (stats_cell to_string_int to_string_rate mainOutput i j))
  <= INT_MAX.
Proof.
  intros [Hint Hrate] Hlen Hrows Hi Hj. unfold stats_cell.
  destruct j as [|j], i as [|i].
  - vm_compute. discriminate.
  - apply Hint. unfold is_int, INT_MIN. lia.
  - pose proof (column_name_short (S j)). unfold INT_MAX. lia.
  - unfold rate_cell.
    destruct (lookup_lt_is_Some_2 mainOutput (S i)) as [row Hrow]; [lia|].
    rewrite (nth_lookup_Some _ _ _ _ Hrow).
    assert (Hok : row_ok 5 row) by (apply (Hrows (S i)); [done | lia]).
    apply Hrate; [apply wrap_is_int|]. apply (entry_is_int row 5); [done | lia | lia].
Qed.

(** The lines of a table are as many as its rows and two borders, and
    all of one length. *)
Lemma table_lines_aligned f n m :
  (1 <= n)%nat →
  length (table_lines f n m) = (n + 2)%nat ∧
  ∀ line, line ∈ table_lines f n m →
    String.length line = (2 + sum_list_with (λ j, width f n j + 3) (seq 0 m))%nat.
Proof.
  intros Hn. unfold table_lines. split.
  - cbn [length]. rewrite length_app, length_fmap, length_seq. cbn [length]. lia.
  - intros line Hline.
    assert (Hborder : String.length
              (fill "-" (String.length (render_row (padded f n) m 0)))
            = (2 + sum_list_with (λ j, width f n j + 3) (seq 0 m))%nat).
    { rewrite length_fill by done. apply length_table_row. lia. }
    apply elem_of_cons in Hline as [->|Hline]; [done|].
    apply elem_of_app in Hline as [Hline|Hline].
    + apply list_elem_of_fmap in Hline as (i & -> & Hi%elem_of_seq).
      apply length_table_row. lia.
    + apply list_elem_of_singleton in Hline as ->. done.
Qed.

Section MainFacts.
Context {RS : Type} (rand : RS → Z * RS).
Context (to_string_int : Z → string) (to_string_rate : Z → Z → string).
Context (iterL iterM : Z → gset Z → list Z).

(** When the sweep returns for at least one process, [main] prints the
    table of its matrix. *)
Lemma main_prints (ms : list (string * algoData))
    (noOfProcess RAMSize processSize : Z) s s' out (fuel : nat) :
  let n := Z.to_nat (Z.min RAMSize processSize + 1) in
  let f := stats_cell to_string_int to_string_rate out in
  ms ≡ₚ mapping iterL iterM →
  short_strings to_string_int to_string_rate →
  1 <= noOfProcess → 0 <= Z.min RAMSize processSize → Z.min RAMSize processSize + 3 <= INT_MAX →
  analyzeOnAllPageSize rand ms RAMSize noOfProcess processSize (s, []) = Ok (s', out) →
  (String.length (render_row (padded f n) 5 0) <= fuel)%nat →
  length out = n ∧
  main to_string_int to_string_rate ms rand fuel noOfProcess RAMSize processSize s
  = Returns ("Results:"%string :: table_lines f n 5).
Proof.
  intros n f Hms Hshort HN Hmin Hmax Hsweep Hfuel.
  pose proof (sweep_perm rand iterL iterM ms (mapping iterL iterM) _ _ _ _ _
                Hms (reflexivity _) Hsweep) as Hcanon.
  apply sweep_shape in Hcanon as (rows & Hout & Hlen & Hrows & _).
  cbn [app] in Hout. subst rows. fold n in Hlen.
  specialize (Hrows HN). rewrite Forall_forall in Hrows.
  assert (Hrow : ∀ i row, out !! i = Some row → (1 <= i)%nat → row_ok 5 row).
  { intros i row Hi _. apply Hrows. by eapply list_elem_of_lookup_2. }
  split; [done|]. unfold main. rewrite Hsweep. cbn [lift mbind run_bind snd].
  rewrite <- Hlen in Hfuel |- *.
  apply (printCurrentStats_lines to_string_int to_string_rate iterL iterM);
    [done | lia | lia | done | | done].
  intros i j Hi Hj. apply stats_cell_short; [done | lia | done | done | done].
Qed.

(** The rates of a row in which the algorithms are tied. *)
Lemma tied_rates (out : list (list (list Z))) (i j : nat) row :
  out !! i = Some row → tied row → (1 <= j <= 4)%nat →
  rate_cell to_string_rate out i j = rate_cell to_string_rate out i 1.
Proof.
  intros Hrow (c0 & c & -> & _) Hj. unfold rate_cell.
  rewrite (nth_lookup_Some _ _ _ _ Hrow). unfold entry.
  assert (j = 1 ∨ j = 2 ∨ j = 3 ∨ j = 4)%nat as [-> | [-> | [-> | ->]]] by lia; done.
Qed.

End MainFacts.

(** * A process that does not fit *)

(** With at least one frame FIFO, LRU and MRU return, with a miss count
    between the number of distinct identifiers and the length of the trace. *)
Lemma counts_bounded iterL iterM noOfPages noOfRAMPages pageID :
  iter_ok iterL → iter_ok iterM →
  1 <= noOfRAMPages <= INT_MAX → trace_ok pageID →
  (∃ m, FIFO_processRAM noOfPages noOfRAMPages pageID
          = Ok [m; Z.of_nat (length pageID)] ∧
        Z.of_nat (distinct pageID) <= m <= Z.of_nat (length pageID)) ∧
  (∃ m, LRU_processRAM iterL noOfPages noOfRAMPages pageID
          = Ok [m; Z.of_nat (length pageID)] ∧
        Z.of_nat (distinct pageID) <= m <= Z.of_nat (length pageID)) ∧
  (∃ m, MRU_processRAM iterM noOfPages noOfRAMPages pageID
          = Ok [m; Z.of_nat (length pageID)] ∧
        Z.of_nat (distinct pageID) <= m <= Z.of_nat (length pageID)).
Proof.
  intros HiterL HiterM Hcap Hlen. split; [|split].
  - destruct (FIFO_run_ok noOfRAMPages pageID (length pageID) Hcap Hlen)
      as (st & Hrun & _ & _ & Hmiss).
    rewrite firstn_all in Hrun. rewrite Nat.min_id, firstn_all in Hmiss.
    exists (fifo_missCount st). unfold FIFO_processRAM.
    rewrite Hrun, (size_as_int_ok _ Hlen). done.
  - destruct (recency_run_ok _ _ LRU_scan_spec iterL HiterL noOfRAMPages Hcap
                pageID Hlen (length pageID)) as (st & Hrun & _ & _ & _ & Hmiss).
    rewrite take_ge in Hrun by (rewrite upto_length; lia).
    rewrite Nat.min_id, firstn_all in Hmiss.
    exists (lru_missCount st). unfold LRU_processRAM, recency_processRAM.
    rewrite (size_as_int_ok _ Hlen), Hrun. done.
  - destruct (recency_run_ok _ _ MRU_scan_spec iterM HiterM noOfRAMPages Hcap
                pageID Hlen (length pageID)) as (st & Hrun & _ & _ & _ & Hmiss).
    rewrite take_ge in Hrun by (rewrite upto_length; lia).
    rewrite Nat.min_id, firstn_all in Hmiss.
    exists (lru_missCount st). unfold MRU_processRAM, recency_processRAM.
    rewrite (size_as_int_ok _ Hlen), Hrun. done.
Qed.

(** A traversal of the table in which one algorithm stops the run and the
    others return. *)
Lemma runProcess_one_fault p (ms : list (string * algoData)) out f0 :
  proc_noOfPages p ≠ -1 →
  Forall (λ it, 0 <= algoID it.2 < Z.of_nat (length out) ∧
                (entry_returns p it ∨
                 processRAM it.2 (proc_noOfPages p) (proc_noOfRAMPages p) (proc_pageID p)
                 = Fault f0)) ms →
  Exists (λ it, processRAM it.2 (proc_noOfPages p) (proc_noOfRAMPages p) (proc_pageID p)
                = Fault f0) ms →
  for_each (runProcess_body p) ms out = Fault f0.
Proof.
  intros Hn. revert out. induction ms as [|it ms IH]; intros out Hall Hex.
  { by apply Exists_nil in Hex. }
  apply Forall_cons in Hall as [[Hid [Hret|Hf]] Hall]; cbn [for_each].
  - rewrite runProcess_body_returns by done. cbn [mbind result_bind].
    apply IH; [by rewrite length_insert|].
    apply Exists_cons in Hex as [Hf|Hex]; [|done].
    destruct Hret as [r Hr]. congruence.
  - unfold runProcess_body. rewrite bool_decide_eq_false_2 by done. by rewrite Hf.
Qed.

Lemma runProcess_OPT_fault iterL iterM (ms : list (string * algoData)) p :
  ms ≡ₚ mapping iterL iterM → iter_ok iterL → iter_ok iterM →
  proc_noOfPages p ≠ -1 → trace_ok (proc_pageID p) →
  1 <= proc_noOfRAMPages p <= INT_MAX →
  proc_noOfRAMPages p < Z.of_nat (distinct (proc_pageID p)) →
  runProcess ms p = Fault (OutOfRange (Z.of_nat (length (proc_pageID p)))).
Proof.
  intros Hms HiterL HiterM Hn Hlen Hcap Hmany. unfold runProcess.
  destruct (counts_bounded iterL iterM (proc_noOfPages p) (proc_noOfRAMPages p)
              (proc_pageID p) HiterL HiterM Hcap Hlen)
    as ((mF & HF & _) & (mL & HL & _) & (mM & HM & _)).
  pose proof (OPT_faults_when_evicting (proc_noOfPages p) _ _ Hlen Hcap Hmany) as HO.
  apply runProcess_one_fault; [done | |].
  - rewrite length_replicate, (Permutation_length Hms). rewrite Hms. unfold mapping.
    cbn [length].
    apply Forall_cons. split; [cbn [snd algoID processRAM]; split; [lia | by right]|].
    apply Forall_cons. split; [cbn [snd algoID processRAM]; split; [lia | left; by eexists]|].
    apply Forall_cons. split; [cbn [snd algoID processRAM]; split; [lia | left; by eexists]|].
    apply Forall_cons. split; [cbn [snd algoID processRAM]; split; [lia | left; by eexists]|].
    apply Forall_nil_2.
  - rewrite Hms. unfold mapping. apply Exists_cons_hd. exact HO.
Qed.

Lemma short_show : short_strings show_int show_rate.
Proof.
  split.
  - intros z _. pose proof (length_show_int z). unfold INT_MAX. lia.
  - intros d total _ _. pose proof (length_show_rate d total). unfold INT_MAX. lia.
Qed.

(** * The row of a page size *)

(** ** Accumulators and rows of any length *)

Lemma zip_with_take_r {A B C} (f : A → B → C) (l : list A) (l' : list B) (k : nat) :
  (length l <= k)%nat → zip_with f l (take k l') = zip_with f l l'.
Proof.
  revert l' k. induction l as [|x l IH]; intros l' k Hk; [done|].
  destruct l' as [|y l'], k as [|k]; cbn [length] in *; try done; try lia.
  cbn [take zip_with]. f_equal. apply IH. lia.
Qed.

Lemma zip_with_take_l {A B C} (f : A → B → C) (l : list A) (l' : list B) (k : nat) :
  (length l' <= k)%nat → zip_with f (take k l) l' = zip_with f l l'.
Proof.
  revert l k. induction l' as [|y l' IH]; intros l k Hk.
  - by destruct (take k l), l.
  - destruct l as [|x l]; [by rewrite take_nil|].
    destruct k as [|k]; cbn [length] in Hk; [lia|].
    cbn [take zip_with]. f_equal. apply IH. lia.
Qed.

Lemma mergeOutput_lengths this curOutput :
  Forall cell_ok this → Forall cell_ok curOutput →
  mergeOutput this curOutput
  = Ok (zip_with cell_add this curOutput
        ++ drop (length curOutput) this ++ drop (length this) curOutput).
Proof.
  intros Hct Hcc. unfold mergeOutput.
  set (lt := length this). set (lc := length curOutput).
  destruct (for_each_inv
    (λ k s, s = zip_with cell_add (take k this) (take k curOutput) ++ drop k this
                ++ take (k - lt) (drop lt curOutput))
    (mergeOutput_body curOutput) (upto (Z.of_nat lc)) this)
    as (s & Hrun & Hs).
  - rewrite take_0. cbn [zip_with app]. by rewrite drop_0, take_0, app_nil_r.
  - intros k x s Hx ->. apply upto_lookup in Hx as [-> Hk].
    destruct (lookup_lt_is_Some_2 curOutput k) as [theirs Htheirs]; [fold lc; lia|].
    pose proof (Forall_lookup_1 _ _ _ _ Hcc Htheirs) as Hokt.
    destruct (decide (k < lt)%nat) as [Hlt|Hge].
    + destruct (lookup_lt_is_Some_2 this k) as [mine Hmine]; [fold lt; lia|].
      pose proof (Forall_lookup_1 _ _ _ _ Hct Hmine) as Hokm.
      replace (k - lt)%nat with 0%nat by lia.
      replace (S k - lt)%nat with 0%nat by lia.
      rewrite !take_0, !app_nil_r.
      set (done_ := zip_with cell_add (take k this) (take k curOutput)).
      assert (Hdone : length done_ = k).
      { unfold done_. rewrite length_zip_with, !length_take. fold lt lc. lia. }
      unfold mergeOutput_body.
      rewrite bool_decide_eq_true_2
        by (rewrite length_app, Hdone, length_drop; fold lt; lia).
      assert (Hat : (done_ ++ drop k this) !! k = Some mine).
      { rewrite lookup_app_r by lia. rewrite Hdone, Nat.sub_diag, lookup_drop.
        by rewrite Nat.add_0_r. }
      rewrite (at_index_lookup _ _ _ Hat), (at_index_lookup _ _ _ Htheirs).
      cbn [mbind result_bind].
      pose proof (merge_cell mine theirs Hokm Hokt) as Hcell.
      destruct (at_index theirs TOTAL) as [t|]; [|done]. cbn [mbind result_bind] in *.
      destruct (add_at mine TOTAL t) as [mine1|]; [|done]. cbn [mbind result_bind] in *.
      destruct (at_index theirs MISS) as [ms|]; [|done]. cbn [mbind result_bind] in *.
      rewrite Hcell. cbn [mbind result_bind].
      rewrite set_index_lookup by (rewrite length_app, Hdone, length_drop; fold lt; lia).
      eexists. split; [reflexivity|].
      rewrite (take_S_r _ _ _ Hmine), (take_S_r _ _ _ Htheirs).
      rewrite zip_with_app by (rewrite !length_take; fold lt lc; lia).
      fold done_. cbn [zip_with]. rewrite <- app_assoc. cbn [app].
      rewrite <- (Nat.add_0_r k) at 1. rewrite <- Hdone at 1.
      rewrite insert_app_r. f_equal.
      rewrite (drop_S _ _ _ Hmine). done.
    + rewrite !(take_ge this) by (fold lt; lia).
      rewrite !(drop_ge this) by (fold lt; lia). cbn [app].
      rewrite !zip_with_take_r by (fold lt; lia).
      unfold mergeOutput_body.
      rewrite bool_decide_eq_false_2.
      2:{ rewrite length_app, length_zip_with, length_take, length_drop. fold lt lc. lia. }
      rewrite (at_index_lookup _ _ _ Htheirs). eexists. split; [reflexivity|].
      rewrite <- app_assoc. f_equal.
      replace (S k - lt)%nat with (S (k - lt)) by lia.
      symmetry. apply take_S_r. rewrite lookup_drop.
      by replace (lt + (k - lt))%nat with k by lia.
  - rewrite Hrun. f_equal. rewrite upto_length, Nat2Z.id in Hs. rewrite Hs.
    rewrite (take_ge curOutput) by (fold lc; lia).
    rewrite zip_with_take_l by (fold lc; lia).
    rewrite (take_ge (drop lt curOutput)) by (rewrite length_drop; fold lc; lia).
    done.
Qed.

(** ** The processes of one page size *)

Lemma processes_step {RS} (rand : RS → Z * RS) noOfPages noOfRAMPages (k : nat) s :
  processes rand noOfPages noOfRAMPages (S k) s
  = ((createProcess rand noOfPages noOfRAMPages s).1
       :: (processes rand noOfPages noOfRAMPages k
             (createProcess rand noOfPages noOfRAMPages s).2).1,
     (processes rand noOfPages noOfRAMPages k
        (createProcess rand noOfPages noOfRAMPages s).2).2).
Proof.
  cbn [processes]. destruct (createProcess rand noOfPages noOfRAMPages s) as [p s1].
  cbn [fst snd]. by destruct (processes rand noOfPages noOfRAMPages k s1).
Qed.

(** The rows that [runProcesses] accumulates are the rows of the generated
    processes, merged one after the other. *)
Lemma runProcesses_rows {RS} (rand : RS → Z * RS) (ms : list (string * algoData))
    a (xs : list Z) s cur s' cur' :
  for_each (runProcesses_body rand ms a) xs (s, cur) = Ok (s', cur') →
  ∃ rows,
    Forall2 (λ p row, runProcess ms p = Ok row)
            (processes rand (an_noOfPages a) (an_noOfRAMPages a) (length xs) s).1 rows ∧
    s' = (processes rand (an_noOfPages a) (an_noOfRAMPages a) (length xs) s).2 ∧
    merge_all rows cur = Ok cur'.
Proof.
  revert s cur. induction xs as [|x xs IH]; intros s cur Hrun.
  - injection Hrun as <- <-. exists []. by repeat split; [constructor|..].
  - cbn [for_each] in Hrun.
    apply bind_Ok_inv in Hrun as ([s1 cur1] & Hbody & Hrest).
    unfold runProcesses_body in Hbody.
    cbn [length]. rewrite processes_step.
    destruct (createProcess rand _ _ s) as [curProcess s0]. cbn [fst snd].
    apply bind_Ok_inv in Hbody as (row & Hrow & Hbody).
    apply bind_Ok_inv in Hbody as (merged & Hmerged & Hbody).
    injection Hbody as <- <-.
    destruct (IH _ _ Hrest) as (rows & Hall & Hs & Hmerge).
    exists (row :: rows). split; [by constructor|]. split; [done|].
    unfold merge_all in *. cbn [for_each]. by rewrite Hmerged.
Qed.

Lemma runProcesses_sum {RS} (rand : RS → Z * RS) iterL iterM
    (ms : list (string * algoData)) noOfProcess noOfPages noOfRAMPages
    s mainOutput s' out :
  ms ≡ₚ mapping iterL iterM → 1 <= noOfProcess →
  runProcesses rand ms (mkAnalyze noOfProcess noOfPages noOfRAMPages []) (s, mainOutput)
  = Ok (s', out) →
  ∃ rows,
    Forall2 (λ p row, runProcess ms p = Ok row)
            (processes rand noOfPages noOfRAMPages (Z.to_nat noOfProcess) s).1 rows ∧
    s' = (processes rand noOfPages noOfRAMPages (Z.to_nat noOfProcess) s).2 ∧
    out = mainOutput ++ [row_sum 5 rows].
Proof.
  intros Hms HN. unfold runProcesses. cbn [an_noOfProcess an_curOutput].
  intros ([s1 cur] & Hrun & Hout)%bind_Ok_inv. injection Hout as <- <-.
  apply runProcesses_rows in Hrun as (rows & Hall & Hs & Hmerge).
  cbn [an_noOfPages an_noOfRAMPages] in *. rewrite upto_length in Hall, Hs.
  exists rows. split; [done|]. split; [done|].
  rewrite (merge_all_sum 5) in Hmerge.
  - by injection Hmerge as <-.
  - intros ->. apply Forall2_length in Hall.
    destruct (Z.to_nat noOfProcess) eqn:E; [lia|].
    rewrite processes_step in Hall. cbn [fst length] in Hall. lia.
  - apply Forall_forall. intros row Hrow.
    apply list_elem_of_lookup_1 in Hrow as [i Hi].
    destruct (Forall2_lookup_r _ _ _ _ _ Hall Hi) as (p & _ & Hp).
    apply (runProcess_perm iterL iterM ms (mapping iterL iterM)) in Hp;
      [|done | reflexivity].
    by apply runProcess_row_ok in Hp.
Qed.

(** * The residents that OPT and MRU evict *)

(** ** The eviction that OPT chooses *)

Lemma take_upto_lookup total (k j : nat) x :
  take k (upto total) !! j = Some x → x = Z.of_nat j ∧ (j < k)%nat ∧ Z.of_nat j < total.
Proof.
  intros Hx. apply lookup_take_Some in Hx as [Hx Hj].
  apply upto_lookup in Hx as [-> Hlt]. done.
Qed.

Lemma take_upto_S total (k : nat) :
  Z.of_nat k < total → take (S k) (upto total) = take k (upto total) ++ [Z.of_nat k].
Proof.
  intros Hk. apply take_S_r. unfold upto. rewrite lookup_seqZ. split; [lia | lia].
Qed.

Section OPTChoice.
Context (noOfRAMPages : Z) (pageID next : list Z).
Context (Hcap : 1 <= noOfRAMPages <= INT_MAX).
Context (Hnext : ∀ k id, pageID !! k = Some id →
                         next !! k = Some (Z.of_nat (next_occ pageID (S k) id))).

(** A run of OPT's loop over the first [k] positions that returns leaves
    the ordered set in step with the residents. *)
Lemma OPT_prefix_inv (k : nat) st :
  for_each (OPT_body noOfRAMPages pageID next)
           (take k (upto (Z.of_nat (length pageID)))) OPT_init = Ok st →
  OPT_inv pageID (k `min` length pageID) st.
Proof using Hcap Hnext.
  intros Hrun.
  apply (for_each_inv_Ok (λ j st, OPT_inv pageID j st)) in Hrun.
  - rewrite length_take, upto_length, Nat2Z.id in Hrun. done.
  - unfold OPT_inv, OPT_init. fields. by rewrite set_map_empty.
  - intros j x s s' Hx Hinv Hbody. apply take_upto_lookup in Hx as (-> & _ & Hj).
    destruct (lookup_lt_is_Some_2 pageID j) as [id Hid]; [lia|].
    destruct (decide (id ∈ opt_cache s)) as [Hhit|Hmiss].
    + destruct (OPT_body_hit noOfRAMPages pageID next Hnext j id s Hid Hhit Hinv)
        as (s1 & Hs1 & _ & _ & Hinv1). congruence.
    + destruct (decide (Z.of_nat (size (opt_cache s)) = noOfRAMPages)) as [Hfull|Hroom].
      * destruct (OPT_body_miss_full noOfRAMPages pageID next Hcap Hnext j id s
                    Hid Hmiss Hfull Hinv)
          as [Hf | (s1 & w & q & Hs1 & _ & _ & _ & _ & _ & Hinv1)]; congruence.
      * destruct (OPT_body_miss_room noOfRAMPages pageID next Hcap Hnext j id s
                    Hid Hmiss Hroom Hinv) as (s1 & Hs1 & _ & _ & Hinv1). congruence.
Qed.

(** On a miss with all frames taken OPT picks the resident whose next
    reference is farthest; it evicts that resident if it is referenced
    again, and otherwise reads the trace past its end. *)
Lemma OPT_body_farthest (i : nat) id st :
  pageID !! i = Some id → id ∉ opt_cache st →
  Z.of_nat (size (opt_cache st)) = noOfRAMPages → OPT_inv pageID i st →
  ∃ v, v ∈ opt_cache st ∧
       (∀ q, q ∈ opt_cache st → (next_occ pageID i q ≤ next_occ pageID i v)%nat) ∧
       (next_occ pageID i v = length pageID →
        OPT_body noOfRAMPages pageID next (Z.of_nat i) st
        = Fault (OutOfRange (Z.of_nat (length pageID)))) ∧
       ((next_occ pageID i v < length pageID)%nat →
        ∃ st', OPT_body noOfRAMPages pageID next (Z.of_nat i) st = Ok st' ∧
               opt_cache st' = {[id]} ∪ (opt_cache st ∖ {[v]}) ∧
               opt_missCount st' = wrap (opt_missCount st + 1)).
Proof using Hnext Hcap.
  intros Hi Hout Hfull Hinv. destruct st as [missCount cache occSet].
  unfold OPT_inv in *. fields. subst occSet.
  assert (Hilt : (i < length pageID)%nat) by (by apply lookup_lt_Some in Hi).
  destruct (set_last (set_map (λ p, Z.of_nat (next_occ pageID i p)) cache : gset Z))
    as [removeAt|] eqn:Hlast.
  2:{ apply set_last_None in Hlast. exfalso.
      assert (Hne : cache ≠ ∅).
      { intros ->. rewrite size_empty in Hfull. lia. }
      apply Hne. apply set_eq. intros p. split; [|set_solver].
      intros Hp. assert (Hin : Z.of_nat (next_occ pageID i p)
        ∈ (set_map (λ p, Z.of_nat (next_occ pageID i p)) cache : gset Z)).
      { apply elem_of_map. by exists p. }
      rewrite Hlast in Hin. set_solver. }
  pose proof Hlast as Hlast'.
  apply set_last_Some in Hlast' as [Hin Hmax].
  apply elem_of_map in Hin as (v & -> & Hv).
  exists v. split; [done|]. split.
  { intros q Hq.
    assert (Z.of_nat (next_occ pageID i q) <= Z.of_nat (next_occ pageID i v)); [|lia].
    apply Hmax, elem_of_map. by exists q. }
  unfold OPT_body. rewrite (at_index_lookup _ _ _ Hi). cbn [mbind result_bind].
  rewrite bool_decide_eq_false_2 by done.
  unfold size_is. rewrite to_size_t_id by lia.
  rewrite bool_decide_eq_true_2 by done. rewrite Hlast. split.
  - intros Hend. by rewrite Hend, at_index_past_end.
  - intros Hreal.
    pose proof (next_occ_lookup pageID i v Hreal) as Hr.
    rewrite (at_index_lookup _ _ _ Hr). cbn [mbind result_bind].
    rewrite (at_index_lookup _ _ _ (Hnext _ _ Hi)). cbn [mbind result_bind].
    eexists. split; [done|]. fields. done.
Qed.
End OPTChoice.

(** ** The eviction that MRU chooses *)

(** The identifier of a step is resident after the step. *)
Lemma recency_body_resident scan iter noOfRAMPages pageID (i : nat) id st st' :
  pageID !! i = Some id →
  recency_body scan iter noOfRAMPages pageID (Z.of_nat i) st = Ok st' →
  id ∈ lru_cache st'.
Proof.
  intros Hid. destruct st as [missCount cache lastUsed]. unfold recency_body.
  rewrite (at_index_lookup _ _ _ Hid). cbn [mbind result_bind].
  case_bool_decide as Hhit; cbn [mbind result_bind].
  - intros [= <-]. done.
  - destruct (size_is cache noOfRAMPages).
    + destruct (scan lastUsed (iter (Z.of_nat i) cache)).2; [|case_bool_decide; [|done]];
        cbn [mbind result_bind]; intros [= <-]; fields; set_solver.
    + cbn [mbind result_bind]. intros [= <-]. fields. set_solver.
Qed.

Lemma recency_previous_resident scan iter noOfRAMPages (pageID : list Z) (k : nat) p st :
  trace_ok pageID →
  for_each (recency_body scan iter noOfRAMPages pageID)
           (take (S k) (upto (size_as_int pageID))) LRU_init = Ok st →
  pageID !! k = Some p → p ∈ lru_cache st.
Proof.
  intros Hlen Hrun Hp. rewrite (size_as_int_ok _ Hlen) in Hrun.
  rewrite take_upto_S in Hrun by (apply lookup_lt_Some in Hp; lia).
  rewrite for_each_app in Hrun. apply bind_Ok_inv in Hrun as (mid & _ & Hlast).
  cbn [for_each] in Hlast. apply bind_Ok_inv in Hlast as (st1 & Hbody & [= <-]).
  by eapply recency_body_resident.
Qed.

Lemma last_occ_last (l : list Z) (k : nat) p :
  l !! k = Some p → length l = S k → last_occ l p = Some k.
Proof.
  intros Hk Hlen.
  destruct (last_occ_is_Some l p) as [a Ha]; [by eapply list_elem_of_lookup_2|].
  destruct (last_occ_Some _ _ _ Ha) as [Hat Hlater].
  pose proof (lookup_lt_Some _ _ _ Hat).
  destruct (decide (a = k)) as [->|Hne]; [done|].
  exfalso. apply (Hlater k); [lia | done].
Qed.

Lemma MRU_victim_previous iter noOfRAMPages pageID (k : nat) st id :
  iter_ok iter → 1 <= noOfRAMPages <= INT_MAX → trace_ok pageID →
  for_each (recency_body MRU_scan iter noOfRAMPages pageID)
           (take k (upto (size_as_int pageID))) LRU_init = Ok st →
  pageID !! k = Some id → id ∉ lru_cache st →
  Z.of_nat (size (lru_cache st)) = noOfRAMPages →
  ∃ v st',
    (1 <= k)%nat ∧ pageID !! (k - 1)%nat = Some v ∧ v ∈ lru_cache st ∧
    recency_body MRU_scan iter noOfRAMPages pageID (Z.of_nat k) st = Ok st' ∧
    lru_cache st' = {[id]} ∪ (lru_cache st ∖ {[v]}).
Proof.
  intros Hiter Hcap Hlen Hrun Hid Hmiss Hfull.
  assert (Hk : (k < length pageID)%nat) by (by apply lookup_lt_Some in Hid).
  destruct k as [|k].
  { rewrite take_0 in Hrun. injection Hrun as <-. unfold LRU_init in Hfull. fields.
    rewrite size_empty in Hfull. lia. }
  destruct (lookup_lt_is_Some_2 pageID k) as [prev Hprev]; [lia|].
  pose proof (recency_previous_resident _ _ _ _ _ _ _ Hlen Hrun Hprev) as Hres.
  destruct (recency_victim _ _ MRU_scan_spec iter Hiter noOfRAMPages Hcap pageID
              Hlen (S k) st id Hrun Hid Hmiss Hfull)
    as (v & a & st' & Hv & Ha & Hbest & Hbody & Hcache).
  destruct (Hbest prev Hres) as (b & Hb & Hab).
  assert (Hb' : last_occ (take (S k) pageID) prev = Some k).
  { apply last_occ_last; [by rewrite lookup_take_lt by lia | rewrite length_take; lia]. }
  assert (b = k) as -> by congruence.
  destruct (last_occ_Some _ _ _ Ha) as [Hat _].
  pose proof (lookup_lt_Some _ _ _ Hat) as Halt. rewrite length_take in Halt.
  assert (a = k) as -> by lia.
  rewrite lookup_take_lt in Hat by lia.
  assert (v = prev) as -> by congruence.
  exists prev, st'. replace (S k - 1)%nat with k by lia.
  split; [lia|]. done.
Qed.

(** * LRU as a stack of identifiers *)

Lemma stack_run_snoc frames l id :
  stack_run frames (l ++ [id]) = stack_step frames (stack_run frames l) id.
Proof. unfold stack_run. by rewrite foldl_snoc. Qed.

Lemma stack_run_elem frames l p : p ∈ (stack_run frames l).1 ↔ p ∈ l.
Proof.
  induction l as [|id l IH] using rev_ind; [done|].
  rewrite stack_run_snoc. cbn [stack_step fst].
  rewrite elem_of_cons, list_elem_of_filter, IH, elem_of_app, list_elem_of_singleton.
  destruct (decide (p = id)); naive_solver.
Qed.

Lemma stack_run_NoDup frames l : NoDup (stack_run frames l).1.
Proof.
  induction l as [|id l IH] using rev_ind; [constructor|].
  rewrite stack_run_snoc. cbn [stack_step fst]. apply NoDup_cons. split.
  - rewrite list_elem_of_filter. naive_solver.
  - by apply NoDup_filter.
Qed.

(** The stack does not depend on the number of frames. *)
Lemma stack_run_frames frames frames' l :
  (stack_run frames l).1 = (stack_run frames' l).1.
Proof.
  induction l as [|id l IH] using rev_ind; [done|].
  rewrite !stack_run_snoc. cbn [stack_step fst]. by rewrite IH.
Qed.

Lemma falling_filter key (P : Z → Prop) `{∀ x, Decision (P x)} r :
  falling key r → falling key (filter P r).
Proof.
  induction r as [|p r IH]; [done|]. intros [Hp Hr]. rewrite filter_cons.
  destruct (decide (P p)); [|by apply IH]. split; [|by apply IH].
  apply Forall_forall. intros q [_ Hq]%list_elem_of_filter.
  by eapply Forall_forall in Hp.
Qed.

Lemma falling_ext key key' r :
  (∀ p, p ∈ r → key p = key' p) → falling key r → falling key' r.
Proof.
  induction r as [|p r IH]; [done|]. intros Hext [Hp Hr]. split.
  - apply Forall_forall. intros q Hq. eapply Forall_forall in Hp; [|done].
    rewrite <- !Hext; [done | by left | by right].
  - apply IH; [|done]. intros q Hq. apply Hext. by right.
Qed.

Lemma falling_app key r1 r2 p q :
  falling key (r1 ++ r2) → p ∈ r1 → q ∈ r2 → (key q < key p)%nat.
Proof.
  induction r1 as [|x r1 IH]; [by intros _ ?%elem_of_nil|].
  intros [Hx Hr] [->|Hp]%elem_of_cons Hq.
  - eapply Forall_forall in Hx; [done|]. apply elem_of_app. by right.
  - by apply IH.
Qed.

Lemma stamp_snoc l x p :
  stamp (l ++ [x]) p = if decide (x = p) then S (length l) else stamp l p.
Proof. unfold stamp. rewrite last_occ_snoc. by case_decide. Qed.

Lemma stamp_le l p : (stamp l p ≤ length l)%nat.
Proof.
  unfold stamp. destruct (last_occ l p) as [a|] eqn:Ha; simpl; [|lia].
  apply last_occ_Some in Ha as [Ha _]. apply lookup_lt_Some in Ha. lia.
Qed.

(** The stack holds the identifiers in the order of their last references. *)
Lemma stack_run_falling frames l : falling (stamp l) (stack_run frames l).1.
Proof.
  induction l as [|id l IH] using rev_ind; [exact I|].
  rewrite stack_run_snoc. cbn [stack_step fst]. split.
  - apply Forall_forall. intros q [Hq _]%list_elem_of_filter.
    rewrite !stamp_snoc. rewrite decide_False by congruence.
    rewrite decide_True by done.
    pose proof (stamp_le l q). lia.
  - apply (falling_ext (stamp l)).
    + intros q [Hq _]%list_elem_of_filter.
      by rewrite stamp_snoc, decide_False by congruence.
    + by apply falling_filter.
Qed.

Lemma filter_ne_id (r : list Z) id : id ∉ r → filter (λ q, q ≠ id) r = r.
Proof.
  induction r as [|p r IH]; [done|]. intros Hid.
  rewrite filter_cons_True by (intros ->; apply Hid; by left).
  rewrite IH; [done|]. intros ?. apply Hid. by right.
Qed.

(** The topmost identifiers after a reference to one of them. *)
Lemma top_after_hit (c : nat) (r : list Z) id :
  (1 ≤ c)%nat → NoDup r → id ∈ take c r →
  list_to_set (take c (id :: filter (λ q, q ≠ id) r)) =@{gset Z} list_to_set (take c r).
Proof.
  intros Hc Hnd Hin. destruct c as [|c]; [lia|]. cbn [take].
  apply elem_of_take in Hin as (i & Hi & Hlt).
  destruct (list_elem_of_split_length r i id Hi) as (r1 & r2 & -> & ->).
  apply NoDup_app in Hnd as (_ & Hr1 & Hr2). apply NoDup_cons in Hr2 as [Hr2 _].
  assert (Hn1 : id ∉ r1). { intros Hx. apply (Hr1 _ Hx). by left. }
  rewrite filter_app, filter_cons_False by naive_solver.
  rewrite !filter_ne_id by done.
  rewrite !take_app.
  rewrite (take_ge r1 c), (take_ge r1 (S c)) by lia.
  replace (S c - length r1)%nat with (S (c - length r1)) by lia. cbn [take].
  rewrite list_to_set_cons, !list_to_set_app_L, list_to_set_cons.
  clear. set_solver.
Qed.

(** The topmost identifiers after a reference to a new identifier while
    some of the frames are free. *)
Lemma top_after_room (c : nat) (r : list Z) id :
  (1 ≤ c)%nat → (length r < c)%nat → id ∉ r →
  list_to_set (take c (id :: filter (λ q, q ≠ id) r))
  =@{gset Z} {[id]} ∪ list_to_set (take c r).
Proof.
  intros Hc Hlen Hid. destruct c as [|c]; [lia|]. cbn [take].
  rewrite filter_ne_id by done. rewrite !take_ge by lia.
  by rewrite list_to_set_cons.
Qed.

(** The topmost identifiers after a reference to an identifier that is not
    among them while all frames are taken: the lowest of them leaves. *)
Lemma top_after_full (c : nat) (r : list Z) id :
  (1 ≤ c)%nat → NoDup r → (c ≤ length r)%nat → id ∉ take c r →
  ∃ w, r !! (c - 1)%nat = Some w ∧
       list_to_set (take c (id :: filter (λ q, q ≠ id) r))
       =@{gset Z} {[id]} ∪ (list_to_set (take c r) ∖ {[w]}).
Proof.
  intros Hc Hnd Hlen Hid. destruct c as [|c]; [lia|]. cbn [take].
  replace (S c - 1)%nat with c by lia.
  destruct (lookup_lt_is_Some_2 r c) as [w Hw]; [lia|]. exists w. split; [done|].
  rewrite <- (take_drop (S c) r) at 1. rewrite filter_app.
  rewrite (filter_ne_id (take (S c) r)) by done.
  rewrite take_app_le by (rewrite length_take; lia).
  rewrite take_take, Nat.min_l by lia.
  rewrite list_to_set_cons. rewrite (take_S_r _ _ _ Hw), list_to_set_app_L.
  assert (w ∉ take c r).
  { intros (i & Hi & Hlt)%elem_of_take.
    pose proof (NoDup_lookup _ _ _ _ Hnd Hi Hw). lia. }
  assert (w ∉ (list_to_set (take c r) : gset Z)) by (by rewrite elem_of_list_to_set).
  rewrite list_to_set_cons, list_to_set_nil. set_solver.
Qed.

Lemma top_size (c : nat) (r : list Z) :
  NoDup r → size (list_to_set (take c r) : gset Z) = (c `min` length r)%nat.
Proof.
  intros Hnd. rewrite size_list_to_set, length_take; [done|].
  by apply (sublist_NoDup _ r), sublist_take.
Qed.

(** More frames keep more of the stack. *)
Lemma top_mono (c c' : nat) (r : list Z) p : (c ≤ c')%nat → p ∈ take c r → p ∈ take c' r.
Proof.
  intros Hle (i & Hi & Hlt)%elem_of_take. apply elem_of_take. exists i. split; [done | lia].
Qed.

Lemma stack_misses_mono_from (c c' : nat) l r (n n' : nat) :
  (c ≤ c')%nat → (n' ≤ n)%nat →
  ((foldl (stack_step c') (r, n') l).2 ≤ (foldl (stack_step c) (r, n) l).2)%nat ∧
  (foldl (stack_step c') (r, n') l).1 = (foldl (stack_step c) (r, n) l).1.
Proof.
  intros Hc. revert r n n'. induction l as [|id l IH]; intros r n n' Hn; [done|].
  cbn [foldl]. unfold stack_step at 2 4 6 8. cbn [fst snd]. apply IH.
  repeat case_bool_decide; try lia.
  exfalso. eauto using top_mono.
Qed.

(** With more frames the stack counts at most as many misses. *)
Lemma stack_misses_mono (c c' : nat) l :
  (c ≤ c')%nat → ((stack_run c' l).2 ≤ (stack_run c l).2)%nat.
Proof. intros Hc. by apply stack_misses_mono_from. Qed.

(** The misses of the stack are at most the references. *)
Lemma stack_misses_le frames l : ((stack_run frames l).2 ≤ length l)%nat.
Proof.
  induction l as [|id l IH] using rev_ind; [done|].
  rewrite stack_run_snoc, length_app. cbn [stack_step snd length].
  case_bool_decide; lia.
Qed.

Section LRUStack.
Context (iter : Z → gset Z → list Z) (Hiter : iter_ok iter).
Context (noOfRAMPages : Z) (Hcap : 1 <= noOfRAMPages <= INT_MAX).
Context (pageID : list Z) (Hlen : trace_ok pageID).

Lemma LRU_stack_step (k : nat) id st :
  pageID !! k = Some id → LRU_stack_ok noOfRAMPages pageID k st →
  ∃ st', recency_body LRU_scan iter noOfRAMPages pageID (Z.of_nat k) st = Ok st' ∧
         LRU_stack_ok noOfRAMPages pageID (S k) st'.
Proof using Hiter Hcap Hlen.
  intros Hid (Hok & Hcache & Hcount).
  destruct (recency_step LRU_scan Z.le LRU_scan_spec iter Hiter noOfRAMPages Hcap
              pageID Hlen k id st Hid Hok) as (st' & Hbody & Hok' & Hcases).
  exists st'. split; [done|]. split; [done|].
  rewrite (take_S_r _ _ _ Hid), stack_run_snoc. cbn [stack_step fst snd].
  set (c := Z.to_nat noOfRAMPages) in *.
  set (r := (stack_run c (take k pageID)).1) in *.
  assert (Hc : (1 ≤ c)%nat) by (unfold c; lia).
  pose proof (stack_run_NoDup c (take k pageID)) as Hnd. fold r in Hnd.
  assert (Hres : ∀ p, p ∈ lru_cache st ↔ p ∈ take c r).
  { intros p. by rewrite Hcache, elem_of_list_to_set. }
  destruct Hcases as [(Hhit & Hc' & Hm') | [(Hmiss & Hroom & Hc' & Hm')
                                           | (Hmiss & Hfull & Hm' & v & Hv & Hc' & Hbest)]].
  - rewrite bool_decide_eq_true_2 by (by apply Hres). split; [|congruence].
    rewrite Hc', Hcache. symmetry. apply top_after_hit; [done | done | by apply Hres].
  - rewrite bool_decide_eq_false_2 by (by rewrite <- Hres).
    split; [|rewrite Hm', Hcount; lia].
    rewrite Hc', Hcache.
    assert (Hsz : (length r < c)%nat).
    { rewrite Hcache, top_size in Hroom by done.
      destruct Hok as (_ & _ & Hsize & _). rewrite Hcache, top_size in Hsize by done.
      unfold c in *. lia. }
    symmetry. apply top_after_room; [done | done |].
    intros Hin. apply Hmiss, Hres. by rewrite take_ge by lia.
  - rewrite bool_decide_eq_false_2 by (by rewrite <- Hres).
    split; [|rewrite Hm', Hcount; lia].
    assert (Hsz : (c ≤ length r)%nat).
    { rewrite Hcache, top_size in Hfull by done. unfold c in *. lia. }
    destruct (top_after_full c r id Hc Hnd Hsz) as (w & Hw & Htop).
    { by rewrite <- Hres. }
    rewrite Hc', Htop, <- Hcache.
    assert (v = w) as ->; [|done].
    destruct (decide (v = w)) as [|Hne]; [done|]. exfalso.
    assert (Hwres : w ∈ lru_cache st).
    { apply Hres, elem_of_take. exists (c - 1)%nat. split; [done | lia]. }
    specialize (Hbest w Hwres).
    (* the lowest identifier of the stack is the one referenced longest ago *)
    apply Hres, elem_of_take in Hv as (i & Hi & Hlt).
    assert (Hiw : (i < c - 1)%nat).
    { destruct (decide (i = c - 1)%nat) as [->|]; [congruence | lia]. }
    pose proof (stack_run_falling c (take k pageID)) as Hfall. fold r in Hfall.
    rewrite <- (take_drop (c - 1) r) in Hfall.
    assert (Hlow : (stamp (take k pageID) w < stamp (take k pageID) v)%nat).
    { apply (falling_app _ _ _ _ _ Hfall).
      - apply elem_of_take. exists i. done.
      - apply list_elem_of_lookup. exists 0%nat. rewrite lookup_drop.
        by replace (c - 1 + 0)%nat with (c - 1)%nat by lia. }
    destruct Hok as (Hlast & _).
    destruct (last_occ_is_Some (take k pageID) w) as [b Hb].
    { apply (stack_run_elem c). fold r. by eapply list_elem_of_lookup_2. }
    unfold last_used in Hbest. rewrite !Hlast in Hbest. unfold stamp in Hlow.
    rewrite Hb in Hbest, Hlow.
    destruct (last_occ (take k pageID) v); simpl in *; lia.
Qed.

Lemma LRU_stack_run (k : nat) :
  ∃ st, for_each (recency_body LRU_scan iter noOfRAMPages pageID)
                 (take k (upto (Z.of_nat (length pageID)))) LRU_init = Ok st ∧
        LRU_stack_ok noOfRAMPages pageID (k `min` length pageID) st.
Proof using Hiter Hcap Hlen.
  destruct (for_each_inv (LRU_stack_ok noOfRAMPages pageID)
    (recency_body LRU_scan iter noOfRAMPages pageID)
    (take k (upto (Z.of_nat (length pageID)))) LRU_init) as (st & Hrun & Hok).
  - destruct (recency_run_ok LRU_scan Z.le LRU_scan_spec iter Hiter noOfRAMPages Hcap
                pageID Hlen 0) as (st0 & Hrun0 & Hok0).
    rewrite take_0 in Hrun0. injection Hrun0 as <-.
    split; [done|]. rewrite take_0. unfold LRU_init. fields.
    change (stack_run (Z.to_nat noOfRAMPages) []) with (@nil Z, 0%nat).
    cbn [fst snd]. by rewrite take_nil.
  - intros j x s Hx Hs. apply take_upto_lookup in Hx as (-> & _ & Hj).
    destruct (lookup_lt_is_Some_2 pageID j) as [id Hid]; [lia|].
    by apply (LRU_stack_step j id).
  - exists st. split; [done|].
    by rewrite length_take, upto_length, Nat2Z.id in Hok.
Qed.

(** LRU returns the misses that the stack counts. *)
Lemma LRU_counts_stack noOfPages :
  LRU_processRAM iter noOfPages noOfRAMPages pageID
  = Ok [Z.of_nat (stack_run (Z.to_nat noOfRAMPages) pageID).2;
        Z.of_nat (length pageID)].
Proof using Hiter Hcap Hlen.
  unfold LRU_processRAM, recency_processRAM. rewrite (size_as_int_ok _ Hlen).
  destruct (LRU_stack_run (length pageID)) as (st & Hrun & _ & _ & Hcount).
  rewrite take_ge in Hrun by (rewrite upto_length; lia).
  rewrite Hrun. cbn [mbind result_bind].
  rewrite Hcount, Nat.min_id, firstn_all. done.
Qed.
End LRUStack.

Lemma take_min_length {A} (l : list A) (k : nat) : take (k `min` length l) l = take k l.
Proof.
  destruct (decide (k ≤ length l)%nat); [by rewrite Nat.min_l by lia|].
  by rewrite Nat.min_r, !take_ge by lia.
Qed.

(** After any number of references the residents of LRU are the topmost
    identifiers of the stack, and the misses are those of the stack. *)
Lemma LRU_stack_prefix iter noOfRAMPages pageID (k : nat) :
  iter_ok iter → 1 <= noOfRAMPages <= INT_MAX → trace_ok pageID →
  ∃ st, for_each (recency_body LRU_scan iter noOfRAMPages pageID)
                 (take k (upto (size_as_int pageID))) LRU_init = Ok st ∧
        lru_cache st
        = list_to_set (take (Z.to_nat noOfRAMPages)
                            (stack_run (Z.to_nat noOfRAMPages) (take k pageID)).1) ∧
        lru_missCount st
        = Z.of_nat (stack_run (Z.to_nat noOfRAMPages) (take k pageID)).2.
Proof.
  intros Hiter Hcap Hlen. rewrite (size_as_int_ok _ Hlen).
  destruct (LRU_stack_run iter Hiter noOfRAMPages Hcap pageID Hlen k)
    as (st & Hrun & _ & Hcache & Hcount).
  rewrite take_min_length in Hcache, Hcount. by exists st.
Qed.

(** With more frames LRU keeps the residents it would keep with fewer, and
    has counted at most as many misses. *)
Lemma LRU_frames_prefix iter iter' frames frames' pageID (k : nat) :
  iter_ok iter → iter_ok iter' → 1 <= frames <= frames' → frames' <= INT_MAX →
  trace_ok pageID →
  ∃ st st',
    for_each (recency_body LRU_scan iter frames pageID)
             (take k (upto (size_as_int pageID))) LRU_init = Ok st ∧
    for_each (recency_body LRU_scan iter' frames' pageID)
             (take k (upto (size_as_int pageID))) LRU_init = Ok st' ∧
    lru_cache st ⊆ lru_cache st' ∧ lru_missCount st' <= lru_missCount st.
Proof.
  intros Hiter Hiter' Hfr Hmax Hlen.
  destruct (LRU_stack_prefix iter frames pageID k Hiter ltac:(lia) Hlen)
    as (st & Hrun & Hcache & Hcount).
  destruct (LRU_stack_prefix iter' frames' pageID k Hiter' ltac:(lia) Hlen)
    as (st' & Hrun' & Hcache' & Hcount').
  exists st, st'. split; [done|]. split; [done|]. split.
  - rewrite Hcache, Hcache'. intros p. rewrite !elem_of_list_to_set.
    rewrite (stack_run_frames (Z.to_nat frames) (Z.to_nat frames')).
    apply top_mono. lia.
  - rewrite Hcount, Hcount'.
    pose proof (stack_misses_mono (Z.to_nat frames) (Z.to_nat frames') (take k pageID)
                  ltac:(lia)). lia.
Qed.

Lemma LRU_frames_result iter iter' noOfPages noOfPages' frames frames' pageID :
  iter_ok iter → iter_ok iter' → 1 <= frames <= frames' → frames' <= INT_MAX →
  trace_ok pageID →
  ∃ m m', LRU_processRAM iter noOfPages frames pageID
          = Ok [m; Z.of_nat (length pageID)] ∧
          LRU_processRAM iter' noOfPages' frames' pageID
          = Ok [m'; Z.of_nat (length pageID)] ∧
          m' <= m.
Proof.
  intros Hiter Hiter' Hfr Hmax Hlen.
  rewrite (LRU_counts_stack iter Hiter frames ltac:(lia) pageID Hlen).
  rewrite (LRU_counts_stack iter' Hiter' frames' ltac:(lia) pageID Hlen).
  eexists _, _. split; [done|]. split; [done|].
  pose proof (stack_misses_mono (Z.to_nat frames) (Z.to_nat frames') pageID ltac:(lia)).
  lia.
Qed.

(** * The statements of the specification *)

(** C10: FIFO is deterministic because it evicts in the order of arrival.
    A run by arrival removes, on a miss that finds all frames taken, a
    resident that no other resident precedes in arrival.  (1) That leaves
    no choice: two runs by arrival over the same trace with the same number
    of frames have, after every number of references, the same residents
    and the same miss count.  (2) The code is such a run: whenever its
    loop has come through the first [k] references, its set holds the
    residents of the run by arrival and its [missCount] is the miss count
    of that run, so every identifier it has erased was the resident that
    arrived first.  (3) A result that FIFO returns is therefore the miss
    count of the runs by arrival, and (4) two evaluations on the same trace
    with the same number of frames return the same miss count.  (5) With
    at least one frame FIFO returns a result. *)
Theorem FIFO_deterministic noOfPages noOfPages' noOfRAMPages pageID :
  is_int noOfRAMPages → trace_ok pageID →
  (∀ k arrived1 missCount1 arrived2 missCount2,
     arrival_run noOfRAMPages pageID k arrived1 missCount1 →
     arrival_run noOfRAMPages pageID k arrived2 missCount2 →
     arrived1 = arrived2 ∧ missCount1 = missCount2) ∧
  (∀ (k : nat) st,
     (k ≤ length pageID)%nat →
     for_each (FIFO_body noOfRAMPages) (take k pageID) FIFO_init = Ok st →
     ∃ arrived,
       arrival_run noOfRAMPages pageID k arrived (fifo_missCount st) ∧
       dom arrived = fifo_cache st) ∧
  (∀ missCount total,
     FIFO_processRAM noOfPages noOfRAMPages pageID = Ok [missCount; total] →
     total = Z.of_nat (length pageID) ∧
     ∃ arrived, arrival_run noOfRAMPages pageID (length pageID) arrived missCount) ∧
  (∀ missCount missCount' total total',
     FIFO_processRAM noOfPages noOfRAMPages pageID = Ok [missCount; total] →
     FIFO_processRAM noOfPages' noOfRAMPages pageID = Ok [missCount'; total'] →
     missCount = missCount') ∧
  (1 <= noOfRAMPages →
   ∃ missCount,
     FIFO_processRAM noOfPages noOfRAMPages pageID
     = Ok [missCount; Z.of_nat (length pageID)]).
Proof.
  intros Hcap Hlen.
  assert (Hprefix : ∀ (k : nat) st,
    (k ≤ length pageID)%nat →
    for_each (FIFO_body noOfRAMPages) (take k pageID) FIFO_init = Ok st →
    ∃ arrived,
      arrival_run noOfRAMPages pageID k arrived (fifo_missCount st) ∧
      dom arrived = fifo_cache st).
  { intros k st Hk Hrun.
    destruct (FIFO_arrival_prefix noOfRAMPages pageID k st Hcap Hlen Hrun)
      as (arrived & Harr & Hdom & _).
    rewrite Nat.min_l in Harr by done. by exists arrived. }
  assert (Hresult : ∀ n missCount total,
    FIFO_processRAM n noOfRAMPages pageID = Ok [missCount; total] →
    total = Z.of_nat (length pageID) ∧
    ∃ arrived, arrival_run noOfRAMPages pageID (length pageID) arrived missCount).
  { intros n missCount total. unfold FIFO_processRAM.
    intros (st & Hrun & [= <- <-])%bind_Ok_inv.
    split; [by apply size_as_int_ok|].
    rewrite <- (firstn_all pageID) in Hrun at 1.
    destruct (Hprefix _ _ ltac:(done) Hrun) as (arrived & Harr & _). by exists arrived. }
  split; [intros k; by apply arrival_run_unique|].
  split; [done|]. split; [by apply Hresult|]. split.
  - intros missCount missCount' total total' Hrun Hrun'.
    destruct (Hresult _ _ _ Hrun) as (_ & arrived & Harr).
    destruct (Hresult _ _ _ Hrun') as (_ & arrived' & Harr').
    by destruct (arrival_run_unique _ _ _ _ _ _ _ Harr Harr').
  - intros Hone. unfold FIFO_processRAM.
    destruct (FIFO_bounded noOfRAMPages pageID) as (st & -> & _).
    { destruct Hcap. lia. }
    exists (fifo_missCount st). cbn [mbind result_bind]. by rewrite size_as_int_ok.
Qed.

Lemma FIFO_deterministic_witness :
  (∀ k arrived1 missCount1 arrived2 missCount2,
     arrival_run 3 fixture k arrived1 missCount1 →
     arrival_run 3 fixture k arrived2 missCount2 →
     arrived1 = arrived2 ∧ missCount1 = missCount2) ∧
  (∀ (k : nat) st,
     (k ≤ length fixture)%nat →
     for_each (FIFO_body 3) (take k fixture) FIFO_init = Ok st →
     ∃ arrived,
       arrival_run 3 fixture k arrived (fifo_missCount st) ∧
       dom arrived = fifo_cache st) ∧
  (∀ missCount total,
     FIFO_processRAM 5 3 fixture = Ok [missCount; total] →
     total = Z.of_nat (length fixture) ∧
     ∃ arrived, arrival_run 3 fixture (length fixture) arrived missCount) ∧
  (∀ missCount missCount' total total',
     FIFO_processRAM 5 3 fixture = Ok [missCount; total] →
     FIFO_processRAM 12 3 fixture = Ok [missCount'; total'] →
     missCount = missCount') ∧
  ∃ missCount, FIFO_processRAM 5 3 fixture = Ok [missCount; Z.of_nat (length fixture)].
Proof.
  destruct (FIFO_deterministic 5 12 3 fixture) as (Hone & Hcode & Hres & Hsame & Hret).
  - unfold is_int, INT_MIN, INT_MAX. lia.
  - unfold trace_ok. vm_compute. discriminate.
  - split; [exact Hone|]. split; [exact Hcode|]. split; [exact Hres|].
    split; [exact Hsame|]. apply Hret. lia.
Defined.

(** C4: when the number of frames is at least the number of distinct
    identifiers of the trace, each of FIFO, LRU, MRU and OPT returns that
    number as its miss count. *)
Theorem cold_misses_only iterL iterM noOfPages noOfRAMPages pageID :
  trace_ok pageID →
  Z.of_nat (distinct pageID) <= noOfRAMPages → noOfRAMPages <= INT_MAX →
  FIFO_processRAM noOfPages noOfRAMPages pageID
    = Ok [Z.of_nat (distinct pageID); Z.of_nat (length pageID)] ∧
  LRU_processRAM iterL noOfPages noOfRAMPages pageID
    = Ok [Z.of_nat (distinct pageID); Z.of_nat (length pageID)] ∧
  MRU_processRAM iterM noOfPages noOfRAMPages pageID
    = Ok [Z.of_nat (distinct pageID); Z.of_nat (length pageID)] ∧
  OPT_processRAM noOfPages noOfRAMPages pageID
    = Ok [Z.of_nat (distinct pageID); Z.of_nat (length pageID)].
Proof.
  intros Hlen Hcap Hint. repeat split.
  - rewrite FIFO_cold by done. by rewrite size_as_int_ok.
  - by apply recency_cold.
  - by apply recency_cold.
  - by apply OPT_cold.
Qed.

Lemma cold_misses_only_witness :
  FIFO_processRAM 5 5 fixture = Ok [Z.of_nat (distinct fixture); Z.of_nat (length fixture)] ∧
  LRU_processRAM canon 5 5 fixture = Ok [Z.of_nat (distinct fixture); Z.of_nat (length fixture)] ∧
  MRU_processRAM canon 5 5 fixture = Ok [Z.of_nat (distinct fixture); Z.of_nat (length fixture)] ∧
  OPT_processRAM 5 5 fixture = Ok [Z.of_nat (distinct fixture); Z.of_nat (length fixture)].
Proof.
  apply (cold_misses_only canon canon 5 5 fixture).
  - unfold trace_ok. vm_compute. discriminate.
  - vm_compute. discriminate.
  - vm_compute. discriminate.
Defined.

(** C5, as the code has it: with no frame at all, LRU and MRU return the
    number of distinct identifiers of the trace as their miss count, for
    every order in which the residents are visited: the first miss finds
    the empty resident set full and erases from it a victim that was never
    assigned, which removes nothing; from then on the set is never of size
    0 again, so every identifier stays resident and only its first
    reference is a miss.  FIFO and OPT return 0 misses out of 0 references
    on the empty trace; on a trace with at least one reference they return
    no result, because the first miss takes the front of an empty queue,
    respectively the last element of an empty set. *)
Theorem no_frame iterL iterM noOfPages pageID :
  iter_ok iterL → iter_ok iterM → trace_ok pageID →
  LRU_processRAM iterL noOfPages 0 pageID
  = Ok [Z.of_nat (distinct pageID); Z.of_nat (length pageID)] ∧
  MRU_processRAM iterM noOfPages 0 pageID
  = Ok [Z.of_nat (distinct pageID); Z.of_nat (length pageID)] ∧
  (pageID = [] →
     FIFO_processRAM noOfPages 0 pageID = Ok [0; 0] ∧
     OPT_processRAM noOfPages 0 pageID = Ok [0; 0]) ∧
  (pageID ≠ [] →
     FIFO_processRAM noOfPages 0 pageID = Fault EmptyQueueFront ∧
     OPT_processRAM noOfPages 0 pageID = Fault EmptySetLast).
Proof.
  intros HiterL HiterM Hlen. split; [|split; [|split]].
  - by apply (recency_no_frame _ _ _ _ LRU_scan_spec).
  - by apply (recency_no_frame _ _ _ _ MRU_scan_spec).
  - intros ->. done.
  - intros Hne. destruct pageID as [|id pageID]; [done|]. split.
    + apply FIFO_no_frame.
    + by apply OPT_no_frame.
Qed.

Lemma no_frame_witness :
  LRU_processRAM canon 1 0 [1; 1] = Ok [Z.of_nat (distinct [1; 1]); Z.of_nat (length [1; 1])] ∧
  MRU_processRAM canon 1 0 [1; 1] = Ok [Z.of_nat (distinct [1; 1]); Z.of_nat (length [1; 1])] ∧
  FIFO_processRAM 1 0 [1; 1] = Fault EmptyQueueFront ∧
  OPT_processRAM 1 0 [1; 1] = Fault EmptySetLast.
Proof.
  destruct (no_frame canon canon 1 [1; 1] canon_ok canon_ok) as (HL & HM & _ & HFO).
  - unfold trace_ok. vm_compute. discriminate.
  - split; [exact HL|]. split; [exact HM|]. apply HFO. discriminate.
Defined.

(** C5 as stated fails: on the trace [1, 1] with no frame, LRU and MRU
    return 1 miss out of a total of 2: the second reference finds the
    identifier resident. *)
Lemma no_frame_counterexample :
  LRU_processRAM canon 1 0 [1; 1] = Ok [1; 2] ∧
  MRU_processRAM canon 1 0 [1; 1] = Ok [1; 2].
Proof. split; vm_compute; reflexivity. Qed.

(** C6, as the code has it: for page size 0 the runner calls no policy
    (whatever the table holds) and returns (-1, -1) in every cell; no
    reference is drawn from the generator; the rows of the processes are
    summed like all others, so after [noOfProcess ≥ 1] processes every cell
    of the row of page size 0 holds (-noOfProcess, -noOfProcess). *)
Theorem page_size_zero_row {RS} (rand : RS → Z * RS)
    (mapping : list (string * algoData))
    noOfProcess RAMSize processSize s mainOutput :
  ids_in_range mapping → 1 <= noOfProcess <= INT_MAX →
  (∀ noOfRAMPages pageID,
     runProcess mapping (mkProcess noOfRAMPages (-1) pageID)
     = Ok (replicate (length mapping + 1) [-1; -1])) ∧
  (curAnalyze ← createAnalyze noOfProcess RAMSize processSize 0;
   runProcesses rand mapping curAnalyze (s, mainOutput))
  = Ok (s, mainOutput
           ++ [replicate (length mapping + 1) [- noOfProcess; - noOfProcess]]).
Proof.
  intros Hids HN. split.
  - intros. by apply runProcess_sentinel.
  - rewrite createAnalyze_sentinel. cbn [mbind result_bind].
    by apply runProcesses_sentinel.
Qed.

Lemma page_size_zero_row_witness :
  (∀ noOfRAMPages pageID,
     runProcess (mapping canon canon) (mkProcess noOfRAMPages (-1) pageID)
     = Ok (replicate 5 [-1; -1])) ∧
  (curAnalyze ← createAnalyze 3 8 4 0;
   runProcesses lcg (mapping canon canon) curAnalyze (7, []))
  = Ok (7, [replicate 5 [-3; -3]]).
Proof.
  apply (page_size_zero_row lcg (mapping canon canon) 3 8 4 7 []).
  - apply mapping_ids_in_range.
  - unfold INT_MAX. lia.
Defined.

(** C6 as stated fails: with two processes the cells of the row of page
    size 0 hold (-2, -2), not (-1, -1). *)
Lemma page_size_zero_row_counterexample :
  (curAnalyze ← createAnalyze 2 1 1 0;
   runProcesses lcg (mapping canon canon) curAnalyze (7, []))
  = Ok (7, [replicate 5 [-2; -2]]) ∧
  (curAnalyze ← createAnalyze 2 1 1 0;
   runProcesses lcg (mapping canon canon) curAnalyze (7, []))
  ≠ Ok (7, [replicate 5 [-1; -1]]).
Proof. split; vm_compute; [reflexivity | discriminate]. Qed.

(** C7: merging the rows of [N ≥ 1] processes, all with [m] cells of two
    [int] statistics, yields in every cell the [int] sums of the misses and
    of the totals of the [N] rows, in whatever order the rows are merged;
    a sum that fits an [int] is the exact sum. *)
Theorem merge_order_irrelevant (m : nat) (rows rows' : list (list (list Z))) :
  rows ≠ [] → Forall (row_ok m) rows → rows ≡ₚ rows' →
  merge_all rows [] = Ok (row_sum m rows) ∧
  merge_all rows' [] = Ok (row_sum m rows) ∧
  ∀ i, (i < m)%nat →
    is_int (sumZ ((λ row, entry row i 0) <$> rows)) →
    is_int (sumZ ((λ row, entry row i 1) <$> rows)) →
    row_sum m rows !! i
    = Some [sumZ ((λ row, entry row i 0) <$> rows);
            sumZ ((λ row, entry row i 1) <$> rows)].
Proof.
  intros Hne Hrows Hperm. split; [by apply merge_all_sum|]. split.
  - rewrite (row_sum_perm m rows rows' Hperm). apply merge_all_sum.
    + intros ->. by apply Permutation_nil_r in Hperm.
    + by rewrite <- Hperm.
  - intros i Hi Hmiss Htotal. unfold row_sum, tab.
    rewrite list_lookup_fmap, lookup_seq_lt by done. cbn [fmap option_fmap option_map].
    by rewrite !wrap_id.
Qed.

Lemma merge_order_irrelevant_witness :
  merge_all [[[1; 10]; [2; 10]]; [[3; 20]; [4; 20]]; [[5; 30]; [6; 30]]] []
  = Ok [[9; 60]; [12; 60]] ∧
  merge_all [[[5; 30]; [6; 30]]; [[1; 10]; [2; 10]]; [[3; 20]; [4; 20]]] []
  = Ok [[9; 60]; [12; 60]].
Proof.
  destruct (merge_order_irrelevant 2
    [[[1; 10]; [2; 10]]; [[3; 20]; [4; 20]]; [[5; 30]; [6; 30]]]
    [[[5; 30]; [6; 30]]; [[1; 10]; [2; 10]]; [[3; 20]; [4; 20]]])
    as (Hfirst & Hsecond & _).
  - discriminate.
  - repeat constructor; eexists _, _; (split; [reflexivity|]);
      unfold is_int, INT_MIN, INT_MAX; lia.
  - symmetry. apply (Permutation_cons_append [_; _]).
  - split; [exact Hfirst | exact Hsecond].
Defined.

(** C9, as the code has it: for [1 ≤ noOfPages] with [100 * noOfPages]
    within the [int] range, and [rand()] never negative, the generated
    trace has exactly [100 * noOfPages] references, each in
    [1 .. noOfPages]. *)
Theorem generated_trace {RS} (rand : RS → Z * RS) noOfPages noOfRAMPages s :
  (∀ s, 0 <= (rand s).1) →
  1 <= noOfPages → 100 * noOfPages <= INT_MAX →
  Z.of_nat (length (proc_pageID (createProcess rand noOfPages noOfRAMPages s).1))
  = 100 * noOfPages ∧
  Forall (λ pid, 1 <= pid <= noOfPages)
         (proc_pageID (createProcess rand noOfPages noOfRAMPages s).1).
Proof. intros Hrand Hn Hmax. by apply createProcess_trace. Qed.

Lemma generated_trace_witness :
  Z.of_nat (length (proc_pageID (createProcess lcg 3 2 7).1)) = 100 * 3 ∧
  Forall (λ pid, 1 <= pid <= 3) (proc_pageID (createProcess lcg 3 2 7).1).
Proof.
  apply (generated_trace lcg 3 2 7 lcg_nonneg).
  - lia.
  - unfold INT_MAX. lia.
Defined.

(** C9 as stated fails: for 21474837 pages, [100 * noOfPages] leaves the
    [int] range and the generated trace is empty. *)
Lemma generated_trace_counterexample :
  proc_pageID (createProcess lcg 21474837 1 7).1 = [] ∧
  Z.of_nat (length (proc_pageID (createProcess lcg 21474837 1 7).1))
  ≠ 100 * 21474837.
Proof. split; vm_compute; [reflexivity | discriminate]. Qed.

(** C1 does not hold of the code.  On the trace [1, 2, 3] with two frames,
    the first two references make 1 and 2 resident, both with the next
    occurrence 3 (the length of the trace, for "never again"), and the set
    of next occurrences keeps the single entry 3.  The third reference
    misses with the frames full: the index taken from the set is 3, and
    the read of the trace at that index is past its end. *)
Theorem OPT_entry_lost_and_read_past_end :
  ∃ next st,
    OPT_next 3 [1; 2; 3] = Ok next ∧
    for_each (OPT_body 2 [1; 2; 3] next) (upto 2) OPT_init = Ok st ∧
    opt_cache st = {[1; 2]} ∧
    opt_occSet st = {[3]} ∧
    set_last (opt_occSet st) = Some 3 ∧
    OPT_body 2 [1; 2; 3] next 2 st = Fault (OutOfRange 3) ∧
    OPT_processRAM 3 2 [1; 2; 3] = Fault (OutOfRange 3).
Proof.
  eexists _, _.
  split; [vm_compute; reflexivity|].
  split; [vm_compute; reflexivity|].
  repeat split; vm_compute; reflexivity.
Qed.

(** C2 does not hold of the code.  On the trace [1, 2] with one frame,
    FIFO, LRU and MRU each return 2 misses, while OPT returns no miss
    count: its only eviction reads the trace at index 2, past its end. *)
Theorem OPT_returns_no_count iterL iterM noOfPages :
  iter_ok iterL → iter_ok iterM →
  FIFO_processRAM noOfPages 1 [1; 2] = Ok [2; 2] ∧
  LRU_processRAM iterL noOfPages 1 [1; 2] = Ok [2; 2] ∧
  MRU_processRAM iterM noOfPages 1 [1; 2] = Ok [2; 2] ∧
  OPT_processRAM noOfPages 1 [1; 2] = Fault (OutOfRange 2).
Proof.
  intros HiterL HiterM.
  rewrite (LRU_order_irrelevant iterL) by done.
  rewrite (MRU_order_irrelevant iterM) by done.
  split; [|split; [|split]]; vm_compute; reflexivity.
Qed.

Lemma OPT_returns_no_count_witness :
  FIFO_processRAM 2 1 [1; 2] = Ok [2; 2] ∧
  LRU_processRAM canon 2 1 [1; 2] = Ok [2; 2] ∧
  MRU_processRAM canon 2 1 [1; 2] = Ok [2; 2] ∧
  OPT_processRAM 2 1 [1; 2] = Fault (OutOfRange 2).
Proof. exact (OPT_returns_no_count canon canon 2 canon_ok canon_ok). Defined.

(** C3 holds of the code for three of the four policies.  On the trace of
    the worked example with three frames FIFO returns 9 misses, LRU 10 and
    MRU 7 (which lies in [7, 10]), for every visiting order of the
    resident set; OPT returns no miss count: at the reference of index 9
    it evicts at the index 12, the length of the trace. *)
Theorem fixture_counts iterL iterM noOfPages :
  iter_ok iterL → iter_ok iterM →
  FIFO_processRAM noOfPages 3 fixture = Ok [9; 12] ∧
  LRU_processRAM iterL noOfPages 3 fixture = Ok [10; 12] ∧
  MRU_processRAM iterM noOfPages 3 fixture = Ok [7; 12] ∧
  OPT_processRAM noOfPages 3 fixture = Fault (OutOfRange 12).
Proof.
  intros HiterL HiterM.
  rewrite (LRU_order_irrelevant iterL) by done.
  rewrite (MRU_order_irrelevant iterM) by done.
  split; [|split; [|split]]; vm_compute; reflexivity.
Qed.

Lemma fixture_counts_witness :
  FIFO_processRAM 5 3 fixture = Ok [9; 12] ∧
  LRU_processRAM canon 5 3 fixture = Ok [10; 12] ∧
  MRU_processRAM canon 5 3 fixture = Ok [7; 12] ∧
  OPT_processRAM 5 3 fixture = Fault (OutOfRange 12).
Proof. exact (fixture_counts canon canon 5 canon_ok canon_ok). Defined.

(** C8 does not hold of the code for OPT.  On the trace [1, 2, 1] with one
    frame, the first two references leave 2 as the one resident; the
    third reference misses with the frame full and, instead of evicting
    the resident, reads the trace at index 3, past its end. *)
Theorem OPT_full_miss_evicts_nothing :
  ∃ next st,
    OPT_next 3 [1; 2; 1] = Ok next ∧
    for_each (OPT_body 1 [1; 2; 1] next) (upto 2) OPT_init = Ok st ∧
    opt_cache st = {[2]} ∧
    size_is (opt_cache st) 1 = true ∧
    OPT_body 1 [1; 2; 1] next 2 st = Fault (OutOfRange 3).
Proof.
  eexists _, _.
  split; [vm_compute; reflexivity|].
  split; [vm_compute; reflexivity|].
  repeat split; vm_compute; reflexivity.
Qed.

(** * Further properties of the code *)

(** ** The replacement policies *)

(** X1: the table built by OPT's first loop is the table of next
    occurrences: for every position [k] of the trace, [next[k]] is the
    least position after [k] that holds the same identifier, or the length
    of the trace if there is none. *)
Theorem OPT_next_is_next_occurrence pageID :
  trace_ok pageID →
  ∃ next, OPT_next (size_as_int pageID) pageID = Ok next ∧
          length next = length pageID ∧
          ∀ (k : nat) id, pageID !! k = Some id →
            ∃ j : nat, next !! k = Some (Z.of_nat j) ∧
                       (k < j ≤ length pageID)%nat ∧
                       ((j < length pageID)%nat → pageID !! j = Some id) ∧
                       ∀ j', (k < j' < j)%nat → pageID !! j' ≠ Some id.
Proof.
  intros Hlen. rewrite (size_as_int_ok _ Hlen).
  destruct (OPT_next_table pageID Hlen) as (next & Hrun & Hnextlen & Hnext).
  exists next. split; [done|]. split; [done|]. intros k id Hk.
  exists (next_occ pageID (S k) id). split; [by apply Hnext|].
  pose proof (lookup_lt_Some _ _ _ Hk) as Hklt.
  pose proof (next_occ_range pageID (S k) id ltac:(lia)) as Hrange.
  split; [lia|]. split; [apply next_occ_lookup|].
  intros j' Hj'. apply (next_occ_first pageID (S k)). lia.
Qed.

Lemma OPT_next_is_next_occurrence_witness :
  ∃ next, OPT_next (size_as_int fixture) fixture = Ok next ∧
          length next = length fixture ∧
          ∀ (k : nat) id, fixture !! k = Some id →
            ∃ j : nat, next !! k = Some (Z.of_nat j) ∧
                       (k < j ≤ length fixture)%nat ∧
                       ((j < length fixture)%nat → fixture !! j = Some id) ∧
                       ∀ j', (k < j' < j)%nat → fixture !! j' ≠ Some id.
Proof.
  apply (OPT_next_is_next_occurrence fixture).
  unfold trace_ok. vm_compute. discriminate.
Defined.

(** X2: OPT returns a result exactly when it never has to evict.  With a
    frame for every distinct identifier of the trace it returns their
    number as its miss count; with fewer frames, but at least one, the run
    ends at the read of the trace at the index [pageID.size()]. *)
Theorem OPT_returns_iff_no_eviction noOfPages noOfRAMPages pageID :
  trace_ok pageID → 1 <= noOfRAMPages <= INT_MAX →
  (Z.of_nat (distinct pageID) <= noOfRAMPages →
   OPT_processRAM noOfPages noOfRAMPages pageID
   = Ok [Z.of_nat (distinct pageID); Z.of_nat (length pageID)]) ∧
  (noOfRAMPages < Z.of_nat (distinct pageID) →
   OPT_processRAM noOfPages noOfRAMPages pageID
   = Fault (OutOfRange (Z.of_nat (length pageID)))).
Proof.
  intros Hlen Hcap. split.
  - intros Hroom. apply OPT_cold; [done | lia].
  - intros Hmany. by apply OPT_faults_when_evicting.
Qed.

Lemma OPT_returns_iff_no_eviction_witness :
  OPT_processRAM 5 5 fixture = Ok [Z.of_nat (distinct fixture); Z.of_nat (length fixture)] ∧
  OPT_processRAM 5 4 fixture = Fault (OutOfRange (Z.of_nat (length fixture))).
Proof.
  split.
  - apply (OPT_returns_iff_no_eviction 5 5 fixture).
    + unfold trace_ok. vm_compute. discriminate.
    + unfold INT_MAX. lia.
    + vm_compute. discriminate.
  - apply (OPT_returns_iff_no_eviction 5 4 fixture).
    + unfold trace_ok. vm_compute. discriminate.
    + unfold INT_MAX. lia.
    + vm_compute. reflexivity.
Defined.

(** X3: FIFO keeps to its frames.  After any number of references its
    queue lists exactly the residents, each once, there are at most
    [noOfRAMPages] of them, and every resident has been referenced. *)
Theorem FIFO_keeps_to_frames noOfRAMPages pageID (k : nat) :
  1 <= noOfRAMPages <= INT_MAX → trace_ok pageID →
  ∃ st, for_each (FIFO_body noOfRAMPages) (take k pageID) FIFO_init = Ok st ∧
        fifo_cache st = list_to_set (fifo_order st) ∧
        NoDup (fifo_order st) ∧
        Z.of_nat (size (fifo_cache st)) <= noOfRAMPages ∧
        ∀ p, p ∈ fifo_cache st → p ∈ take k pageID.
Proof.
  intros Hcap Hlen.
  destruct (FIFO_run_ok noOfRAMPages pageID k Hcap Hlen)
    as (st & Hrun & (Hq & Hnd & Hsize) & Hsub & _).
  exists st. repeat split; try done.
  intros p Hp. apply Hsub, elem_of_list_to_set in Hp.
  apply elem_of_take in Hp as (i & Hi & Hlt). apply elem_of_take.
  exists i. split; [done | lia].
Qed.

Lemma FIFO_keeps_to_frames_witness :
  ∃ st, for_each (FIFO_body 3) (take 7 fixture) FIFO_init = Ok st ∧
        fifo_cache st = list_to_set (fifo_order st) ∧
        NoDup (fifo_order st) ∧
        Z.of_nat (size (fifo_cache st)) <= 3 ∧
        ∀ p, p ∈ fifo_cache st → p ∈ take 7 fixture.
Proof.
  apply (FIFO_keeps_to_frames 3 fixture 7).
  - unfold INT_MAX. lia.
  - unfold trace_ok. vm_compute. discriminate.
Defined.

(** X4: LRU and MRU keep to their frames, and their map of last uses is
    exact.  After any number [k] of references, for every order in which
    the resident set is visited, at most [noOfRAMPages] identifiers are
    resident, every resident has been referenced, and [lastUsed] maps every
    identifier to the position of its last reference among the first
    [k]. *)
Theorem recency_keeps_to_frames iterL iterM noOfRAMPages pageID (k : nat) :
  iter_ok iterL → iter_ok iterM →
  1 <= noOfRAMPages <= INT_MAX → trace_ok pageID → (k ≤ length pageID)%nat →
  (∃ st, for_each (recency_body LRU_scan iterL noOfRAMPages pageID)
                  (take k (upto (size_as_int pageID))) LRU_init = Ok st ∧
         Z.of_nat (size (lru_cache st)) <= noOfRAMPages ∧
         (∀ p, p ∈ lru_cache st → p ∈ take k pageID) ∧
         ∀ p, lru_lastUsed st !! p = Z.of_nat <$> last_occ (take k pageID) p) ∧
  (∃ st, for_each (recency_body MRU_scan iterM noOfRAMPages pageID)
                  (take k (upto (size_as_int pageID))) LRU_init = Ok st ∧
         Z.of_nat (size (lru_cache st)) <= noOfRAMPages ∧
         (∀ p, p ∈ lru_cache st → p ∈ take k pageID) ∧
         ∀ p, lru_lastUsed st !! p = Z.of_nat <$> last_occ (take k pageID) p).
Proof.
  intros HiterL HiterM Hcap Hlen Hk. rewrite (size_as_int_ok _ Hlen).
  split.
  - destruct (recency_run_ok _ _ LRU_scan_spec iterL HiterL noOfRAMPages Hcap
                pageID Hlen k) as (st & Hrun & Hlast & Hsub & Hsize & _).
    rewrite Nat.min_l in Hlast, Hsub by done.
    exists st. repeat split; try done.
    intros p Hp. by apply Hsub, elem_of_list_to_set in Hp.
  - destruct (recency_run_ok _ _ MRU_scan_spec iterM HiterM noOfRAMPages Hcap
                pageID Hlen k) as (st & Hrun & Hlast & Hsub & Hsize & _).
    rewrite Nat.min_l in Hlast, Hsub by done.
    exists st. repeat split; try done.
    intros p Hp. by apply Hsub, elem_of_list_to_set in Hp.
Qed.

Lemma recency_keeps_to_frames_witness :
  (∃ st, for_each (recency_body LRU_scan canon 3 fixture)
                  (take 7 (upto (size_as_int fixture))) LRU_init = Ok st ∧
         Z.of_nat (size (lru_cache st)) <= 3 ∧
         (∀ p, p ∈ lru_cache st → p ∈ take 7 fixture) ∧
         ∀ p, lru_lastUsed st !! p = Z.of_nat <$> last_occ (take 7 fixture) p) ∧
  (∃ st, for_each (recency_body MRU_scan canon 3 fixture)
                  (take 7 (upto (size_as_int fixture))) LRU_init = Ok st ∧
         Z.of_nat (size (lru_cache st)) <= 3 ∧
         (∀ p, p ∈ lru_cache st → p ∈ take 7 fixture) ∧
         ∀ p, lru_lastUsed st !! p = Z.of_nat <$> last_occ (take 7 fixture) p).
Proof.
  apply (recency_keeps_to_frames canon canon 3 fixture 7 canon_ok canon_ok).
  - unfold INT_MAX. lia.
  - unfold trace_ok. vm_compute. discriminate.
  - vm_compute. lia.
Defined.

(** X5: with at least one frame FIFO, LRU and MRU return a result; its
    total is the length of the trace and its miss count lies between the
    number of distinct identifiers of the trace and the total. *)
Theorem miss_count_bounds iterL iterM noOfPages noOfRAMPages pageID :
  iter_ok iterL → iter_ok iterM →
  1 <= noOfRAMPages <= INT_MAX → trace_ok pageID →
  (∃ m, FIFO_processRAM noOfPages noOfRAMPages pageID
          = Ok [m; Z.of_nat (length pageID)] ∧
        Z.of_nat (distinct pageID) <= m <= Z.of_nat (length pageID)) ∧
  (∃ m, LRU_processRAM iterL noOfPages noOfRAMPages pageID
          = Ok [m; Z.of_nat (length pageID)] ∧
        Z.of_nat (distinct pageID) <= m <= Z.of_nat (length pageID)) ∧
  (∃ m, MRU_processRAM iterM noOfPages noOfRAMPages pageID
          = Ok [m; Z.of_nat (length pageID)] ∧
        Z.of_nat (distinct pageID) <= m <= Z.of_nat (length pageID)).
Proof. apply counts_bounded. Qed.

Lemma miss_count_bounds_witness :
  (∃ m, FIFO_processRAM 5 3 fixture = Ok [m; Z.of_nat (length fixture)] ∧
        Z.of_nat (distinct fixture) <= m <= Z.of_nat (length fixture)) ∧
  (∃ m, LRU_processRAM canon 5 3 fixture = Ok [m; Z.of_nat (length fixture)] ∧
        Z.of_nat (distinct fixture) <= m <= Z.of_nat (length fixture)) ∧
  (∃ m, MRU_processRAM canon 5 3 fixture = Ok [m; Z.of_nat (length fixture)] ∧
        Z.of_nat (distinct fixture) <= m <= Z.of_nat (length fixture)).
Proof.
  apply (miss_count_bounds canon canon 5 3 fixture canon_ok canon_ok).
  - unfold INT_MAX. lia.
  - unfold trace_ok. vm_compute. discriminate.
Defined.

(** X6: LRU evicts the least recently used resident.  On a miss that
    finds all frames taken after [k] references, the identifier removed is
    a resident whose last reference among the first [k] is the oldest, and
    the new identifier takes its place. *)
Theorem LRU_evicts_least_recent iter noOfRAMPages pageID (k : nat) st id :
  iter_ok iter → 1 <= noOfRAMPages <= INT_MAX → trace_ok pageID →
  for_each (recency_body LRU_scan iter noOfRAMPages pageID)
           (take k (upto (size_as_int pageID))) LRU_init = Ok st →
  pageID !! k = Some id → id ∉ lru_cache st →
  Z.of_nat (size (lru_cache st)) = noOfRAMPages →
  ∃ v (a : nat) st',
    v ∈ lru_cache st ∧ last_occ (take k pageID) v = Some a ∧
    (∀ q, q ∈ lru_cache st →
          ∃ b : nat, last_occ (take k pageID) q = Some b ∧ (a ≤ b)%nat) ∧
    recency_body LRU_scan iter noOfRAMPages pageID (Z.of_nat k) st = Ok st' ∧
    lru_cache st' = {[id]} ∪ (lru_cache st ∖ {[v]}).
Proof.
  intros Hiter Hcap Hlen Hrun Hid Hmiss Hfull.
  destruct (recency_victim _ _ LRU_scan_spec iter Hiter noOfRAMPages Hcap pageID
              Hlen k st id Hrun Hid Hmiss Hfull)
    as (v & a & st' & Hv & Ha & Hbest & Hbody & Hcache).
  exists v, a, st'. repeat split; try done.
  intros q Hq. destruct (Hbest q Hq) as (b & Hb & Hle). exists b. split; [done | lia].
Qed.

Lemma LRU_evicts_least_recent_witness :
  let st := mkLRU 2 {[1; 2]} (<[1 := 2]> (<[2 := 1]> (<[1 := 0]> ∅))) in
  ∃ v (a : nat) st',
    v ∈ lru_cache st ∧ last_occ (take 3 [1; 2; 1; 3]) v = Some a ∧
    (∀ q, q ∈ lru_cache st →
          ∃ b : nat, last_occ (take 3 [1; 2; 1; 3]) q = Some b ∧ (a ≤ b)%nat) ∧
    recency_body LRU_scan canon 2 [1; 2; 1; 3] (Z.of_nat 3) st = Ok st' ∧
    lru_cache st' = {[3]} ∪ (lru_cache st ∖ {[v]}).
Proof.
  intros st.
  apply (LRU_evicts_least_recent canon 2 [1; 2; 1; 3] 3 st 3 canon_ok).
  - unfold INT_MAX. lia.
  - unfold trace_ok. vm_compute. discriminate.
  - vm_compute. reflexivity.
  - reflexivity.
  - unfold st. cbn [lru_cache]. set_solver.
  - vm_compute. reflexivity.
Defined.

(** X7: MRU evicts the most recently used resident.  On a miss that
    finds all frames taken after [k] references, the identifier removed is
    a resident whose last reference among the first [k] is the latest, and
    the new identifier takes its place. *)
Theorem MRU_evicts_most_recent iter noOfRAMPages pageID (k : nat) st id :
  iter_ok iter → 1 <= noOfRAMPages <= INT_MAX → trace_ok pageID →
  for_each (recency_body MRU_scan iter noOfRAMPages pageID)
           (take k (upto (size_as_int pageID))) LRU_init = Ok st →
  pageID !! k = Some id → id ∉ lru_cache st →
  Z.of_nat (size (lru_cache st)) = noOfRAMPages →
  ∃ v (a : nat) st',
    v ∈ lru_cache st ∧ last_occ (take k pageID) v = Some a ∧
    (∀ q, q ∈ lru_cache st →
          ∃ b : nat, last_occ (take k pageID) q = Some b ∧ (b ≤ a)%nat) ∧
    recency_body MRU_scan iter noOfRAMPages pageID (Z.of_nat k) st = Ok st' ∧
    lru_cache st' = {[id]} ∪ (lru_cache st ∖ {[v]}).
Proof.
  intros Hiter Hcap Hlen Hrun Hid Hmiss Hfull.
  destruct (recency_victim _ _ MRU_scan_spec iter Hiter noOfRAMPages Hcap pageID
              Hlen k st id Hrun Hid Hmiss Hfull)
    as (v & a & st' & Hv & Ha & Hbest & Hbody & Hcache).
  exists v, a, st'. repeat split; try done.
  intros q Hq. destruct (Hbest q Hq) as (b & Hb & Hle). exists b. split; [done | lia].
Qed.

Lemma MRU_evicts_most_recent_witness :
  let st := mkLRU 2 {[1; 2]} (<[1 := 2]> (<[2 := 1]> (<[1 := 0]> ∅))) in
  ∃ v (a : nat) st',
    v ∈ lru_cache st ∧ last_occ (take 3 [1; 2; 1; 3]) v = Some a ∧
    (∀ q, q ∈ lru_cache st →
          ∃ b : nat, last_occ (take 3 [1; 2; 1; 3]) q = Some b ∧ (b ≤ a)%nat) ∧
    recency_body MRU_scan canon 2 [1; 2; 1; 3] (Z.of_nat 3) st = Ok st' ∧
    lru_cache st' = {[3]} ∪ (lru_cache st ∖ {[v]}).
Proof.
  intros st.
  apply (MRU_evicts_most_recent canon 2 [1; 2; 1; 3] 3 st 3 canon_ok).
  - unfold INT_MAX. lia.
  - unfold trace_ok. vm_compute. discriminate.
  - vm_compute. reflexivity.
  - reflexivity.
  - unfold st. cbn [lru_cache]. set_solver.
  - vm_compute. reflexivity.
Defined.

(** X8: the results of LRU and of MRU do not depend on the order in which
    the range-for visits the [unordered_set] of residents. *)
Theorem recency_result_order_free iter iter' noOfPages noOfRAMPages pageID :
  iter_ok iter → iter_ok iter' →
  LRU_processRAM iter noOfPages noOfRAMPages pageID
  = LRU_processRAM iter' noOfPages noOfRAMPages pageID ∧
  MRU_processRAM iter noOfPages noOfRAMPages pageID
  = MRU_processRAM iter' noOfPages noOfRAMPages pageID.
Proof.
  intros Hiter Hiter'. split.
  - apply (recency_order_irrelevant _ _ LRU_scan_spec); done.
  - apply (recency_order_irrelevant _ _ MRU_scan_spec); done.
Qed.

Lemma recency_result_order_free_witness :
  LRU_processRAM canon 5 3 fixture
  = LRU_processRAM (λ _ cache, reverse (elements cache)) 5 3 fixture ∧
  MRU_processRAM canon 5 3 fixture
  = MRU_processRAM (λ _ cache, reverse (elements cache)) 5 3 fixture.
Proof.
  apply (recency_result_order_free canon (λ _ cache, reverse (elements cache))
           5 3 fixture canon_ok).
  intros i cache. apply reverse_Permutation.
Defined.

(** ** Processes and the sweep over the page sizes *)

(** X9: for a page size of the sweep from 1 on, [createAnalyze] sets the
    number of pages to the process size divided by the page size, rounded
    up, and the number of frames to the RAM size divided by the page size,
    rounded down; both are at least 1. *)
Theorem createAnalyze_pages_and_frames noOfProcess RAMSize processSize pageSize :
  1 <= pageSize <= Z.min RAMSize processSize →
  RAMSize <= INT_MAX → processSize + pageSize - 1 <= INT_MAX →
  ∃ a, createAnalyze noOfProcess RAMSize processSize pageSize = Ok a ∧
  (an_noOfPages a - 1) * pageSize < processSize <= an_noOfPages a * pageSize ∧
  an_noOfRAMPages a * pageSize <= RAMSize < (an_noOfRAMPages a + 1) * pageSize ∧
  1 <= an_noOfPages a <= processSize ∧ 1 <= an_noOfRAMPages a <= RAMSize.
Proof.
  intros Hps Hram Hsum.
  destruct (createAnalyze_arith noOfProcess RAMSize processSize pageSize Hps Hram Hsum)
    as (a & Ha & _ & _ & H).
  by exists a.
Qed.

Lemma createAnalyze_pages_and_frames_witness :
  ∃ a, createAnalyze 2 10 7 3 = Ok a ∧
  (an_noOfPages a - 1) * 3 < 7 <= an_noOfPages a * 3 ∧
  an_noOfRAMPages a * 3 <= 10 < (an_noOfRAMPages a + 1) * 3 ∧
  1 <= an_noOfPages a <= 7 ∧ 1 <= an_noOfRAMPages a <= 10.
Proof.
  apply (createAnalyze_pages_and_frames 2 10 7 3); unfold INT_MAX; lia.
Defined.

(** X10: the generator is called once per reference, in order.  For
    [noOfPages] from 1 on, reference [k] of the trace is the remainder of
    draw [k] by [noOfPages], plus 1, and the generator is left in the state
    after [100 * noOfPages] draws; for [noOfPages] at most 0 nothing is
    drawn and the trace is empty. *)
Theorem createProcess_draws {RS} (rand : RS → Z * RS) noOfPages noOfRAMPages s :
  INT_MIN <= 100 * noOfPages <= INT_MAX →
  let p := (createProcess rand noOfPages noOfRAMPages s).1 in
  proc_noOfPages p = noOfPages ∧ proc_noOfRAMPages p = noOfRAMPages ∧
  (noOfPages <= 0 →
     proc_pageID p = [] ∧ (createProcess rand noOfPages noOfRAMPages s).2 = s) ∧
  (1 <= noOfPages →
     (createProcess rand noOfPages noOfRAMPages s).2
       = draws rand (Z.to_nat (100 * noOfPages)) s ∧
     length (proc_pageID p) = Z.to_nat (100 * noOfPages) ∧
     ∀ k : nat, Z.of_nat k < 100 * noOfPages →
       proc_pageID p !! k
       = Some (Z.rem (rand (draws rand k s)).1 noOfPages + 1)).
Proof.
  intros Hint. unfold createProcess.
  rewrite wrap_id by done. split; [|split; [|split]].
  - by destruct (foldl _ _ _).
  - by destruct (foldl _ _ _).
  - intros Hn. rewrite upto_nonpos by lia. done.
  - intros Hn.
    rewrite createProcess_fold_draws by (unfold INT_MAX in *; lia).
    cbn [fst snd proc_pageID app]. rewrite upto_length.
    split; [done|]. split; [by rewrite length_fmap, length_seq|].
    intros k Hk. rewrite list_lookup_fmap, lookup_seq_lt by lia. done.
Qed.

Lemma createProcess_draws_witness :
  let p := (createProcess lcg 2 1 1).1 in
  proc_noOfPages p = 2 ∧ proc_noOfRAMPages p = 1 ∧
  (2 <= 0 → proc_pageID p = [] ∧ (createProcess lcg 2 1 1).2 = 1) ∧
  (1 <= 2 →
     (createProcess lcg 2 1 1).2 = draws lcg (Z.to_nat (100 * 2)) 1 ∧
     length (proc_pageID p) = Z.to_nat (100 * 2) ∧
     ∀ k : nat, Z.of_nat k < 100 * 2 →
       proc_pageID p !! k = Some (Z.rem (lcg (draws lcg k 1)).1 2 + 1)).
Proof.
  apply (createProcess_draws lcg 2 1 1). unfold INT_MIN, INT_MAX. lia.
Defined.

(** X11: the row of a process does not depend on the order in which the
    [unordered_map] of algorithms is traversed.  Whenever the four
    policies return, the row holds the unused cell (-1, -1) at index 0 and
    the results of OPT, FIFO, LRU and MRU at the indices 1 to 4; and when
    one of them does not return, neither does [runProcess]. *)
Theorem runProcess_row_any_order iterL iterM (mapping' : list (string * algoData)) p :
  mapping' ≡ₚ mapping iterL iterM → proc_noOfPages p ≠ -1 →
  (∀ rO rF rL rM,
     OPT_processRAM (proc_noOfPages p) (proc_noOfRAMPages p) (proc_pageID p) = Ok rO →
     FIFO_processRAM (proc_noOfPages p) (proc_noOfRAMPages p) (proc_pageID p) = Ok rF →
     LRU_processRAM iterL (proc_noOfPages p) (proc_noOfRAMPages p) (proc_pageID p) = Ok rL →
     MRU_processRAM iterM (proc_noOfPages p) (proc_noOfRAMPages p) (proc_pageID p) = Ok rM →
     runProcess mapping' p = Ok [[-1; -1]; rO; rF; rL; rM]) ∧
  (∀ it f, it ∈ mapping iterL iterM →
     processRAM it.2 (proc_noOfPages p) (proc_noOfRAMPages p) (proc_pageID p) = Fault f →
     ∃ f', runProcess mapping' p = Fault f').
Proof. apply runProcess_row_perm. Qed.

Lemma runProcess_row_any_order_witness :
  runProcess (reverse (mapping canon canon)) (mkProcess 5 5 fixture)
  = Ok [[-1; -1]; [5; 12]; [5; 12]; [5; 12]; [5; 12]] ∧
  ∃ f', runProcess (reverse (mapping canon canon)) (mkProcess 3 5 fixture) = Fault f'.
Proof.
  split.
  - apply (runProcess_row_any_order canon canon (reverse (mapping canon canon))
             (mkProcess 5 5 fixture)).
    + apply reverse_Permutation.
    + discriminate.
    + vm_compute. reflexivity.
    + vm_compute. reflexivity.
    + vm_compute. reflexivity.
    + vm_compute. reflexivity.
  - apply (runProcess_row_any_order canon canon (reverse (mapping canon canon))
             (mkProcess 3 5 fixture) (reverse_Permutation _) ltac:(discriminate))
      with (it := ("OPT"%string, mkAlgo OPT_processRAM 1)) (f := OutOfRange 12).
    + apply list_elem_of_here.
    + vm_compute. reflexivity.
Defined.

(** X12: a generated process with a frame for every page.  For
    [noOfPages] from 1 on and at least as many frames, in whatever order
    the table of algorithms is traversed, [runProcess] returns and the
    four algorithms have the same cell: as many misses as the trace has
    distinct identifiers, out of [100 * noOfPages] references. *)
Theorem runProcess_with_room {RS} (rand : RS → Z * RS) iterL iterM
    (ms : list (string * algoData)) noOfPages noOfRAMPages s :
  ms ≡ₚ mapping iterL iterM →
  (∀ s, 0 <= (rand s).1) →
  1 <= noOfPages → 100 * noOfPages <= INT_MAX →
  noOfPages <= noOfRAMPages <= INT_MAX →
  let p := (createProcess rand noOfPages noOfRAMPages s).1 in
  runProcess ms p
  = Ok [[-1; -1];
        [Z.of_nat (distinct (proc_pageID p)); 100 * noOfPages];
        [Z.of_nat (distinct (proc_pageID p)); 100 * noOfPages];
        [Z.of_nat (distinct (proc_pageID p)); 100 * noOfPages];
        [Z.of_nat (distinct (proc_pageID p)); 100 * noOfPages]] ∧
  1 <= Z.of_nat (distinct (proc_pageID p)) <= noOfPages.
Proof.
  intros Hms Hrand Hn Hmax Hcap p.
  destruct (runProcess_room rand iterL iterM noOfPages noOfRAMPages s Hrand Hn Hmax Hcap)
    as [Hrow Hle].
  fold p in Hrow, Hle. split.
  - apply (runProcess_perm iterL iterM (mapping iterL iterM) ms); [reflexivity | done | done].
  - split; [|done].
    destruct (createProcess_trace rand Hrand noOfPages noOfRAMPages s Hn Hmax) as [Hlen _].
    fold p in Hlen. unfold distinct.
    destruct (proc_pageID p) as [|x l]; [simpl in Hlen; lia|].
    assert (Hx : x ∈ (list_to_set (x :: l) : gset Z)) by set_solver.
    assert (Hne : size (list_to_set (x :: l) : gset Z) ≠ 0%nat).
    { intros Hz%size_empty_inv. set_solver. }
    lia.
Qed.

Lemma runProcess_with_room_witness :
  let p := (createProcess lcg 2 3 1).1 in
  runProcess (reverse (mapping canon canon)) p
  = Ok [[-1; -1];
        [Z.of_nat (distinct (proc_pageID p)); 100 * 2];
        [Z.of_nat (distinct (proc_pageID p)); 100 * 2];
        [Z.of_nat (distinct (proc_pageID p)); 100 * 2];
        [Z.of_nat (distinct (proc_pageID p)); 100 * 2]] ∧
  1 <= Z.of_nat (distinct (proc_pageID p)) <= 2.
Proof.
  apply (runProcess_with_room lcg canon canon (reverse (mapping canon canon)) 2 3 1).
  - apply reverse_Permutation.
  - apply lcg_nonneg.
  - lia.
  - unfold INT_MAX. lia.
  - unfold INT_MAX. lia.
Defined.

(** X13: a process that does not fit.  When the trace of a process has
    more distinct identifiers than there are frames (and there is at least
    one frame), [runProcess] does not return a row, in whatever order the
    table of algorithms is traversed: FIFO, LRU and MRU return, and OPT
    ends the run at its read of the trace at the index [pageID.size()]. *)
Theorem runProcess_stops_when_OPT_evicts iterL iterM (ms : list (string * algoData)) p :
  ms ≡ₚ mapping iterL iterM → iter_ok iterL → iter_ok iterM →
  proc_noOfPages p ≠ -1 → trace_ok (proc_pageID p) →
  1 <= proc_noOfRAMPages p <= INT_MAX →
  proc_noOfRAMPages p < Z.of_nat (distinct (proc_pageID p)) →
  runProcess ms p = Fault (OutOfRange (Z.of_nat (length (proc_pageID p)))).
Proof. apply runProcess_OPT_fault. Qed.

Lemma runProcess_stops_when_OPT_evicts_witness :
  runProcess (reverse (mapping canon canon)) (mkProcess 3 5 fixture)
  = Fault (OutOfRange (Z.of_nat (length fixture))).
Proof.
  apply (runProcess_stops_when_OPT_evicts canon canon (reverse (mapping canon canon))
           (mkProcess 3 5 fixture) (reverse_Permutation _) canon_ok canon_ok).
  - discriminate.
  - unfold trace_ok. vm_compute. discriminate.
  - cbn [proc_noOfRAMPages]. unfold INT_MAX. lia.
  - vm_compute. reflexivity.
Defined.

(** X14: the rows of a sweep.  When [analyzeOnAllPageSize] returns for at
    least one process, it has left the rows that were in the matrix
    untouched and appended one row for each page size from 0 to
    [min(RAMSize, processSize)], each with five cells of two [int]s. *)
Theorem sweep_rows {RS} (rand : RS → Z * RS) iterL iterM (ms : list (string * algoData))
    RAMSize noOfProcess processSize s mainOutput s' out :
  ms ≡ₚ mapping iterL iterM → 1 <= noOfProcess →
  Z.min RAMSize processSize < INT_MAX →
  analyzeOnAllPageSize rand ms RAMSize noOfProcess processSize (s, mainOutput)
  = Ok (s', out) →
  ∃ rows, out = mainOutput ++ rows ∧
          length rows = Z.to_nat (Z.min RAMSize processSize + 1) ∧
          Forall (row_ok 5) rows.
Proof.
  intros Hms HN _ Hsweep.
  apply (sweep_perm rand iterL iterM ms (mapping iterL iterM)) in Hsweep;
    [|done | reflexivity].
  apply sweep_shape in Hsweep as (rows & Hout & Hlen & Hrows & _).
  exists rows. auto.
Qed.

Lemma sweep_rows_witness :
  ∃ rows,
    [[[7; 7]]; [[-1; -1]; [-1; -1]; [-1; -1]; [-1; -1]; [-1; -1]];
     [[-1; -1]; [1; 100]; [1; 100]; [1; 100]; [1; 100]]]
    = [[[7; 7]]] ++ rows ∧
    length rows = Z.to_nat (Z.min 1 1 + 1) ∧ Forall (row_ok 5) rows.
Proof.
  apply (sweep_rows lcg canon canon (mapping canon canon) 1 1 1 1 [[[7; 7]]] 1738083805).
  - reflexivity.
  - lia.
  - unfold INT_MAX. lia.
  - vm_compute. reflexivity.
Defined.

(** X15: when the sweep returns, its result does not depend on the order
    in which the [unordered_map] of algorithms is traversed: it returns
    the same matrix, and leaves the generator in the same state, for every
    other order. *)
Theorem sweep_any_order {RS} (rand : RS → Z * RS) iterL iterM
    (ms ms' : list (string * algoData)) RAMSize noOfProcess processSize st st' :
  ms ≡ₚ mapping iterL iterM → ms' ≡ₚ mapping iterL iterM →
  Z.min RAMSize processSize < INT_MAX →
  analyzeOnAllPageSize rand ms RAMSize noOfProcess processSize st = Ok st' →
  analyzeOnAllPageSize rand ms' RAMSize noOfProcess processSize st = Ok st'.
Proof. intros Hms Hms' _. by apply (sweep_perm rand iterL iterM). Qed.

Lemma sweep_any_order_witness :
  analyzeOnAllPageSize lcg (reverse (mapping canon canon)) 1 1 1 (1, [])
  = Ok (1738083805,
        [[[-1; -1]; [-1; -1]; [-1; -1]; [-1; -1]; [-1; -1]];
         [[-1; -1]; [1; 100]; [1; 100]; [1; 100]; [1; 100]]]).
Proof.
  apply (sweep_any_order lcg canon canon (mapping canon canon)
           (reverse (mapping canon canon))).
  - reflexivity.
  - apply reverse_Permutation.
  - unfold INT_MAX. lia.
  - vm_compute. reflexivity.
Defined.

(** X16: a sweep without processes.  For a number of processes of 0 or
    less no process is generated: the sweep returns, leaves the generator
    as it was and appends one row without any cell for each page size. *)
Theorem sweep_without_processes {RS} (rand : RS → Z * RS) (ms : list (string * algoData))
    RAMSize noOfProcess processSize s mainOutput :
  noOfProcess <= 0 → Z.min RAMSize processSize < INT_MAX →
  analyzeOnAllPageSize rand ms RAMSize noOfProcess processSize (s, mainOutput)
  = Ok (s, mainOutput ++ replicate (Z.to_nat (Z.min RAMSize processSize + 1)) []).
Proof. intros HN _. by apply sweep_no_process. Qed.

Lemma sweep_without_processes_witness :
  analyzeOnAllPageSize lcg (mapping canon canon) 2 0 3 (1, [])
  = Ok (1, [] ++ replicate (Z.to_nat (Z.min 2 3 + 1)) []).
Proof.
  apply (sweep_without_processes lcg (mapping canon canon) 2 0 3 1 []).
  - lia.
  - unfold INT_MAX. lia.
Defined.

(** X17: a sweep with room for every process.  With a RAM size of at
    least twice the process size minus 1, at least one process and a
    generator that returns no negative number, the sweep returns; it
    appends [processSize + 1] rows, and in each of them OPT, FIFO, LRU and
    MRU have the same cell. *)
Theorem sweep_with_room {RS} (rand : RS → Z * RS) iterL iterM
    (ms : list (string * algoData)) RAMSize noOfProcess processSize s mainOutput :
  ms ≡ₚ mapping iterL iterM →
  (∀ s, 0 <= (rand s).1) → 1 <= noOfProcess <= INT_MAX →
  1 <= processSize → 100 * processSize <= INT_MAX →
  2 * processSize - 1 <= RAMSize <= INT_MAX →
  ∃ s' rows,
    analyzeOnAllPageSize rand ms RAMSize noOfProcess processSize (s, mainOutput)
    = Ok (s', mainOutput ++ rows) ∧
    Z.of_nat (length rows) = processSize + 1 ∧
    Forall (λ row, ∃ c0 c, row = [c0; c; c; c; c] ∧ cell_ok c0 ∧ cell_ok c) rows.
Proof.
  intros Hms Hrand HN Hps Hmax Hram.
  destruct (sweep_room rand iterL iterM RAMSize noOfProcess processSize s mainOutput
              Hrand HN Hps Hmax Hram) as (s' & rows & Hsweep & Hlen & Htied).
  exists s', rows. split; [|done].
  by apply (sweep_perm rand iterL iterM (mapping iterL iterM) ms).
Qed.

Lemma sweep_with_room_witness :
  ∃ s' rows,
    analyzeOnAllPageSize lcg (reverse (mapping canon canon)) 5 2 3 (1, [])
    = Ok (s', [] ++ rows) ∧
    Z.of_nat (length rows) = 3 + 1 ∧
    Forall (λ row, ∃ c0 c, row = [c0; c; c; c; c] ∧ cell_ok c0 ∧ cell_ok c) rows.
Proof.
  apply (sweep_with_room lcg canon canon (reverse (mapping canon canon)) 5 2 3 1 []).
  - apply reverse_Permutation.
  - apply lcg_nonneg.
  - unfold INT_MAX. lia.
  - lia.
  - unfold INT_MAX. lia.
  - unfold INT_MAX. lia.
Defined.

(** X24: the row of a page size holds the sums over its processes.  When
    [runProcesses] returns for at least one process, the generator has
    been advanced by the traces of [noOfProcess] processes generated one
    after the other, [runProcess] has returned a row for each of them, and
    the row appended to the matrix holds, in each of its five cells, the
    [int] sums of the misses and of the totals of these rows. *)
Theorem runProcesses_sums {RS} (rand : RS → Z * RS) iterL iterM
    (ms : list (string * algoData)) noOfProcess noOfPages noOfRAMPages
    s mainOutput s' out :
  ms ≡ₚ mapping iterL iterM → 1 <= noOfProcess →
  runProcesses rand ms (mkAnalyze noOfProcess noOfPages noOfRAMPages []) (s, mainOutput)
  = Ok (s', out) →
  ∃ rows,
    Forall2 (λ p row, runProcess ms p = Ok row)
            (processes rand noOfPages noOfRAMPages (Z.to_nat noOfProcess) s).1 rows ∧
    s' = (processes rand noOfPages noOfRAMPages (Z.to_nat noOfProcess) s).2 ∧
    out = mainOutput ++ [row_sum 5 rows].
Proof. apply runProcesses_sum. Qed.

Lemma runProcesses_sums_witness :
  ∃ rows,
    Forall2 (λ p row, runProcess (mapping canon canon) p = Ok row)
            (processes lcg 1 1 (Z.to_nat 2) 1).1 rows ∧
    229119865 = (processes lcg 1 1 (Z.to_nat 2) 1).2 ∧
    [[[-2; -2]; [2; 200]; [2; 200]; [2; 200]; [2; 200]]] = [] ++ [row_sum 5 rows].
Proof.
  apply (runProcesses_sums lcg canon canon (mapping canon canon) 2 1 1 1 [] 229119865).
  - reflexivity.
  - lia.
  - vm_compute. reflexivity.
Defined.

(** X25: [analyze::mergeOutput] on an accumulator and a row of any
    lengths.  The cells that both have are added up statistic by
    statistic, the cells that only the accumulator has are kept, and the
    cells that only the row has are appended. *)
Theorem mergeOutput_any_lengths this curOutput :
  Forall cell_ok this → Forall cell_ok curOutput →
  mergeOutput this curOutput
  = Ok (zip_with cell_add this curOutput
        ++ drop (length curOutput) this ++ drop (length this) curOutput).
Proof. apply mergeOutput_lengths. Qed.

Lemma mergeOutput_any_lengths_witness :
  mergeOutput [[1; 10]] [[2; 20]; [3; 30]]
  = Ok (zip_with cell_add [[1; 10]] [[2; 20]; [3; 30]]
        ++ drop (length [[2; 20]; [3; 30]]) [[1; 10]]
        ++ drop (length [[1; 10]]) [[2; 20]; [3; 30]]).
Proof.
  apply (mergeOutput_any_lengths [[1; 10]] [[2; 20]; [3; 30]]).
  - repeat constructor; (eexists _, _; split; [done|]; unfold is_int, INT_MIN, INT_MAX; lia).
  - repeat constructor; (eexists _, _; split; [done|]; unfold is_int, INT_MIN, INT_MAX; lia).
Defined.

(** ** Printing *)

Section Printing.
Context (to_string_int : Z → string) (to_string_rate : Z → Z → string).

(** X18: the table that [printCurrentStats] writes.  For a matrix with at
    least one row whose rows from 1 on hold five cells of two [int]s, and
    cell texts shorter than [2 ^ 31], the function returns once its
    [while] loops are given as many rounds as a line is long.  It writes
    [Results:] and the lines of the table: row 0 holds the headings, row
    [i] the page size [i] and, in the column of each algorithm's
    identifier, the text of [1.0 * (total - miss) / total]; every cell is
    padded with spaces to the width of its column, and the lines stand
    between two borders of dashes.  The order in which the table of
    algorithms is traversed makes no difference. *)
Theorem printCurrentStats_table iterL iterM (ms : list (string * algoData))
    (mainOutput : list (list (list Z))) (fuel : nat) :
  let n := length mainOutput in
  let f := stats_cell to_string_int to_string_rate mainOutput in
  ms ≡ₚ mapping iterL iterM →
  (1 <= n)%nat → Z.of_nat n + 2 <= INT_MAX →
  (∀ i row, mainOutput !! i = Some row → (1 <= i)%nat → row_ok 5 row) →
  (∀ i j, (i < n)%nat → (j < 5)%nat → Z.of_nat (String.length (f i j)) <= INT_MAX) →
  (String.length (render_row (padded f n) 5 0) <= fuel)%nat →
  printCurrentStats to_string_int to_string_rate ms fuel mainOutput
  = Returns ("Results:"%string :: table_lines f n 5).
Proof. apply printCurrentStats_lines. Qed.

(** X19: the printed table is aligned.  For a matrix with at least one
    row whose rows from 1 on hold five cells of two [int]s, and cell texts
    shorter than [2 ^ 31], the function writes, after [Results:], two
    lines more than the matrix has rows, and all of them have the same
    length. *)
Theorem printCurrentStats_aligned iterL iterM (ms : list (string * algoData))
    (mainOutput : list (list (list Z))) (fuel : nat) :
  let n := length mainOutput in
  let f := stats_cell to_string_int to_string_rate mainOutput in
  ms ≡ₚ mapping iterL iterM →
  (1 <= n)%nat → Z.of_nat n + 2 <= INT_MAX →
  (∀ i row, mainOutput !! i = Some row → (1 <= i)%nat → row_ok 5 row) →
  (∀ i j, (i < n)%nat → (j < 5)%nat → Z.of_nat (String.length (f i j)) <= INT_MAX) →
  (String.length (render_row (padded f n) 5 0) <= fuel)%nat →
  ∃ lines (w : nat),
    printCurrentStats to_string_int to_string_rate ms fuel mainOutput
    = Returns ("Results:"%string :: lines) ∧
    length lines = (n + 2)%nat ∧
    Forall (λ line, String.length line = w) lines.
Proof.
  intros n f Hms Hn Hint Hrows Hshort Hfuel.
  exists (table_lines f n 5),
         (2 + sum_list_with (λ j, width f n j + 3) (seq 0 5))%nat.
  split; [by apply (printCurrentStats_lines to_string_int to_string_rate iterL iterM)|].
  destruct (table_lines_aligned f n 5 Hn) as [Hlen Hall].
  split; [done|]. by apply Forall_forall.
Qed.

(** X20: row 0 of the matrix, the row of page size 0, is never read:
    whatever it holds, and whether the function returns or not,
    [printCurrentStats] behaves the same. *)
Theorem printCurrentStats_row_zero_unread (ms : list (string * algoData)) fuel
    (row0 row0' : list (list Z)) (rows : list (list (list Z))) :
  printCurrentStats to_string_int to_string_rate ms fuel (row0 :: rows)
  = printCurrentStats to_string_int to_string_rate ms fuel (row0' :: rows).
Proof.
  unfold printCurrentStats.
  change (size_as_int (row0 :: rows)) with (size_as_int (row0' :: rows)).
  set (n := size_as_int (row0' :: rows)).
  case_bool_decide; [done|]. case_bool_decide; [done|].
  destruct (label_rows to_string_int n _) as [t1|e]; [|done]. cbn [lift mbind run_bind].
  assert (Hcols : ∀ t,
    for_each (column_body to_string_rate n (row0 :: rows)) ms t
    = for_each (column_body to_string_rate n (row0' :: rows)) ms t).
  { intros t. apply for_each_ext. intros it t2 _. unfold column_body.
    destruct (set_cell t2 0 (algoID it.2) _) as [t3|e]; [|done]. cbn [mbind result_bind].
    apply for_each_ext. intros i t4 Hi. unfold rows_from_1 in Hi.
    apply elem_of_seqZ in Hi. unfold rate_body.
    by rewrite (at_index_tail row0 row0') by lia. }
  by rewrite Hcols.
Qed.
End Printing.

Lemma printCurrentStats_table_witness :
  printCurrentStats show_int show_rate (reverse (mapping canon canon)) 100
    [[]; [[-1; -1]; [3; 100]; [5; 100]; [7; 100]; [9; 100]]]
  = Returns ("Results:"%string ::
             table_lines (stats_cell show_int show_rate
                            [[]; [[-1; -1]; [3; 100]; [5; 100]; [7; 100]; [9; 100]]]) 2 5).
Proof.
  apply (printCurrentStats_table show_int show_rate canon canon
           (reverse (mapping canon canon))
           [[]; [[-1; -1]; [3; 100]; [5; 100]; [7; 100]; [9; 100]]] 100).
  - apply reverse_Permutation.
  - cbn [length]. lia.
  - cbn [length]. unfold INT_MAX. lia.
  - intros i row Hi Hi1. destruct i as [|[|i]]; [lia | | done].
    injection Hi as <-. split; [done|].
    repeat constructor; (eexists _, _; split; [done|]; unfold is_int, INT_MIN, INT_MAX; lia).
  - intros i j Hi Hj. apply stats_cell_short; [apply short_show | | | done | done].
    + cbn [length]. unfold INT_MAX. lia.
    + intros i' row Hrow Hi1. destruct i' as [|[|i']]; [lia | | done].
      injection Hrow as <-. split; [done|].
      repeat constructor;
        (eexists _, _; split; [done|]; unfold is_int, INT_MIN, INT_MAX; lia).
  - apply Nat.leb_le. vm_compute. reflexivity.
Defined.

Lemma printCurrentStats_aligned_witness :
  ∃ lines (w : nat),
    printCurrentStats show_int show_rate (mapping canon canon) 100
      [[]; [[-1; -1]; [3; 100]; [5; 100]; [7; 100]; [9; 100]]]
    = Returns ("Results:"%string :: lines) ∧
    length lines = (2 + 2)%nat ∧
    Forall (λ line, String.length line = w) lines.
Proof.
  apply (printCurrentStats_aligned show_int show_rate canon canon (mapping canon canon)
           [[]; [[-1; -1]; [3; 100]; [5; 100]; [7; 100]; [9; 100]]] 100).
  - reflexivity.
  - cbn [length]. lia.
  - cbn [length]. unfold INT_MAX. lia.
  - intros i row Hi Hi1. destruct i as [|[|i]]; [lia | | done].
    injection Hi as <-. split; [done|].
    repeat constructor; (eexists _, _; split; [done|]; unfold is_int, INT_MIN, INT_MAX; lia).
  - intros i j Hi Hj. apply stats_cell_short; [apply short_show | | | done | done].
    + cbn [length]. unfold INT_MAX. lia.
    + intros i' row Hrow Hi1. destruct i' as [|[|i']]; [lia | | done].
      injection Hrow as <-. split; [done|].
      repeat constructor;
        (eexists _, _; split; [done|]; unfold is_int, INT_MIN, INT_MAX; lia).
  - apply Nat.leb_le. vm_compute. reflexivity.
Defined.

(** ** The whole program *)

(** X21: the program with room for every process.  With a RAM size of at
    least twice the process size minus 1, at least one process, a
    generator that returns no negative number and [to_string] texts
    shorter than [2 ^ 31], [main] returns once its [while] loops are given
    as many rounds as a line is long: the sweep fills a matrix of
    [processSize + 1] rows and [main] writes its table, in which every row
    shows the same rate for OPT, FIFO, LRU and MRU. *)
Theorem main_with_room {RS} (rand : RS → Z * RS)
    (to_string_int : Z → string) (to_string_rate : Z → Z → string)
    iterL iterM (ms : list (string * algoData))
    (noOfProcess RAMSize processSize : Z) s :
  ms ≡ₚ mapping iterL iterM →
  (∀ s, 0 <= (rand s).1) →
  short_strings to_string_int to_string_rate →
  1 <= noOfProcess <= INT_MAX →
  1 <= processSize → 100 * processSize <= INT_MAX →
  2 * processSize - 1 <= RAMSize <= INT_MAX →
  ∃ s' out,
    analyzeOnAllPageSize rand ms RAMSize noOfProcess processSize (s, []) = Ok (s', out) ∧
    Z.of_nat (length out) = processSize + 1 ∧
    (∀ i j, (1 <= i < length out)%nat → (1 <= j <= 4)%nat →
       rate_cell to_string_rate out i j = rate_cell to_string_rate out i 1) ∧
    ∀ fuel : nat,
      (String.length (render_row
         (padded (stats_cell to_string_int to_string_rate out) (length out)) 5 0)
       <= fuel)%nat →
      main to_string_int to_string_rate ms rand fuel noOfProcess RAMSize processSize s
      = Returns ("Results:"%string ::
                 table_lines (stats_cell to_string_int to_string_rate out) (length out) 5).
Proof.
  intros Hms Hrand Hshort HN Hps Hmax Hram.
  destruct (sweep_room rand iterL iterM RAMSize noOfProcess processSize s []
              Hrand HN Hps Hmax Hram) as (s' & rows & Hsweep & Hlen & Htied).
  cbn [app] in Hsweep.
  apply (sweep_perm rand iterL iterM (mapping iterL iterM) ms) in Hsweep;
    [|reflexivity | done].
  exists s', rows. split; [done|]. split; [done|]. split.
  - intros i j Hi Hj.
    destruct (lookup_lt_is_Some_2 rows i) as [row Hrow]; [lia|].
    apply (tied_rates to_string_rate rows i j row Hrow); [|done].
    rewrite Forall_forall in Htied. apply Htied. by eapply list_elem_of_lookup_2.
  - intros fuel Hfuel.
    assert (Hn : length rows = Z.to_nat (Z.min RAMSize processSize + 1)) by lia.
    rewrite Hn in Hfuel |- *.
    apply (main_prints rand to_string_int to_string_rate iterL iterM
             ms noOfProcess RAMSize processSize s s' rows fuel);
      [done | done | lia | lia | unfold INT_MAX in *; lia | done | done].
Qed.

Lemma main_with_room_witness :
  ∃ s' out,
    analyzeOnAllPageSize lcg (reverse (mapping canon canon)) 5 2 3 (1, []) = Ok (s', out) ∧
    Z.of_nat (length out) = 3 + 1 ∧
    (∀ i j, (1 <= i < length out)%nat → (1 <= j <= 4)%nat →
       rate_cell show_rate out i j = rate_cell show_rate out i 1) ∧
    ∀ fuel : nat,
      (String.length (render_row
         (padded (stats_cell show_int show_rate out) (length out)) 5 0)
       <= fuel)%nat →
      main show_int show_rate (reverse (mapping canon canon)) lcg fuel 2 5 3 1
      = Returns ("Results:"%string ::
                 table_lines (stats_cell show_int show_rate out) (length out) 5).
Proof.
  apply (main_with_room lcg show_int show_rate canon canon
           (reverse (mapping canon canon)) 2 5 3 1).
  - apply reverse_Permutation.
  - apply lcg_nonneg.
  - apply short_show.
  - unfold INT_MAX. lia.
  - lia.
  - unfold INT_MAX. lia.
  - unfold INT_MAX. lia.
Defined.

(** X22: a negative size.  When the RAM size or the process size is
    negative the sweep visits no page size, the matrix stays empty, and
    [main] ends at the first statement of [printCurrentStats] that writes
    the table, [table[0][0] = "Page Size"], on a table without rows. *)
Theorem main_negative_size {RS} (rand : RS → Z * RS)
    (to_string_int : Z → string) (to_string_rate : Z → Z → string)
    (ms : list (string * algoData))
    (noOfProcess RAMSize processSize : Z) s (fuel : nat) :
  Z.of_nat (length ms) < INT_MAX →
  Z.min RAMSize processSize < 0 →
  main to_string_int to_string_rate ms rand fuel noOfProcess RAMSize processSize s
  = GoesWrong (OutOfRange 0).
Proof.
  intros Hms Hmin. unfold main. rewrite sweep_negative_size by done.
  cbn [lift mbind run_bind snd]. by apply printCurrentStats_nil.
Qed.

Lemma main_negative_size_witness :
  main show_int show_rate (mapping canon canon) lcg 0 3 (-1) 4 1
  = GoesWrong (OutOfRange 0).
Proof.
  apply (main_negative_size lcg show_int show_rate (mapping canon canon) 3 (-1) 4 1 0).
  - vm_compute. reflexivity.
  - lia.
Defined.

(** X23: no process.  For a number of processes of 0 or less and RAM and
    process sizes from 1 on, the sweep leaves a matrix whose rows have no
    cells, and [main] ends in [printCurrentStats] at the read of the cell
    of the algorithm that the traversal of the table visits first; the
    read is the one in row 1: on every matrix whose row 1 has no cell,
    whatever its other rows hold, the table is left at that read. *)
Theorem main_without_processes {RS} (rand : RS → Z * RS)
    (to_string_int : Z → string) (to_string_rate : Z → Z → string)
    iterL iterM (it : string * algoData) (ms : list (string * algoData))
    (noOfProcess RAMSize processSize : Z) s (fuel : nat) :
  it :: ms ≡ₚ mapping iterL iterM →
  noOfProcess <= 0 → 1 <= Z.min RAMSize processSize < INT_MAX →
  analyzeOnAllPageSize rand (it :: ms) RAMSize noOfProcess processSize (s, [])
  = Ok (s, replicate (Z.to_nat (Z.min RAMSize processSize + 1)) []) ∧
  main to_string_int to_string_rate (it :: ms) rand fuel
       noOfProcess RAMSize processSize s
  = GoesWrong (OutOfRange (algoID it.2)) ∧
  1 <= algoID it.2 <= 4 ∧
  ∀ mainOutput : list (list (list Z)),
    Z.of_nat (length mainOutput) <= INT_MAX → mainOutput !! 1%nat = Some [] →
    printCurrentStats to_string_int to_string_rate (it :: ms) fuel mainOutput
    = GoesWrong (OutOfRange (algoID it.2)).
Proof.
  intros Hms HN Hmin.
  assert (Hprint : ∀ mainOutput : list (list (list Z)),
    Z.of_nat (length mainOutput) <= INT_MAX → mainOutput !! 1%nat = Some [] →
    1 <= algoID it.2 <= 4 ∧
    printCurrentStats to_string_int to_string_rate (it :: ms) fuel mainOutput
    = GoesWrong (OutOfRange (algoID it.2))).
  { intros mainOutput Hint Hrow.
    by apply (printCurrentStats_no_cell to_string_int to_string_rate iterL iterM). }
  pose proof (sweep_no_process rand (it :: ms) RAMSize noOfProcess processSize s [] HN)
    as Hsweep.
  cbn [app] in Hsweep. split; [done|].
  destruct (Hprint (replicate (Z.to_nat (Z.min RAMSize processSize + 1)) []))
    as [Hid Hmain].
  { rewrite length_replicate. lia. }
  { apply lookup_replicate_2. lia. }
  split; [|split; [done|]].
  - unfold main. rewrite Hsweep. cbn [lift mbind run_bind snd]. done.
  - intros mainOutput Hint Hrow. by apply Hprint.
Qed.

Lemma main_without_processes_witness :
  let it := ("MRU"%string, mkAlgo (MRU_processRAM canon) 4) in
  let ms := [("LRU"%string, mkAlgo (LRU_processRAM canon) 3);
             ("FIFO"%string, mkAlgo FIFO_processRAM 2);
             ("OPT"%string, mkAlgo OPT_processRAM 1)] in
  analyzeOnAllPageSize lcg (it :: ms) 2 0 2 (1, [])
  = Ok (1, replicate (Z.to_nat (Z.min 2 2 + 1)) []) ∧
  main show_int show_rate (it :: ms) lcg 0 0 2 2 1 = GoesWrong (OutOfRange 4) ∧
  1 <= algoID it.2 <= 4 ∧
  ∀ mainOutput : list (list (list Z)),
    Z.of_nat (length mainOutput) <= INT_MAX → mainOutput !! 1%nat = Some [] →
    printCurrentStats show_int show_rate (it :: ms) 0 mainOutput
    = GoesWrong (OutOfRange (algoID it.2)).
Proof.
  intros it ms.
  apply (main_without_processes lcg show_int show_rate canon canon it ms 0 2 2 1 0).
  - change (it :: ms) with (reverse (mapping canon canon)).
    apply reverse_Permutation.
  - lia.
  - unfold INT_MAX. lia.
Defined.

(** ** The residents that are evicted *)

(** X26: OPT chooses the resident whose next reference is farthest.  On a
    miss that finds all frames taken at position [k], the resident chosen
    has the latest next occurrence from [k] on among the residents; if it
    is referenced again it is removed and the new identifier takes its
    place, and if it is never referenced again the run ends at the read of
    the trace at the index [pageID.size()]. *)
Theorem OPT_evicts_farthest noOfRAMPages pageID next (k : nat) st id :
  1 <= noOfRAMPages <= INT_MAX → trace_ok pageID →
  OPT_next (size_as_int pageID) pageID = Ok next →
  for_each (OPT_body noOfRAMPages pageID next)
           (take k (upto (size_as_int pageID))) OPT_init = Ok st →
  pageID !! k = Some id → id ∉ opt_cache st →
  Z.of_nat (size (opt_cache st)) = noOfRAMPages →
  ∃ v, v ∈ opt_cache st ∧
       (∀ q, q ∈ opt_cache st → (next_occ pageID k q ≤ next_occ pageID k v)%nat) ∧
       (next_occ pageID k v = length pageID →
        OPT_body noOfRAMPages pageID next (Z.of_nat k) st
        = Fault (OutOfRange (Z.of_nat (length pageID)))) ∧
       ((next_occ pageID k v < length pageID)%nat →
        ∃ st', OPT_body noOfRAMPages pageID next (Z.of_nat k) st = Ok st' ∧
               opt_cache st' = {[id]} ∪ (opt_cache st ∖ {[v]}) ∧
               opt_missCount st' = wrap (opt_missCount st + 1)).
Proof.
  intros Hcap Hlen Hnext Hrun Hid Hmiss Hfull.
  rewrite (size_as_int_ok _ Hlen) in Hnext, Hrun.
  destruct (OPT_next_table pageID Hlen) as (next0 & Hnext0 & _ & Htable).
  assert (next0 = next) as -> by congruence.
  pose proof (OPT_prefix_inv noOfRAMPages pageID next Hcap Htable k st Hrun) as Hinv.
  rewrite Nat.min_l in Hinv by (apply lookup_lt_Some in Hid; lia).
  by apply OPT_body_farthest.
Qed.

Lemma OPT_evicts_farthest_witness :
  let pageID := [1; 2; 3; 1; 2] in
  let st := mkOPT 2 {[1; 2]} {[3; 4]} in
  ∃ v, v ∈ opt_cache st ∧
       (∀ q, q ∈ opt_cache st → (next_occ pageID 2 q ≤ next_occ pageID 2 v)%nat) ∧
       (next_occ pageID 2 v = length pageID →
        OPT_body 2 pageID [3; 4; 5; 5; 5] (Z.of_nat 2) st
        = Fault (OutOfRange (Z.of_nat (length pageID)))) ∧
       ((next_occ pageID 2 v < length pageID)%nat →
        ∃ st', OPT_body 2 pageID [3; 4; 5; 5; 5] (Z.of_nat 2) st = Ok st' ∧
               opt_cache st' = {[3]} ∪ (opt_cache st ∖ {[v]}) ∧
               opt_missCount st' = wrap (opt_missCount st + 1)).
Proof.
  intros pageID st.
  apply (OPT_evicts_farthest 2 pageID [3; 4; 5; 5; 5] 2 st 3).
  - unfold INT_MAX. lia.
  - unfold trace_ok. vm_compute. discriminate.
  - vm_compute. reflexivity.
  - vm_compute. reflexivity.
  - reflexivity.
  - unfold st. cbn [opt_cache]. set_solver.
  - vm_compute. reflexivity.
Defined.

(** X27: MRU evicts the identifier referenced just before.  On a miss that
    finds all frames taken at position [k], the identifier removed is
    [pageID[k - 1]]: once the frames are full, the identifier of every miss
    replaces the one referenced immediately before it. *)
Theorem MRU_evicts_previous iter noOfRAMPages pageID (k : nat) st id :
  iter_ok iter → 1 <= noOfRAMPages <= INT_MAX → trace_ok pageID →
  for_each (recency_body MRU_scan iter noOfRAMPages pageID)
           (take k (upto (size_as_int pageID))) LRU_init = Ok st →
  pageID !! k = Some id → id ∉ lru_cache st →
  Z.of_nat (size (lru_cache st)) = noOfRAMPages →
  ∃ v st',
    (1 ≤ k)%nat ∧ pageID !! (k - 1)%nat = Some v ∧ v ∈ lru_cache st ∧
    recency_body MRU_scan iter noOfRAMPages pageID (Z.of_nat k) st = Ok st' ∧
    lru_cache st' = {[id]} ∪ (lru_cache st ∖ {[v]}).
Proof. apply MRU_victim_previous. Qed.

Lemma MRU_evicts_previous_witness :
  let st := mkLRU 2 {[1; 2]} (<[2 := 1]> (<[1 := 0]> ∅)) in
  ∃ v st',
    (1 ≤ 2)%nat ∧ [1; 2; 3; 1] !! (2 - 1)%nat = Some v ∧ v ∈ lru_cache st ∧
    recency_body MRU_scan canon 2 [1; 2; 3; 1] (Z.of_nat 2) st = Ok st' ∧
    lru_cache st' = {[3]} ∪ (lru_cache st ∖ {[v]}).
Proof.
  intros st.
  apply (MRU_evicts_previous canon 2 [1; 2; 3; 1] 2 st 3 canon_ok).
  - unfold INT_MAX. lia.
  - unfold trace_ok. vm_compute. discriminate.
  - vm_compute. reflexivity.
  - reflexivity.
  - unfold st. cbn [lru_cache]. set_solver.
  - vm_compute. reflexivity.
Defined.

(** X28: LRU keeps the most recently referenced identifiers.  Let the
    stack of a trace list its identifiers in the order of their last
    references, the latest first, and let a reference count as a miss of
    the stack when its identifier is not among the [noOfRAMPages] topmost.
    After any number of references the residents of LRU are the
    [noOfRAMPages] topmost identifiers of the stack and the misses counted
    are those of the stack; so the result of LRU is the number of misses of
    the stack, for every order in which the residents are visited. *)
Theorem LRU_is_stack iter noOfPages noOfRAMPages pageID :
  iter_ok iter → 1 <= noOfRAMPages <= INT_MAX → trace_ok pageID →
  (∀ k : nat, ∃ st,
     for_each (recency_body LRU_scan iter noOfRAMPages pageID)
              (take k (upto (size_as_int pageID))) LRU_init = Ok st ∧
     lru_cache st
     = list_to_set (take (Z.to_nat noOfRAMPages)
                         (stack_run (Z.to_nat noOfRAMPages) (take k pageID)).1) ∧
     lru_missCount st
     = Z.of_nat (stack_run (Z.to_nat noOfRAMPages) (take k pageID)).2) ∧
  LRU_processRAM iter noOfPages noOfRAMPages pageID
  = Ok [Z.of_nat (stack_run (Z.to_nat noOfRAMPages) pageID).2;
        Z.of_nat (length pageID)].
Proof.
  intros Hiter Hcap Hlen. split.
  - intros k. by apply LRU_stack_prefix.
  - by apply LRU_counts_stack.
Qed.

Lemma LRU_is_stack_witness :
  (∀ k : nat, ∃ st,
     for_each (recency_body LRU_scan canon 3 fixture)
              (take k (upto (size_as_int fixture))) LRU_init = Ok st ∧
     lru_cache st
     = list_to_set (take (Z.to_nat 3) (stack_run (Z.to_nat 3) (take k fixture)).1) ∧
     lru_missCount st = Z.of_nat (stack_run (Z.to_nat 3) (take k fixture)).2) ∧
  LRU_processRAM canon 5 3 fixture
  = Ok [Z.of_nat (stack_run (Z.to_nat 3) fixture).2; Z.of_nat (length fixture)].
Proof.
  apply (LRU_is_stack canon 5 3 fixture canon_ok).
  - unfold INT_MAX. lia.
  - unfold trace_ok. vm_compute. discriminate.
Defined.

(** X29: more frames never cost LRU a miss.  For two numbers of frames,
    the second at least the first, after any number of references the
    residents with fewer frames are among the residents with more frames
    and at most as many misses have been counted with more frames; so the
    miss count that LRU returns with more frames is at most the one it
    returns with fewer. *)
Theorem LRU_more_frames iter iter' noOfPages noOfPages' frames frames' pageID :
  iter_ok iter → iter_ok iter' → 1 <= frames <= frames' → frames' <= INT_MAX →
  trace_ok pageID →
  (∀ k : nat, ∃ st st',
     for_each (recency_body LRU_scan iter frames pageID)
              (take k (upto (size_as_int pageID))) LRU_init = Ok st ∧
     for_each (recency_body LRU_scan iter' frames' pageID)
              (take k (upto (size_as_int pageID))) LRU_init = Ok st' ∧
     lru_cache st ⊆ lru_cache st' ∧ lru_missCount st' <= lru_missCount st) ∧
  ∃ m m', LRU_processRAM iter noOfPages frames pageID
          = Ok [m; Z.of_nat (length pageID)] ∧
          LRU_processRAM iter' noOfPages' frames' pageID
          = Ok [m'; Z.of_nat (length pageID)] ∧
          m' <= m.
Proof.
  intros Hiter Hiter' Hfr Hmax Hlen. split.
  - intros k. by apply LRU_frames_prefix.
  - by apply LRU_frames_result.
Qed.

Lemma LRU_more_frames_witness :
  (∀ k : nat, ∃ st st',
     for_each (recency_body LRU_scan canon 3 fixture)
              (take k (upto (size_as_int fixture))) LRU_init = Ok st ∧
     for_each (recency_body LRU_scan canon 4 fixture)
              (take k (upto (size_as_int fixture))) LRU_init = Ok st' ∧
     lru_cache st ⊆ lru_cache st' ∧ lru_missCount st' <= lru_missCount st) ∧
  ∃ m m', LRU_processRAM canon 5 3 fixture = Ok [m; Z.of_nat (length fixture)] ∧
          LRU_processRAM canon 5 4 fixture = Ok [m'; Z.of_nat (length fixture)] ∧
          m' <= m.
Proof.
  apply (LRU_more_frames canon canon 5 5 3 4 fixture canon_ok canon_ok).
  - lia.
  - unfold INT_MAX. lia.
  - unfold trace_ok. vm_compute. discriminate.
Defined.
